(** * miniqmc drivers: move engine, batched driver and pseudopotential loop

    A shallow embedding of the Monte Carlo loops of
    - [src/Drivers/check_determinant.cpp] (single-walker check driver),
    - [src/Drivers/miniqmc_sync_move_noref.cpp] (batched, synchronous driver),
    - [src/Drivers/MiniqmcDriverFunctions.hpp] (crowd driver),
    with the calls they make recorded as a trace of events.

    Conventions.
    - [RealType] values are the rationals denoted by the doubles of the code;
      a comparison of two doubles is the comparison of these rationals.
      Rounded arithmetic ([std::sqrt], products, sums) is an interface.
    - C [int] counters that come from [atoi] are [Z]; a loop
      [for (i = 0; i < n; ++i)] runs [Z.to_nat n] times.
    - Arrays are lists, read with a default and written by index. *)

From Stdlib Require Import QArith Qabs.
From stdpp Require Import base tactics option list strings.

Open Scope nat_scope.

(** ** Reals and positions *)

Definition RealType := Q.

(** [a < b] on doubles. [a > b] of the code is [real_lt b a]. *)
Definition real_lt (a b : RealType) : bool :=
  match (a ?= b)%Q with
  | Lt => true
  | _ => false
  end.

(** [TinyVector<RealType, 3>] *)
Definition PosType := (RealType * RealType * RealType)%type.

Definition pos_zero : PosType := (0%Q, 0%Q, 0%Q).

(** Rounded floating-point operations. *)
Class FloatOps := {
  fsqrt : RealType -> RealType;
  fmul : RealType -> RealType -> RealType;
  fadd : RealType -> RealType -> RealType
}.

(** Random stream interface: [generate_uniform(ptr, n)] and
    [generate_normal(ptr, n)] fill [n] reals and advance the stream. *)
Class RandomStream (G : Type) := {
  generate_uniform : G -> nat -> list RealType * G;
  generate_normal : G -> nat -> list RealType * G
}.

(** Particle geometry interface. *)
Class Geometry := {
  applyBoundary : PosType -> PosType * bool;
  distancesTo : PosType -> list RealType
}.

(** Orbital oracle and the dense kernels of the determinant. *)
Class MatrixBackend := {
  evaluate : PosType -> list RealType;
  invert : list (list RealType) -> list (list RealType);
  inner_product : list RealType -> list (list RealType) -> nat -> RealType;
  updateRow : list (list RealType) -> list RealType -> nat -> RealType
              -> list (list RealType)
}.

Section Vectors.
Context `{FloatOps}.

(** [s * v] for a [PosType] *)
Definition pos_scale (s : RealType) (v : PosType) : PosType :=
  let '(x, y, z) := v in (fmul s x, fmul s y, fmul s z).

Definition pos_add (a b : PosType) : PosType :=
  let '(x, y, z) := a in
  let '(u, v, w) := b in (fadd x u, fadd y v, fadd z w).
End Vectors.

(** [delta[i]] where [delta] is the flat buffer [&delta[0][0]] of [3 * n]
    reals. *)
Definition delta_at (buf : list RealType) (i : nat) : PosType :=
  (nth (3 * i) buf 0%Q, nth (3 * i + 1) buf 0%Q, nth (3 * i + 2) buf 0%Q).

(** ** Particle set *)

Record ParticleSet := mkParticleSet {
  R : list PosType;
  activePtcl : option nat;
  activePos : PosType;
  UnlikeDTDistances : list (list RealType)
}.

Definition getTotalNum (P : ParticleSet) : nat := length (R P).

Section ParticleSetOps.
Context `{FloatOps} `{Geometry}.

(** Modelled from the spec: [ParticleSet::setActive] (Particle/ParticleSet.h
    is not part of the sources); it selects the electron the next
    proposal is for. *)
Definition setActive (iel : nat) (P : ParticleSet) : ParticleSet :=
  mkParticleSet (R P) (Some iel) (activePos P) (UnlikeDTDistances P).

(** Modelled from the spec: [ParticleSet::makeMoveAndCheck]; the
    displacement is added to the electron's current position, the
    boundary is applied, and the validity verdict of the geometry is
    returned. The committed positions are left as they are. *)
Definition makeMoveAndCheck (iel : nat) (dr : PosType) (P : ParticleSet)
  : ParticleSet * bool :=
  let '(p, ok) := applyBoundary (pos_add (nth iel (R P) pos_zero) dr) in
  (mkParticleSet (R P) (Some iel) p (UnlikeDTDistances P), ok).

(** Modelled from the spec: [ParticleSet::acceptMove]; commits the
    position change (and the electron's row of the distance table). *)
Definition acceptMove (iel : nat) (P : ParticleSet) : ParticleSet :=
  mkParticleSet (<[iel := activePos P]> (R P)) None (activePos P)
                (<[iel := distancesTo (activePos P)]> (UnlikeDTDistances P)).

(** Modelled from the spec: [ParticleSet::rejectMove]; the electron keeps
    its pre-proposal position. *)
Definition rejectMove (iel : nat) (P : ParticleSet) : ParticleSet :=
  mkParticleSet (R P) None (activePos P) (UnlikeDTDistances P).

(** Modelled from the spec: [ParticleSet::donePbyP]; closes the
    particle-by-particle phase. *)
Definition donePbyP (P : ParticleSet) : ParticleSet :=
  mkParticleSet (R P) None (activePos P) (UnlikeDTDistances P).
End ParticleSetOps.

(** ** Slater matrix and maintained inverse *)

Record DiracDeterminant := mkDet {
  psiM : list (list RealType);
  psiMinv : list (list RealType);
  psiV : list RealType;
  curRatio : RealType;
  psiV_pending : bool
}.

Section DeterminantOps.
Context `{MatrixBackend}.

(** Modelled from the spec: [recompute()] (QMCWaveFunctions/Determinant.h
    is not part of the sources); the inverse is rebuilt from the matrix
    by direct factorization. *)
Definition recompute (d : DiracDeterminant) : DiracDeterminant :=
  mkDet (psiM d) (invert (psiM d)) (psiV d) (curRatio d) (psiV_pending d).

(** Modelled from the spec: the determinant's [ratio], the
    [evaluateRatioAndGradient] of the spec; the oracle gives the candidate
    row at the trial position, the ratio is its product with the
    inverse's column, and the row is kept in the scratch buffer. *)
Definition ratio (P : ParticleSet) (iel : nat) (d : DiracDeterminant)
  : DiracDeterminant :=
  let row := evaluate (activePos P) in
  mkDet (psiM d) (psiMinv d) row (inner_product row (psiMinv d) iel) true.

(** Modelled from the spec: the determinant's [acceptMove], the
    [commitAcceptedMove] of the spec; rank-one update of the inverse with
    the scratch row and the stored ratio, and the matrix row is
    replaced. *)
Definition det_acceptMove (P : ParticleSet) (iel : nat) (d : DiracDeterminant)
  : DiracDeterminant :=
  mkDet (<[iel := psiV d]> (psiM d))
        (updateRow (psiMinv d) (psiV d) iel (curRatio d))
        (psiV d) (curRatio d) false.

(** Modelled from the spec: the wavefunction's [restore], the
    [discardMove] of the spec; the scratch row is invalidated, matrix and
    inverse are not written. *)
Definition det_restore (iel : nat) (d : DiracDeterminant) : DiracDeterminant :=
  mkDet (psiM d) (psiMinv d) (psiV d) (curRatio d) false.
End DeterminantOps.

(** ** Traces and counted loops *)

(** The calls a driver makes, as events. [w] is the walker's index in the
    batch (0 in the single-walker driver), [iel] the electron.
    - [EvRecompute]: [recompute()] of a determinant;
    - [EvSetActive], [EvEvalGrad]: [setActive], [evalGrad], for all walkers;
    - [EvMakeMove]: [makeMoveAndCheck] of a walker, with its verdict;
    - [EvRatio]: the ratio evaluation of a walker at its trial position;
    - [EvTest]: the acceptance test, with the draw read and the verdict;
    - [EvAccept], [EvReject]: [acceptMove], [rejectMove] of the particle set;
    - [EvCommit], [EvRestore]: [acceptMove], [restore] of the wavefunction;
    - [EvDonePbyP], [EvEvaluateGL]: the finalize of a Monte Carlo step;
    - [EvFindPairs], [EvNLPP]: setup and one pair index of the
      pseudopotential loop;
    - the others: the calls of [movers_thread_main] on its crowd. *)
Inductive Event :=
| EvRecompute
| EvSetActive (iel : nat)
| EvEvalGrad (iel : nat)
| EvMakeMove (w iel : nat) (isValid : bool)
| EvRatio (w iel : nat)
| EvTest (w iel : nat) (u : RealType) (accepted : bool)
| EvAccept (w iel : nat)
| EvCommit (w iel : nat)
| EvReject (w iel : nat)
| EvRestore (w iel : nat)
| EvDonePbyP
| EvEvaluateGL
| EvFindPairs
| EvNLPP (eiPair : nat)
| EvFillRandoms
| EvConstructTrialMoves (iel : nat)
| EvRatioGrad (iel : nat)
| EvHessian (iel : nat)
| EvFinishUpdate (iel : nat)
| EvAcceptRestore (iel : nat)
| EvCalcNLPP.

(** [for (i = lo; i < lo + n; ++i) body(i)], with the events of the
    iterations in order. *)
Fixpoint for_from {St E : Type} (body : nat -> St -> St * list E)
         (lo n : nat) (s : St) : St * list E :=
  match n with
  | O => (s, [])
  | S n' =>
      let '(s1, t1) := body lo s in
      let '(s2, t2) := for_from body (S lo) n' s1 in
      (s2, t1 ++ t2)
  end.

Definition for_loop {St E : Type} (n : nat) (body : nat -> St -> St * list E)
  : St -> St * list E :=
  for_from body 0 n.

(** ** Parameters shared by the drivers *)

(** [const RealType tau = 2.0;] *)
Definition tau : RealType := 2%Q.

Section SqrtTau.
Context `{FloatOps}.

(** [RealType sqrttau = std::sqrt(tau);] *)
Definition sqrttau : RealType := fsqrt tau.
End SqrtTau.

(** ** check_determinant.cpp *)

Module CheckDeterminant.

(** What one call of [getopt] in the option loop returns for the option
    string ["hvVg:n:N:r:s:"], with the argument already converted by
    [sscanf] or [atoi]. ['r'] is in the option string but has no [case].
    [opt_g] holds the numbers that [sscanf] converts, in order: it may
    convert fewer than three. [opt_none] is the return value -1 while
    [optind < argc]: a non-option argument. *)
Inductive opt :=
| opt_g (ns : list Z)
| opt_h
| opt_n (v : Z)
| opt_N (v : Z)
| opt_r
| opt_s (v : Z)
| opt_v
| opt_V
| opt_unknown
| opt_none.

Record options := mkOptions {
  na : Z;
  nb : Z;
  nc : Z;
  nsteps : Z;
  iseed : Z;
  nsubsteps : Z;
  verbose : bool
}.

Definition defaults : options :=
  mkOptions 1 1 1 5 11 1 false.

(** [RealType accept = 0.5;] *)
Definition accept : RealType := (1 # 2)%Q.

(** [sscanf(optarg, "%d %d %d", &na, &nb, &nc)]: the conversions are
    assigned in order, and those that fail leave their variable as it is. *)
Definition scan3 (ns : list Z) (abc : Z * Z * Z) : Z * Z * Z :=
  let '(a, b, c) := abc in
  match ns with
  | [] => (a, b, c)
  | [x] => (x, b, c)
  | [x; y] => (x, y, c)
  | x :: y :: z :: _ => (x, y, z)
  end.

(** The [while (optind < argc)] loop over options. [None]: the process
    ends with status 1 before the run ([print_help] calls [exit(1)], also
    for a non-option argument; ['V'] returns 1). *)
Fixpoint parse_options (args : list opt) (o : options) : option options :=
  match args with
  | [] => Some o
  | a :: rest =>
      match a with
      | opt_g ns =>
          let '(n0, n1, n2) := scan3 ns (na o, nb o, nc o) in
          parse_options rest
            (mkOptions n0 n1 n2 (nsteps o) (iseed o) (nsubsteps o) (verbose o))
      | opt_n v =>
          parse_options rest
            (mkOptions (na o) (nb o) (nc o) v (iseed o) (nsubsteps o) (verbose o))
      | opt_N v =>
          parse_options rest
            (mkOptions (na o) (nb o) (nc o) (nsteps o) (iseed o) v (verbose o))
      | opt_s v =>
          parse_options rest
            (mkOptions (na o) (nb o) (nc o) (nsteps o) v (nsubsteps o) (verbose o))
      | opt_v =>
          parse_options rest
            (mkOptions (na o) (nb o) (nc o) (nsteps o) (iseed o) (nsubsteps o) true)
      | opt_h | opt_V | opt_r | opt_unknown | opt_none => None
      end
  end.

Section Driver.
Context {G : Type} `{RandomStream G} `{FloatOps} `{Geometry} `{MatrixBackend}.

Record state := mkState {
  random_th : G;
  els : ParticleSet;
  determinant_ref : DiracDeterminant;
  determinant : DiracDeterminant;
  my_accepted : nat
}.

(** Body of [for (int iel = 0; iel < nels; ++iel)]. The walker of this
    driver is walker 0 in the events. *)
Definition electron_step (acc : RealType) (ur delta : list RealType)
           (iel : nat) (s : state) : state * list Event :=
  let P1 := setActive iel (els s) in
  let dr := pos_scale sqrttau (delta_at delta iel) in
  let '(P2, isValid) := makeMoveAndCheck iel dr P1 in
  if negb isValid then
    (mkState (random_th s) P2 (determinant_ref s) (determinant s) (my_accepted s),
     [EvSetActive iel; EvMakeMove 0 iel false])
  else
    let dref := ratio P2 iel (determinant_ref s) in
    let ddev := ratio P2 iel (determinant s) in
    let u := nth iel ur 0%Q in
    if real_lt acc u then
      let P3 := acceptMove iel P2 in
      (mkState (random_th s) P3 (det_acceptMove P3 iel dref)
               (det_acceptMove P3 iel ddev) (S (my_accepted s)),
       [EvSetActive iel; EvMakeMove 0 iel true; EvRatio 0 iel; EvRatio 0 iel;
        EvTest 0 iel u true; EvAccept 0 iel; EvCommit 0 iel; EvCommit 0 iel])
    else
      (mkState (random_th s) (rejectMove iel P2) dref ddev (my_accepted s),
       [EvSetActive iel; EvMakeMove 0 iel true; EvRatio 0 iel; EvRatio 0 iel;
        EvTest 0 iel u false; EvReject 0 iel]).

(** Body of [for (int l = 0; l < nsubsteps; ++l)]. *)
Definition substep (acc : RealType) (ur : list RealType) (nels : nat)
           (s : state) : state * list Event :=
  let '(delta, g) := generate_normal (random_th s) (3 * nels) in
  for_loop nels (electron_step acc ur delta)
    (mkState g (els s) (determinant_ref s) (determinant s) (my_accepted s)).

(** Body of [for (int mc = 0; mc < nsteps; ++mc)]. *)
Definition mc_step (acc : RealType) (ur : list RealType) (nels : nat)
           (nsub : Z) (s : state) : state * list Event :=
  let s1 := mkState (random_th s) (els s) (recompute (determinant_ref s))
                    (recompute (determinant s)) (my_accepted s) in
  let '(s2, t) := for_loop (Z.to_nat nsub) (fun _ => substep acc ur nels) s1 in
  (mkState (random_th s2) (donePbyP (els s2)) (determinant_ref s2)
           (determinant s2) (my_accepted s2),
   [EvRecompute; EvRecompute] ++ t ++ [EvDonePbyP]).

(** The vector [ur] of the run: [random_th.generate_uniform(ur.data(), nels)]. *)
Definition draw_ur (s : state) : list RealType * state :=
  let '(ur, g) := generate_uniform (random_th s) (getTotalNum (els s)) in
  (ur, mkState g (els s) (determinant_ref s) (determinant s) (my_accepted s)).

(** From the declaration of [ur] to the end of the Monte Carlo loop. *)
Definition run (nst nsub : Z) (s : state) : state * list Event :=
  let nels := getTotalNum (els s) in
  let '(ur, s1) := draw_ur s in
  for_loop (Z.to_nat nst) (fun _ => mc_step accept ur nels nsub) s1.

(** [main]: the options, the setup (ions from the tiling, generator
    seeded with [myPrimes[ip]], electrons and determinants built from
    it), then the run. *)
Definition main (setup : Z -> Z -> Z -> state) (args : list opt)
  : option (state * list Event) :=
  match parse_options args defaults with
  | None => None
  | Some o => Some (run (nsteps o) (nsubsteps o) (setup (na o) (nb o) (nc o)))
  end.
End Driver.

End CheckDeterminant.

(** ** miniqmc_sync_move_noref.cpp *)

(** Pseudopotential quadrature, [NonLocalPP]: its number of knots, the
    randomly rotated unit sphere, and the trial position of an electron on
    the sphere around an ion. *)
Class Quadrature (NL : Type) := {
  nlpp_size : NL -> nat;
  randomize : NL -> list PosType * NL;
  sphere_position : ParticleSet -> nat -> nat -> PosType -> PosType
}.

Module SyncMove.

(** What one call of [getopt] in the option loop returns for
    ["hjvVa:c:g:m:n:N:r:s:t:w:x:"], arguments converted by [atoi], [atof]
    or [sscanf]; the values of [atof] are taken to be finite. [opt_g]
    holds the numbers that [sscanf] converts, in order. [opt_none] is the
    return value -1 while [optind < argc]: a non-option argument. *)
Inductive opt :=
| opt_a (v : Z)
| opt_c (v : Z)
| opt_g (ns : list Z)
| opt_h
| opt_j
| opt_m (meshfactor : RealType)
| opt_n (v : Z)
| opt_N (v : Z)
| opt_r (v : RealType)
| opt_s (v : Z)
| opt_t (level : string)
| opt_v
| opt_V
| opt_w (v : Z)
| opt_x (v : RealType)
| opt_unknown
| opt_none.

(** How a part of [main] ends: it goes on with a value, [main] returns 1,
    the loop it is in never ends, or the behaviour is undefined. *)
Inductive outcome (A : Type) :=
| Proceeds (a : A)
| Returns1
| NeverEnds
| Undefined.
Arguments Proceeds {A}.
Arguments Returns1 {A}.
Arguments NeverEnds {A}.
Arguments Undefined {A}.

Record options := mkOptions {
  na : Z;
  nb : Z;
  nc : Z;
  nsteps : Z;
  iseed : Z;
  nx : Z;
  ny : Z;
  nz : Z;
  nmovers : Z;
  tileSize : Z;
  team_size : Z;
  nsubsteps : Z;
  Rmax : RealType;
  accept : RealType;
  enableJ3 : bool;
  verbose : bool;
  timer_level_name : string
}.

(** [RealType Rmax(1.7);]: the double nearest to 1.7,
    7656119366529843 / 2^52. *)
Definition Rmax_default : RealType := (7656119366529843 # 4503599627370496)%Q.

Definition defaults : options :=
  mkOptions 1 1 1 5 11 37 37 37 1 (-1) 1 1 Rmax_default (1 # 2)%Q false false
            "fine"%string.

(** The values of an [int]. *)
Definition int_min : Z := (-2147483648)%Z.

Definition int_max : Z := 2147483647%Z.

(** Conversion of a floating-point value to [int]: the fraction is
    discarded; [None]: the result is not a value of [int], and the
    behaviour is undefined. *)
Definition to_int (q : RealType) : option Z :=
  let z := Z.quot (Qnum q) (Zpos (Qden q)) in
  if ((int_min <=? z) && (z <=? int_max))%Z then Some z else None.

(** [n *= meshfactor] on an [int]: the rounded product, converted back. *)
Definition scale_int `{FloatOps} (n : Z) (f : RealType) : option Z :=
  to_int (fmul (inject_Z n) f).

(** [sscanf(optarg, "%d %d %d", &na, &nb, &nc)]: the conversions are
    assigned in order, and those that fail leave their variable as it is. *)
Definition scan3 (ns : list Z) (abc : Z * Z * Z) : Z * Z * Z :=
  let '(a, b, c) := abc in
  match ns with
  | [] => (a, b, c)
  | [x] => (x, b, c)
  | [x; y] => (x, y, c)
  | x :: y :: z :: _ => (x, y, z)
  end.

(** The [switch] of the option loop and its [else] branch. A non-option
    argument only prints the help: [print_help] of this file does not
    exit and [getopt] does not step over the argument, so the condition
    [optind < argc] stays true and the loop never ends. *)
Definition set_option `{FloatOps} (a : opt) (o : options) : outcome options :=
  let '(mkOptions na nb nc nsteps iseed nx ny nz nmovers tileSize team_size
                  nsubsteps Rmax accept enableJ3 verbose tl) := o in
  match a with
  | opt_a v => Proceeds (mkOptions na nb nc nsteps iseed nx ny nz nmovers v team_size
                               nsubsteps Rmax accept enableJ3 verbose tl)
  | opt_c v => Proceeds (mkOptions na nb nc nsteps iseed nx ny nz nmovers tileSize v
                               nsubsteps Rmax accept enableJ3 verbose tl)
  | opt_g ns =>
      let '(n0, n1, n2) := scan3 ns (na, nb, nc) in
      Proceeds (mkOptions n0 n1 n2 nsteps iseed nx ny nz nmovers tileSize team_size
                          nsubsteps Rmax accept enableJ3 verbose tl)
  | opt_j => Proceeds (mkOptions na nb nc nsteps iseed nx ny nz nmovers tileSize team_size
                             nsubsteps Rmax accept true verbose tl)
  | opt_m f =>
      match scale_int nx f, scale_int ny f, scale_int nz f with
      | Some nx1, Some ny1, Some nz1 =>
          Proceeds (mkOptions na nb nc nsteps iseed nx1 ny1 nz1 nmovers tileSize
                              team_size nsubsteps Rmax accept enableJ3 verbose tl)
      | _, _, _ => Undefined
      end
  | opt_n v => Proceeds (mkOptions na nb nc v iseed nx ny nz nmovers tileSize team_size
                               nsubsteps Rmax accept enableJ3 verbose tl)
  | opt_N v => Proceeds (mkOptions na nb nc nsteps iseed nx ny nz nmovers tileSize team_size
                               v Rmax accept enableJ3 verbose tl)
  | opt_r v => Proceeds (mkOptions na nb nc nsteps iseed nx ny nz nmovers tileSize team_size
                               nsubsteps Rmax v enableJ3 verbose tl)
  | opt_s v => Proceeds (mkOptions na nb nc nsteps v nx ny nz nmovers tileSize team_size
                               nsubsteps Rmax accept enableJ3 verbose tl)
  | opt_t l => Proceeds (mkOptions na nb nc nsteps iseed nx ny nz nmovers tileSize team_size
                               nsubsteps Rmax accept enableJ3 verbose l)
  | opt_v => Proceeds (mkOptions na nb nc nsteps iseed nx ny nz nmovers tileSize team_size
                             nsubsteps Rmax accept enableJ3 true tl)
  | opt_w v => Proceeds (mkOptions na nb nc nsteps iseed nx ny nz v tileSize team_size
                               nsubsteps Rmax accept enableJ3 verbose tl)
  | opt_x v => Proceeds (mkOptions na nb nc nsteps iseed nx ny nz nmovers tileSize team_size
                               nsubsteps v accept enableJ3 verbose tl)
  | opt_h | opt_V | opt_unknown => Returns1
  | opt_none => NeverEnds
  end.

(** The option loop [while (optind < argc)]. *)
Fixpoint parse_options `{FloatOps} (args : list opt) (o : options) : outcome options :=
  match args with
  | [] => Proceeds o
  | a :: rest =>
      match set_option a o with
      | Proceeds o' => parse_options rest o'
      | Returns1 => Returns1
      | NeverEnds => NeverEnds
      | Undefined => Undefined
      end
  end.

Record Mover (G NL : Type) := mkMover {
  rng : G;
  els : ParticleSet;
  wavefunction : DiracDeterminant;
  nlpp : NL
}.
Arguments mkMover {G NL}.
Arguments rng {G NL}.
Arguments els {G NL}.
Arguments wavefunction {G NL}.
Arguments nlpp {G NL}.

(** One walker's slice of the buffers of the pseudopotential loop:
    [EiLists(w, :, :)], [rOnSphere(w, :)], [bigElPos(w, :)],
    [tempPsiV(w, :, :)] and [ratios[w * nknots ..]]. The temporary distance
    buffers [bigLikeTempR] and [bigUnlikeTempR] feed the Jastrow factors
    only and are left out. *)
Record walker_work := mkWork {
  EiList : list (Z * Z);
  rOnSphere : list PosType;
  bigElPos : list PosType;
  tempPsiV : list (list RealType);
  ratios : list RealType
}.

(** Modelled from the spec: [filtered_list] (Drivers/Mover.hpp is not part
    of the sources); the walkers whose mask entry is set, in order. A
    pointer to a mover is its index in [mover_list]. *)
Fixpoint filtered_from (i : nat) (isValid : list bool) : list nat :=
  match isValid with
  | [] => []
  | b :: rest =>
      if b then i :: filtered_from (S i) rest else filtered_from (S i) rest
  end.

Definition filtered_list (isValid : list bool) : list nat :=
  filtered_from 0 isValid.

(** [UnlikeDTDistances(elNum, atNum)] and [UnlikeDTDistances.extent(1)] *)
Definition dist_at (P : ParticleSet) (elNum atNum : nat) : RealType :=
  nth atNum (nth elNum (UnlikeDTDistances P) []) 0%Q.

Definition dist_extent1 (P : ParticleSet) : nat :=
  length (hd [] (UnlikeDTDistances P)).

(** The double loop over electrons and ions of "FindNumEiPairs" and
    "SetupEiLists", threading an accumulator. *)
Definition over_pairs {A : Type} (locRmax : RealType) (P : ParticleSet)
           (hit : nat -> nat -> A -> A) (a : A) : A :=
  fold_left
    (fun acc elNum =>
       fold_left
         (fun acc' atNum =>
            if real_lt (dist_at P elNum atNum) locRmax
            then hit elNum atNum acc' else acc')
         (seq 0 (dist_extent1 P)) acc)
    (seq 0 (length (R P))) a.

(** [EiPairs(walkerNum)] *)
Definition FindNumEiPairs (locRmax : RealType) (P : ParticleSet) : nat :=
  over_pairs locRmax P (fun _ _ pairSum => S pairSum) 0.

(** [maxSize] *)
Definition max_pairs (EiPairs : list nat) : nat :=
  fold_left (fun maxSize n => if maxSize <? n then n else maxSize) EiPairs 0.

(** [EiLists(walkerNum, :, :)]: column 0 set to -1 in every slot, then the
    pairs written at [idx]. *)
Definition SetupEiLists (locRmax : RealType) (maxSize : nat) (P : ParticleSet)
  : list (Z * Z) :=
  fst (over_pairs locRmax P
         (fun elNum atNum '(l, idx) =>
            (<[idx := (Z.of_nat elNum, Z.of_nat atNum)]> l, S idx))
         (replicate maxSize ((-1)%Z, 0%Z), 0)).

Section Driver.
Context {G NL : Type} `{RandomStream G} `{FloatOps} `{Geometry}
        `{MatrixBackend} `{Quadrature NL}.

Abbreviation mover := (Mover G NL).

Definition with_rng (g : G) (m : mover) : mover :=
  mkMover g (els m) (wavefunction m) (nlpp m).

Definition with_els (f : ParticleSet -> ParticleSet) (m : mover) : mover :=
  mkMover (rng m) (f (els m)) (wavefunction m) (nlpp m).

Definition with_wf (f : ParticleSet -> DiracDeterminant -> DiracDeterminant)
           (m : mover) : mover :=
  mkMover (rng m) (els m) (f (els m) (wavefunction m)) (nlpp m).

(** A call on a list of pointers to movers: the movers at the indices
    [ptrs] are updated in place, in the order of the list; [args] holds
    one argument per pointer. *)
Definition on_each {A : Type} (f : A -> mover -> mover)
           (ptrs : list nat) (args : list A) (ms : list mover) : list mover :=
  fold_left (fun acc '(i, a) => alter (f a) i acc) (zip ptrs args) ms.

(** Modelled from the spec: [ParticleSet::multi_setActiveKokkos]
    (Particle/ParticleSet.h is not part of the sources); [setActive] for
    every walker. *)
Definition multi_setActive (iel : nat) (ms : list mover) : list mover :=
  with_els (setActive iel) <$> ms.

(** [drMirror(iw, d) = sqrttau * delta[iw][d]] *)
Definition dr_of (delta : list RealType) (iw : nat) : PosType :=
  pos_scale sqrttau (delta_at delta iw).

(** Modelled from the spec: [ParticleSet::multi_makeMoveAndCheckKokkos];
    every walker's proposal and validity check, independently; the
    verdicts go to the mask [isValid]. *)
Definition multi_makeMoveAndCheck (iel : nat) (delta : list RealType)
           (ms : list mover) : list mover * list bool :=
  (imap (fun iw => with_els (fun P => fst (makeMoveAndCheck iel (dr_of delta iw) P))) ms,
   imap (fun iw m => snd (makeMoveAndCheck iel (dr_of delta iw) (els m))) ms).

(** Modelled from the spec: [multi_evaluate_vgh] of the splines and
    [WaveFunction::multi_ratioGrad] (QMCWaveFunctions/ is not part of the
    sources) on the valid walkers; the candidate row and the ratio of
    each. *)
Definition multi_ratioGrad (iel : nat) (valid : list nat) (ms : list mover)
  : list mover :=
  on_each (fun _ : unit => with_wf (fun P d => ratio P iel d))
          valid (replicate (length valid) ()) ms.

(** Modelled from the spec: [WaveFunction::multi_acceptrestoreMove]; the
    inverse is committed for the accepted walkers, the scratch row
    discarded for the others. *)
Definition multi_acceptrestoreMove (iel : nat) (valid : list nat)
           (isAccepted : list bool) (ms : list mover) : list mover :=
  on_each (fun (b : bool) =>
             with_wf (fun P d => if b then det_acceptMove P iel d
                                 else det_restore iel d))
          valid isAccepted ms.

(** Modelled from the spec: [ParticleSet::multi_acceptRejectMoveKokkos];
    the position is committed for the accepted walkers and kept for the
    others. *)
Definition multi_acceptRejectMove (iel : nat) (valid : list nat)
           (isAccepted : list bool) (ms : list mover) : list mover :=
  on_each (fun (b : bool) =>
             with_els (if b then acceptMove iel else rejectMove iel))
          valid isAccepted ms.

(** The loop [for (iw = 0; iw < isAccepted.size(); iw++)]: entry [iw]
    of the valid list is tested against [ur[iw]]. *)
Definition accept_tests (acc : RealType) (ur : list RealType) (nvalid : nat)
  : list bool :=
  (fun iw => real_lt (nth iw ur 0%Q) acc) <$> seq 0 nvalid.

Definition test_events (iel : nat) (ur : list RealType)
           (valid : list nat) (isAccepted : list bool) : list Event :=
  imap (fun iw '(w, b) => EvTest w iel (nth iw ur 0%Q) b) (zip valid isAccepted).

Definition wf_events (iel : nat) (valid : list nat) (isAccepted : list bool)
  : list Event :=
  (fun '(w, b) => if b : bool then EvCommit w iel else EvRestore w iel)
    <$> zip valid isAccepted.

Definition pos_events (iel : nat) (valid : list nat) (isAccepted : list bool)
  : list Event :=
  (fun '(w, b) => if b : bool then EvAccept w iel else EvReject w iel)
    <$> zip valid isAccepted.

(** Body of [for (int iel = 0; iel < nels; ++iel)]. The uniforms and the
    normals of all walkers come from [mover_list[0]->rng]. With an empty
    [mover_list] the code reads [mover_list[0]] out of range; [run]
    below stops before. *)
Definition electron_step (acc : RealType) (iel : nat) (ms : list mover)
  : list mover * list Event :=
  match ms with
  | [] => (ms, [])
  | m0 :: _ =>
      let nmov := length ms in
      let ms1 := multi_setActive iel ms in
      let '(ur, g1) := generate_uniform (rng m0) nmov in
      let '(delta, g2) := generate_normal g1 (3 * nmov) in
      let ms2 := alter (with_rng g2) 0 ms1 in
      let '(ms3, isValid) := multi_makeMoveAndCheck iel delta ms2 in
      let valid := filtered_list isValid in
      let ms4 := multi_ratioGrad iel valid ms3 in
      let isAccepted := accept_tests acc ur (length valid) in
      let ms5 := multi_acceptrestoreMove iel valid isAccepted ms4 in
      let ms6 := multi_acceptRejectMove iel valid isAccepted ms5 in
      (ms6,
       [EvSetActive iel; EvEvalGrad iel]
         ++ imap (fun iw b => EvMakeMove iw iel b) isValid
         ++ ((fun w => EvRatio w iel) <$> valid)
         ++ test_events iel ur valid isAccepted
         ++ wf_events iel valid isAccepted
         ++ pos_events iel valid isAccepted)
  end.

(** Body of [for (int l = 0; l < nsubsteps; ++l)]: one sweep. *)
Definition sweep (acc : RealType) (nels : nat) (ms : list mover)
  : list mover * list Event :=
  for_loop nels (electron_step acc) ms.

(** Modelled from the spec: [ParticleSet::multi_donePbyP]; [donePbyP] for
    every walker. *)
Definition multi_donePbyP (ms : list mover) : list mover :=
  with_els donePbyP <$> ms.

(** The single-walker move engine in the words of the spec (section 4.2),
    for one electron: propose; a proposal the geometry judges invalid is
    rejected without evaluating the wavefunction; otherwise evaluate the
    ratio and accept iff the uniform draw [u] is less than the threshold;
    on acceptance commit the position and the inverse, on rejection
    discard the scratch row and keep the position. [u] and [dr] are the
    walker's draw and displacement for this electron; the result is the
    walker and whether the move was accepted. *)
Definition engine_step (acc : RealType) (iel : nat) (u : RealType) (dr : PosType)
           (m : mover) : mover * bool :=
  let '(P, ok) := makeMoveAndCheck iel dr (setActive iel (els m)) in
  if ok then
    let d := ratio P iel (wavefunction m) in
    if real_lt u acc
    then (mkMover (rng m) (acceptMove iel P) (det_acceptMove P iel d) (nlpp m), true)
    else (mkMover (rng m) (rejectMove iel P) (det_restore iel d) (nlpp m), false)
  else
    (mkMover (rng m) (rejectMove iel P) (det_restore iel (wavefunction m)) (nlpp m),
     false).

(** Modelled from the spec: [WaveFunction::multi_evaluateGL]; the full
    gradient and Laplacian recompute. Gradients and Laplacians are not
    part of the state kept here. *)
Definition multi_evaluateGL (ms : list mover) : list mover := ms.

(** Lines 589-671: pair counts, [maxSize], pair lists, the rotated
    quadrature points of a copy of each walker's [nlpp], and the
    zero-initialised buffers. *)
Definition EiPairs_of (locRmax : RealType) (ms : list mover) : list nat :=
  (fun m => FindNumEiPairs locRmax (els m)) <$> ms.

Definition setup_work (locRmax : RealType) (maxSize nknots nels : nat) (m : mover)
  : walker_work :=
  let rrot := fst (randomize (nlpp m)) in
  mkWork (SetupEiLists locRmax maxSize (els m))
         ((fun knot => nth knot rrot pos_zero) <$> seq 0 nknots)
         (replicate nknots pos_zero)
         (replicate nknots (replicate nels 0%Q))
         (replicate nknots 0%Q).

(** [EiLists(w, eiPair, 0)] and [EiLists(w, eiPair, 1)] *)
Definition pair_at (eiPair : nat) (wk : walker_work) : Z * Z :=
  nth eiPair (EiList wk) ((-1)%Z, 0%Z).

(** Modelled from the spec: [updateTempPosAndRs] (Particle/ParticleSet.h is
    not part of the sources); for the walker's [eiPair]-th pair, one trial
    position per quadrature point goes to [bigElPos]; a walker whose slot
    holds the sentinel is skipped. *)
Definition updateTempPosAndRs (eiPair : nat) (m : mover) (wk : walker_work)
  : walker_work :=
  let '(elNum, atNum) := pair_at eiPair wk in
  if (elNum =? -1)%Z then wk
  else mkWork (EiList wk) (rOnSphere wk)
              (sphere_position (els m) (Z.to_nat elNum) (Z.to_nat atNum)
                 <$> rOnSphere wk)
              (tempPsiV wk) (ratios wk).

(** Modelled from the spec: [multi_evaluate_v] of the splines
    (QMCWaveFunctions/ is not part of the sources); the orbital oracle at
    every position of [bigElPos], into [tempPsiV]. *)
Definition multi_evaluate_v (wk : walker_work) : walker_work :=
  mkWork (EiList wk) (rOnSphere wk) (bigElPos wk)
         (evaluate <$> bigElPos wk) (ratios wk).

(** Modelled from the spec: [multi_ratio] (QMCWaveFunctions/WaveFunction.h
    is not part of the sources); the ratio of each quadrature point from
    its row of [tempPsiV] and the walker's inverse, into [ratios]; a walker
    whose slot holds the sentinel is skipped. *)
Definition multi_ratio (eiPair : nat) (m : mover) (wk : walker_work)
  : walker_work :=
  let '(elNum, _) := pair_at eiPair wk in
  if (elNum =? -1)%Z then wk
  else mkWork (EiList wk) (rOnSphere wk) (bigElPos wk) (tempPsiV wk)
              ((fun row => inner_product row (psiMinv (wavefunction m))
                             (Z.to_nat elNum)) <$> tempPsiV wk).

(** Body of [for (int eiPair = 0; eiPair < maxSize; eiPair++)]. The state
    is the walkers, passed by reference, and the buffers. *)
Definition pair_step (eiPair : nat) (st : list mover * list walker_work)
  : (list mover * list walker_work) * list Event :=
  let '(ms, wks) := st in
  let wks1 := zip_with (updateTempPosAndRs eiPair) ms wks in
  let wks2 := multi_evaluate_v <$> wks1 in
  let wks3 := zip_with (multi_ratio eiPair) ms wks2 in
  ((ms, wks3), [EvNLPP eiPair]).

(** The pseudopotential phase of one Monte Carlo step. *)
Definition nlpp_phase (locRmax : RealType) (nknots nels : nat) (ms : list mover)
  : (list mover * list walker_work) * list Event :=
  let maxSize := max_pairs (EiPairs_of locRmax ms) in
  let wks := setup_work locRmax maxSize nknots nels <$> ms in
  let '(st, t) := for_loop maxSize pair_step (ms, wks) in
  (st, EvFindPairs :: t).

(** Body of [for (int mc = 0; mc < nsteps; ++mc)]. *)
Definition mc_step (acc locRmax : RealType) (nsub : Z) (nels nknots : nat)
           (ms : list mover) : list mover * list Event :=
  let '(ms1, t1) := for_loop (Z.to_nat nsub) (fun _ => sweep acc nels) ms in
  let ms2 := multi_evaluateGL (multi_donePbyP ms1) in
  let '((ms3, _), t2) := nlpp_phase locRmax nknots nels ms2 in
  (ms3, t1 ++ [EvDonePbyP; EvEvaluateGL] ++ t2).

(** The synchronous walker moves, from [mover_list]. [None]: reading
    [mover_list[0]] of an empty list. *)
Definition run (acc locRmax : RealType) (nst nsub : Z) (ms : list mover)
  : option (list mover * list Event) :=
  match ms with
  | [] => None
  | m0 :: _ =>
      let nels := getTotalNum (els m0) in
      let nknots := nlpp_size (nlpp m0) in
      Some (for_loop (Z.to_nat nst)
              (fun _ => mc_step acc locRmax nsub nels nknots) ms)
  end.

(** [main]: the options, the check of the timer level, the setup (ions
    from the tiling, splines from the mesh and the tile size, one mover per
    walker with the generator seeded by [myPrimes[iw]], the Jastrow
    factors, first [multi_evaluateLog]), then the run. [Undefined] after
    the setup: [mover_list[0]] is read and there is no mover. *)
Definition main (setup : Z * Z * Z -> Z * Z * Z -> Z -> Z -> bool -> list mover)
           (args : list opt) : outcome (list mover * list Event) :=
  match parse_options args defaults with
  | Proceeds o =>
      if negb (String.eqb (timer_level_name o) "coarse"
               || String.eqb (timer_level_name o) "fine")
      then Returns1
      else
        match run (accept o) (Rmax o) (nsteps o) (nsubsteps o)
                  (setup (na o, nb o, nc o) (nx o, ny o, nz o) (tileSize o)
                         (nmovers o) (enableJ3 o)) with
        | Some r => Proceeds r
        | None => Undefined
        end
  | Returns1 => Returns1
  | NeverEnds => NeverEnds
  | Undefined => Undefined
  end.
End Driver.
End SyncMove.

(** ** MiniqmcDriverFunctions.hpp *)

(** The operations of [Crowd] that [movers_thread_main] calls
    (Drivers/Crowd.hpp is not part of the sources). *)
Class CrowdOps (C : Type) := {
  crowd_setActive : nat -> C -> C;
  fillRandoms : C -> C;
  evaluateGrad : nat -> C -> C;
  constructTrialMoves : nat -> C -> C;
  evaluateRatioGrad : nat -> C -> C;
  evaluateHessian : nat -> C -> C;
  finishUpdate : nat -> C -> C;
  acceptRestoreMoves : nat -> RealType -> C -> C * nat;
  crowd_donePbyP : C -> C;
  evaluateGL : C -> C;
  calcNLPP : nat -> RealType -> C -> C
}.

Module CrowdDriver.
Section Driver.
Context {C : Type} `{CrowdOps C}.

(** Body of [for (int iel = 0; iel < nels; ++iel)]; the state is the crowd
    and [my_accepts]. *)
Definition electron_step (acc : RealType) (iel : nat) (s : C * nat)
  : (C * nat) * list Event :=
  let '(movers, my_accepts) := s in
  let c1 := crowd_setActive iel movers in
  let c2 := evaluateGrad iel c1 in
  let c3 := constructTrialMoves iel c2 in
  let c4 := evaluateRatioGrad iel c3 in
  let c5 := evaluateHessian iel c4 in
  let c6 := finishUpdate iel c5 in
  let '(c7, these_accepts) := acceptRestoreMoves iel acc c6 in
  ((c7, my_accepts + these_accepts),
   [EvSetActive iel; EvEvalGrad iel; EvConstructTrialMoves iel; EvRatioGrad iel;
    EvHessian iel; EvFinishUpdate iel; EvAcceptRestore iel]).

(** Body of [for (int l = 0; l < mq_opt.nsubsteps; ++l)]. *)
Definition substep (acc : RealType) (nels : nat) (s : C * nat)
  : (C * nat) * list Event :=
  let '(movers, my_accepts) := s in
  let '(s1, t) := for_loop nels (electron_step acc) (fillRandoms movers, my_accepts) in
  (s1, EvFillRandoms :: t).

(** Body of [for (int mc = 0; mc < mq_opt.nsteps; ++mc)]. *)
Definition mc_step (acc locRmax : RealType) (nsub : Z) (nels nions : nat)
           (s : C * nat) : (C * nat) * list Event :=
  let '((c1, n1), t) := for_loop (Z.to_nat nsub) (fun _ => substep acc nels) s in
  ((calcNLPP nions locRmax (evaluateGL (crowd_donePbyP c1)), n1),
   t ++ [EvDonePbyP; EvEvaluateGL; EvCalcNLPP]).

(** The Monte Carlo loop of [movers_thread_main]. *)
Definition movers_thread_main (acc locRmax : RealType) (nst nsub : Z)
           (nels nions : nat) (movers : C) : (C * nat) * list Event :=
  for_loop (Z.to_nat nst) (fun _ => mc_step acc locRmax nsub nels nions) (movers, 0).
End Driver.
End CrowdDriver.

(** ** A small concrete world

    Exact rational arithmetic, a linear congruential generator, a cubic
    box and two orbitals; used to run the drivers on concrete inputs. *)

Module Toy.

Fixpoint newton_sqrt (n : nat) (q x : Q) : Q :=
  match n with
  | O => x
  | S n' => newton_sqrt n' q (Qred ((x + q / x) / 2))
  end.

#[export] Instance float_ops : FloatOps := {|
  fsqrt q := newton_sqrt 3 q 1%Q;
  fmul a b := Qred (a * b);
  fadd a b := Qred (a + b)
|}.

(** [x -> (1103515245 x + 12345) mod 2^31] *)
Definition lcg_next (x : Z) : Z :=
  ((1103515245 * x + 12345) mod 2147483648)%Z.

Definition lcg_unit (x : Z) : Q := Qred (x # 2147483648).

Fixpoint lcg_uniforms (n : nat) (x : Z) : list Q * Z :=
  match n with
  | O => ([], x)
  | S n' =>
      let x1 := lcg_next x in
      let '(l, x2) := lcg_uniforms n' x1 in
      (lcg_unit x1 :: l, x2)
  end.

(** A bell-shaped stand-in for the normal draws: four uniforms, centred. *)
Fixpoint lcg_normals (n : nat) (x : Z) : list Q * Z :=
  match n with
  | O => ([], x)
  | S n' =>
      let '(us, x1) := lcg_uniforms 4 x in
      let '(l, x2) := lcg_normals n' x1 in
      (Qred (fold_right Qplus 0%Q us - 2) :: l, x2)
  end.

#[export] Instance lcg : RandomStream Z := {|
  generate_uniform g n := lcg_uniforms n g;
  generate_normal g n := lcg_normals n g
|}.

Definition Qabs_le (q b : Q) : bool := Qle_bool (- b) q && Qle_bool q b.

(** The box [[-2, 2]^3] with one ion at the origin. *)
#[export] Instance box : Geometry := {|
  applyBoundary p :=
    let '(x, y, z) := p in (p, Qabs_le x 2 && Qabs_le y 2 && Qabs_le z 2);
  distancesTo p :=
    let '(x, y, z) := p in [Qred (Qabs x + Qabs y + Qabs z)]
|}.

Definition dot (a b : list Q) : Q :=
  Qred (fold_right Qplus 0%Q (zip_with Qmult a b)).

Definition column (m : list (list Q)) (j : nat) : list Q :=
  (fun row => nth j row 0%Q) <$> m.

(** Two orbitals; the inverse of a 2 x 2 matrix by cofactors; the rank-one
    column update of the spec. *)
#[export] Instance dense2 : MatrixBackend := {|
  evaluate p := let '(x, y, z) := p in [Qred (1 + x); Qred (2 + y * z)];
  invert m :=
    match m with
    | [[a; b]; [c; d]] =>
        let det := (a * d - b * c)%Q in
        [[Qred (d / det); Qred (- b / det)]; [Qred (- c / det); Qred (a / det)]]
    | _ => m
    end;
  inner_product row inv iel := dot row (column inv iel);
  updateRow inv row iel rat :=
    (fun r =>
       imap (fun j x =>
               if Nat.eqb j iel then Qred (x / rat)
               else Qred (x - dot row (column inv j) / rat * nth iel r 0%Q)) r)
      <$> inv
|}.

(** Two quadrature points, not rotated. *)
#[export] Instance knots2 : Quadrature unit := {|
  nlpp_size _ := 2;
  randomize nl := ([(1%Q, 0%Q, 0%Q); (0%Q, 1%Q, 0%Q)], nl);
  sphere_position P elNum atNum r := pos_add (nth elNum (R P) pos_zero) r
|}.

(** A crowd that only counts the calls made on it. *)
#[export] Instance counting_crowd : CrowdOps nat := {|
  crowd_setActive _ c := S c;
  fillRandoms c := S c;
  evaluateGrad _ c := S c;
  constructTrialMoves _ c := S c;
  evaluateRatioGrad _ c := S c;
  evaluateHessian _ c := S c;
  finishUpdate _ c := S c;
  acceptRestoreMoves _ _ c := (S c, 1);
  crowd_donePbyP c := S c;
  evaluateGL c := S c;
  calcNLPP _ _ c := S c
|}.

Definition identity2 : list (list Q) := [[1%Q; 0%Q]; [0%Q; 1%Q]].

Definition det0 : DiracDeterminant := mkDet identity2 identity2 [] 0%Q false.

(** Two electrons, one ion. *)
Definition els0 : ParticleSet :=
  mkParticleSet [(0%Q, 0%Q, 0%Q); (1%Q, 0%Q, 0%Q)] None pos_zero [[0%Q]; [1%Q]].

(** The same with the first electron far outside the box: every proposal
    for it is invalid. *)
Definition far_els : ParticleSet :=
  mkParticleSet [(5%Q, 5%Q, 5%Q); (1%Q, 0%Q, 0%Q)] None pos_zero [[15%Q]; [1%Q]].

Definition check0 (seed : Z) : CheckDeterminant.state :=
  CheckDeterminant.mkState seed els0 det0 det0 0.

Definition check_far (seed : Z) : CheckDeterminant.state :=
  CheckDeterminant.mkState seed far_els det0 det0 0.

Definition mover0 (seed : Z) : SyncMove.Mover Z unit :=
  SyncMove.mkMover seed els0 det0 ().

Definition far_mover (seed : Z) : SyncMove.Mover Z unit :=
  SyncMove.mkMover seed far_els det0 ().

End Toy.

(** ** Notions about traces and steps *)

(** What the events of a check run say about one vector [ur]: every
    acceptance test of electron [iel] reads [ur[iel]] and accepts when it
    is greater than the threshold, and commits and rejections follow that
    verdict. *)
Definition test_reads (acc : RealType) (ur : list RealType) (e : Event) : Prop :=
  match e with
  | EvTest w iel u b => w = 0 /\ u = nth iel ur 0%Q /\ b = real_lt acc u
  | EvAccept w iel | EvCommit w iel => real_lt acc (nth iel ur 0%Q) = true
  | EvReject w iel | EvRestore w iel => real_lt acc (nth iel ur 0%Q) = false
  | _ => True
  end.

(** The electron an event is about. *)
Definition ev_iel (e : Event) : option nat :=
  match e with
  | EvSetActive iel | EvEvalGrad iel | EvMakeMove _ iel _ | EvRatio _ iel
  | EvTest _ iel _ _ | EvAccept _ iel | EvCommit _ iel | EvReject _ iel
  | EvRestore _ iel | EvConstructTrialMoves iel | EvRatioGrad iel
  | EvHessian iel | EvFinishUpdate iel | EvAcceptRestore iel => Some iel
  | _ => None
  end.

(** Events of the sweeps, of the finalize and of the pseudopotential. *)
Definition is_nlpp (e : Event) : bool :=
  match e with
  | EvFindPairs | EvNLPP _ | EvCalcNLPP => true
  | _ => false
  end.

Definition is_finalize (e : Event) : bool :=
  match e with
  | EvDonePbyP | EvEvaluateGL => true
  | _ => false
  end.

Definition is_sweep (e : Event) : bool :=
  match e with
  | EvFillRandoms => true
  | _ => match ev_iel e with
         | Some _ => true
         | None => false
         end
  end.

(** In a trace the electrons come in increasing order: an event about a
    smaller electron index stands before every event about a larger one. *)
Definition electrons_in_order (tr : list Event) : Prop :=
  forall i j e1 e2 a b,
    tr !! i = Some e1 -> tr !! j = Some e2 ->
    ev_iel e1 = Some a -> ev_iel e2 = Some b -> a < b -> i < j.

(** The electrons made active along a trace. *)
Definition activations (tr : list Event) : list nat :=
  omap (fun e => match e with EvSetActive iel => Some iel | _ => None end) tr.

(** The shape of the trace of one Monte Carlo step: the events of the
    sweeps, then the finalize [donePbyP; evaluateGL], then the events of
    the pseudopotential. *)
Definition mc_step_shape (tr : list Event) : Prop :=
  exists sw nl, tr = sw ++ [EvDonePbyP; EvEvaluateGL] ++ nl /\
                Forall (fun e => is_sweep e = true) sw /\
                Forall (fun e => is_nlpp e = true) nl.

(** How many events of a kind a trace holds; the finalizes, and the sweeps
    begun (a sweep begins with the activation of electron 0). *)
Definition count_event (p : Event -> bool) (tr : list Event) : nat :=
  length (List.filter p tr).

Definition is_donePbyP (e : Event) : bool :=
  match e with
  | EvDonePbyP => true
  | _ => false
  end.

Definition starts_sweep (e : Event) : bool :=
  match e with
  | EvSetActive 0 => true
  | _ => false
  end.

(** The electron-ion pairs of a walker within the cutoff, in the order
    in which the double loop over electrons and ions meets them. *)
Definition ei_pairs (locRmax : RealType) (P : ParticleSet) : list (nat * nat) :=
  flat_map
    (fun elNum =>
       pair elNum <$>
         List.filter (fun atNum => real_lt (SyncMove.dist_at P elNum atNum) locRmax)
                     (seq 0 (SyncMove.dist_extent1 P)))
    (seq 0 (length (R P))).

(** The committed state of a determinant: matrix and maintained inverse. *)
Definition det_same (d d' : DiracDeterminant) : Prop :=
  psiM d' = psiM d /\ psiMinv d' = psiMinv d.

(** A walker of the check driver, and a mover of the batched driver, with
    the committed positions, the matrix and the inverse it had before. *)
Definition check_same_committed {G : Type} (s s' : CheckDeterminant.state (G:=G))
  : Prop :=
  R (CheckDeterminant.els s') = R (CheckDeterminant.els s) /\
  det_same (CheckDeterminant.determinant_ref s) (CheckDeterminant.determinant_ref s') /\
  det_same (CheckDeterminant.determinant s) (CheckDeterminant.determinant s').

Definition mover_same_committed {G NL : Type} (m m' : SyncMove.Mover G NL) : Prop :=
  R (SyncMove.els m') = R (SyncMove.els m) /\
  det_same (SyncMove.wavefunction m) (SyncMove.wavefunction m').

(** Two movers with the same outcome of a step: the same stream state and
    the same committed positions, matrix and inverse. *)
Definition same_outcome {G NL : Type} (m m' : SyncMove.Mover G NL) : Prop :=
  SyncMove.rng m' = SyncMove.rng m /\ mover_same_committed m m'.

Section SyncStepData.
Context {G NL : Type} `{RandomStream G} `{FloatOps} `{Geometry}
        `{MatrixBackend} `{Quadrature NL}.
Import SyncMove.

(** The values one electron step of the batched driver computes on the way,
    for the movers [m0 :: rest]: [ur] and [delta] drawn from [m0]'s stream
    and the stream left behind, the movers after the proposals, the mask
    [isValid], the valid list and [isAccepted]. *)
Definition sync_ur (m0 : Mover G NL) (rest : list (Mover G NL)) : list RealType :=
  (generate_uniform (rng m0) (S (length rest))).1.

Definition sync_delta (m0 : Mover G NL) (rest : list (Mover G NL)) : list RealType :=
  (generate_normal (generate_uniform (rng m0) (S (length rest))).2
                   (3 * S (length rest))).1.

Definition sync_rng (m0 : Mover G NL) (rest : list (Mover G NL)) : G :=
  (generate_normal (generate_uniform (rng m0) (S (length rest))).2
                   (3 * S (length rest))).2.

Definition sync_proposed (iel : nat) (m0 : Mover G NL) (rest : list (Mover G NL))
  : list (Mover G NL) * list bool :=
  multi_makeMoveAndCheck iel (sync_delta m0 rest)
    (alter (with_rng (sync_rng m0 rest)) 0 (multi_setActive iel (m0 :: rest))).

Definition sync_valid (iel : nat) (m0 : Mover G NL) (rest : list (Mover G NL))
  : list nat :=
  filtered_list (sync_proposed iel m0 rest).2.

Definition sync_isAccepted (acc : RealType) (iel : nat)
           (m0 : Mover G NL) (rest : list (Mover G NL)) : list bool :=
  accept_tests acc (sync_ur m0 rest) (length (sync_valid iel m0 rest)).

(** What the three calls after the validity check do to a valid walker
    whose verdict is [b]. *)
Definition sync_finish (iel : nat) (b : bool) (m : Mover G NL) : Mover G NL :=
  with_els (if b then acceptMove iel else rejectMove iel)
    (with_wf (fun P d => if b then det_acceptMove P iel d else det_restore iel d)
       (with_wf (fun P d => ratio P iel d) m)).

(** Walker [k] after the proposal phase. *)
Definition sync_propose (iel : nat) (g : G) (delta : list RealType) (k : nat)
           (m : Mover G NL) : Mover G NL :=
  with_els (fun P => (makeMoveAndCheck iel (dr_of delta k) P).1)
    ((if k is 0 then with_rng g else id) (with_els (setActive iel) m)).
(** What an event of one electron step of the batched driver on
    [m0 :: rest] says: it is about electron [iel]; a verdict of the
    validity check is the walker's entry of the mask; a ratio, a test, a
    commit or a rejection is of a walker of the valid list, and a test at
    entry [j] of that list reads [ur[j]] and accepts when it is less than
    the threshold. *)
Definition sync_event_ok (acc : RealType) (iel : nat)
           (m0 : Mover G NL) (rest : list (Mover G NL)) (e : Event) : Prop :=
  let ur := sync_ur m0 rest in
  let valid := sync_valid iel m0 rest in
  match e with
  | EvSetActive i | EvEvalGrad i => i = iel
  | EvMakeMove w i b => i = iel /\ (sync_proposed iel m0 rest).2 !! w = Some b
  | EvRatio w i => i = iel /\ exists j, valid !! j = Some w
  | EvTest w i u b =>
      i = iel /\ exists j, valid !! j = Some w /\ u = nth j ur 0%Q /\ b = real_lt u acc
  | EvCommit w i | EvAccept w i =>
      i = iel /\ exists j, valid !! j = Some w /\ real_lt (nth j ur 0%Q) acc = true
  | EvRestore w i | EvReject w i =>
      i = iel /\ exists j, valid !! j = Some w /\ real_lt (nth j ur 0%Q) acc = false
  | _ => False
  end.
End SyncStepData.

(** Membership of an event in a computed trace. *)
Ltac in_trace := vm_compute; repeat (first [left; reflexivity | right]).

Ltac not_in_trace :=
  let Hin := fresh "Hin" in
  vm_compute; intros Hin;
  repeat (destruct Hin as [Hin|Hin]; [discriminate Hin|]); exact Hin.

(** ** Notions about the options *)

(** The value an option leaves in its variable: the argument of its last
    occurrence on the command line, or the value before the loop. *)
Definition last_value {O A : Type} (pick : O -> option A) (d : A) (args : list O) : A :=
  fold_left (fun v a => match pick a with Some x => x | None => v end) args d.

(** The options that end the check driver before the run, and what the
    others assign. *)
Definition check_opt_exits (a : CheckDeterminant.opt) : bool :=
  match a with
  | CheckDeterminant.opt_h | CheckDeterminant.opt_V
  | CheckDeterminant.opt_r | CheckDeterminant.opt_unknown
  | CheckDeterminant.opt_none => true
  | _ => false
  end.

(** What a [-g] assigns to [na], to [nb] and to [nc]: its first, second
    and third number, where [sscanf] converted that many. *)
Definition check_pick_na (a : CheckDeterminant.opt) : option Z :=
  match a with
  | CheckDeterminant.opt_g (x :: _) => Some x
  | _ => None
  end.

Definition check_pick_nb (a : CheckDeterminant.opt) : option Z :=
  match a with
  | CheckDeterminant.opt_g (_ :: y :: _) => Some y
  | _ => None
  end.

Definition check_pick_nc (a : CheckDeterminant.opt) : option Z :=
  match a with
  | CheckDeterminant.opt_g (_ :: _ :: z :: _) => Some z
  | _ => None
  end.

Definition check_pick_n (a : CheckDeterminant.opt) : option Z :=
  match a with
  | CheckDeterminant.opt_n v => Some v
  | _ => None
  end.

Definition check_pick_N (a : CheckDeterminant.opt) : option Z :=
  match a with
  | CheckDeterminant.opt_N v => Some v
  | _ => None
  end.

Definition check_pick_s (a : CheckDeterminant.opt) : option Z :=
  match a with
  | CheckDeterminant.opt_s v => Some v
  | _ => None
  end.

Definition check_pick_v (a : CheckDeterminant.opt) : option bool :=
  match a with
  | CheckDeterminant.opt_v => Some true
  | _ => None
  end.

(** The same for the batched driver: the options at which [main] returns
    1, and those at which the loop stops going through the command line
    (the former and a non-option argument). *)
Definition sync_opt_exits (a : SyncMove.opt) : bool :=
  match a with
  | SyncMove.opt_h | SyncMove.opt_V | SyncMove.opt_unknown => true
  | _ => false
  end.

Definition sync_opt_stops (a : SyncMove.opt) : bool :=
  match a with
  | SyncMove.opt_h | SyncMove.opt_V | SyncMove.opt_unknown
  | SyncMove.opt_none => true
  | _ => false
  end.

(** The options the loop goes through before the first that stops it. *)
Fixpoint options_before_stop (args : list SyncMove.opt) : list SyncMove.opt :=
  match args with
  | [] => []
  | a :: rest => if sync_opt_stops a then [] else a :: options_before_stop rest
  end.

Definition sync_pick_a (a : SyncMove.opt) : option Z :=
  match a with
  | SyncMove.opt_a v => Some v
  | _ => None
  end.

Definition sync_pick_c (a : SyncMove.opt) : option Z :=
  match a with
  | SyncMove.opt_c v => Some v
  | _ => None
  end.

Definition sync_pick_na (a : SyncMove.opt) : option Z :=
  match a with
  | SyncMove.opt_g (x :: _) => Some x
  | _ => None
  end.

Definition sync_pick_nb (a : SyncMove.opt) : option Z :=
  match a with
  | SyncMove.opt_g (_ :: y :: _) => Some y
  | _ => None
  end.

Definition sync_pick_nc (a : SyncMove.opt) : option Z :=
  match a with
  | SyncMove.opt_g (_ :: _ :: z :: _) => Some z
  | _ => None
  end.

Definition sync_pick_j (a : SyncMove.opt) : option bool :=
  match a with
  | SyncMove.opt_j => Some true
  | _ => None
  end.

Definition sync_pick_n (a : SyncMove.opt) : option Z :=
  match a with
  | SyncMove.opt_n v => Some v
  | _ => None
  end.

Definition sync_pick_N (a : SyncMove.opt) : option Z :=
  match a with
  | SyncMove.opt_N v => Some v
  | _ => None
  end.

Definition sync_pick_r (a : SyncMove.opt) : option RealType :=
  match a with
  | SyncMove.opt_r v => Some v
  | _ => None
  end.

Definition sync_pick_s (a : SyncMove.opt) : option Z :=
  match a with
  | SyncMove.opt_s v => Some v
  | _ => None
  end.

Definition sync_pick_t (a : SyncMove.opt) : option string :=
  match a with
  | SyncMove.opt_t l => Some l
  | _ => None
  end.

Definition sync_pick_v (a : SyncMove.opt) : option bool :=
  match a with
  | SyncMove.opt_v => Some true
  | _ => None
  end.

Definition sync_pick_w (a : SyncMove.opt) : option Z :=
  match a with
  | SyncMove.opt_w v => Some v
  | _ => None
  end.

Definition sync_pick_x (a : SyncMove.opt) : option RealType :=
  match a with
  | SyncMove.opt_x v => Some v
  | _ => None
  end.

(** A mesh size after every [-m] of [args] has scaled it in turn;
    [None]: one of the products is not a value of [int]. *)
Fixpoint mesh_after `{FloatOps} (args : list SyncMove.opt) (n : Z) : option Z :=
  match args with
  | [] => Some n
  | SyncMove.opt_m f :: rest =>
      match SyncMove.scale_int n f with
      | Some n1 => mesh_after rest n1
      | None => None
      end
  | _ :: rest => mesh_after rest n
  end.


(** ** Notions about whole runs *)

Definition is_accept (e : Event) : bool :=
  match e with
  | EvAccept _ _ => true
  | _ => false
  end.

(** The electrons in the order a run makes them active: [n] Monte Carlo
    steps of [k] sweeps over the electrons 0 .. nels-1. *)
Definition sweeps_order (n k nels : nat) : list nat :=
  concat (replicate n (concat (replicate k (seq 0 nels)))).

(** The stream after [n] normal draws, after [n] uniform draws, and after
    the draws of one electron step of a batch of [K] walkers. *)
Definition after_normals {G : Type} `{RandomStream G} (n : nat) (g : G) : G :=
  (generate_normal g n).2.

Definition after_uniforms {G : Type} `{RandomStream G} (n : nat) (g : G) : G :=
  (generate_uniform g n).2.

Definition after_batch_draws {G : Type} `{RandomStream G} (K : nat) (g : G) : G :=
  after_normals (3 * K) (after_uniforms K g).

(** The streams of the walkers of a batch after the draws of one electron
    step: walker 0's stream gives the uniforms and the normals of all. *)
Definition batch_draws {G : Type} `{RandomStream G} (gs : list G) : list G :=
  match gs with
  | [] => []
  | g0 :: others => after_batch_draws (length gs) g0 :: others
  end.

(** The number of walkers before walker [w] whose mask entry is set. *)
Definition valid_before (isValid : list bool) (w : nat) : nat :=
  length (List.filter id (take w isValid)).

(** A slot of a pair list as the pair of C ints it stores. *)
Definition pair_slot (p : nat * nat) : Z * Z := (Z.of_nat p.1, Z.of_nat p.2).

(** Lines 333-336 of miniqmc_sync_move_noref.cpp: the tile size and the
    number of tiles the batched driver reports, from the option value
    [tileSize] and the number of electrons; C division truncates.
    [None]: the division is by zero.
    [[
      const int norb = nels / 2;
      tileSize       = (tileSize > 0) ? tileSize : norb;
      nTiles         = norb / tileSize;
    ]] *)
Definition tile_setup (tileSize nels : Z) : option (Z * Z) :=
  let norb := (nels ÷ 2)%Z in
  let tileSize1 := if (0 <? tileSize)%Z then tileSize else norb in
  if (tileSize1 =? 0)%Z then None else Some (tileSize1, (norb ÷ tileSize1)%Z).

(** * Properties *)

(** ** Comparisons *)

Lemma real_lt_true (a b : RealType) : real_lt a b = true <-> (a < b)%Q.
Proof.
  unfold real_lt. rewrite Qlt_alt.
  destruct (a ?= b)%Q; split; intros Hc; congruence.
Qed.

Lemma real_lt_false (a b : RealType) : real_lt a b = false <-> ~ (a < b)%Q.
Proof.
  rewrite <- real_lt_true. destruct (real_lt a b); split; intros Hc; congruence.
Qed.

(** ** Counted loops *)

Section ForLoop.
Context {St E : Type}.
Implicit Types (body : nat -> St -> St * list E) (s : St).

Lemma for_from_S body lo n s :
  for_from body lo (S n) s =
  let '(s1, t1) := body lo s in
  let '(s2, t2) := for_from body (S lo) n s1 in (s2, t1 ++ t2).
Proof. reflexivity. Qed.

(** Every event of the loop is an event of an iteration in range. *)
Lemma for_from_event body lo n s e :
  In e (for_from body lo n s).2 ->
  exists i s1, lo <= i < lo + n /\ In e (body i s1).2.
Proof.
  revert lo s. induction n as [|n IH]; intros lo s; simpl; [tauto|].
  destruct (body lo s) as [s1 t1] eqn:Hb.
  destruct (for_from body (S lo) n s1) as [s2 t2] eqn:Hr. simpl.
  rewrite in_app_iff. intros [Hin|Hin].
  - exists lo, s. rewrite Hb. split; [lia|done].
  - destruct (IH (S lo) s1) as (i & s' & Hi & Hin'); [by rewrite Hr|].
    exists i, s'. split; [lia|done].
Qed.

(** A property every iteration keeps is kept by the loop. *)
Lemma for_from_invariant (I : St -> Prop) body lo n s :
  (forall i s1, lo <= i < lo + n -> I s1 -> I (body i s1).1) ->
  I s -> I (for_from body lo n s).1.
Proof.
  revert lo s. induction n as [|n IH]; intros lo s Hstep Hs; simpl; [done|].
  destruct (body lo s) as [s1 t1] eqn:Hb.
  destruct (for_from body (S lo) n s1) as [s2 t2] eqn:Hr. simpl.
  change s2 with (s2, t2).1. rewrite <- Hr. apply IH.
  - intros i s' Hi. apply Hstep. lia.
  - change s1 with (s1, t1).1. rewrite <- Hb. apply Hstep; [lia|done].
Qed.

(** The trace of the loop is the traces of its [n] iterations, in order. *)
Lemma for_from_concat (P : nat -> list E -> Prop) body lo n s :
  (forall i s1, lo <= i < lo + n -> P i (body i s1).2) ->
  exists ts, (for_from body lo n s).2 = concat ts /\ length ts = n /\
             forall k t, ts !! k = Some t -> P (lo + k) t.
Proof.
  revert lo s. induction n as [|n IH]; intros lo s Hstep; simpl.
  - exists []. split; [done|]. split; [done|]. intros k t Hk. by destruct k.
  - destruct (body lo s) as [s1 t1] eqn:Hb.
    destruct (for_from body (S lo) n s1) as [s2 t2] eqn:Hr. simpl.
    destruct (IH (S lo) s1) as (ts & Hts & Hlen & HP).
    { intros i s' Hi. apply Hstep. lia. }
    rewrite Hr in Hts. simpl in Hts.
    exists (t1 :: ts). split; [by rewrite Hts|]. split; [simpl; lia|].
    intros [|k] t Hk; simpl in Hk.
    + inversion Hk; subst. replace (lo + 0) with lo by lia.
      change t with (s1, t).2. rewrite <- Hb. apply Hstep. lia.
    + replace (lo + S k) with (S lo + k) by lia. by apply HP.
Qed.
End ForLoop.

(** ** The single-walker check driver *)

Section CheckDriverFacts.
Context {G : Type} `{RandomStream G} `{FloatOps} `{Geometry} `{MatrixBackend}.
Import CheckDeterminant.

Lemma check_step_cases (acc : RealType) (ur delta : list RealType) iel
      (s : state (G:=G)) :
  let P2 := (makeMoveAndCheck iel (pos_scale sqrttau (delta_at delta iel))
               (setActive iel (els s))).1 in
  let ok := (makeMoveAndCheck iel (pos_scale sqrttau (delta_at delta iel))
               (setActive iel (els s))).2 in
  let u := nth iel ur 0%Q in
  (ok = false /\
   electron_step acc ur delta iel s =
     (mkState (random_th s) P2 (determinant_ref s) (determinant s) (my_accepted s),
      [EvSetActive iel; EvMakeMove 0 iel false])) \/
  (ok = true /\ real_lt acc u = true /\
   electron_step acc ur delta iel s =
     (mkState (random_th s) (acceptMove iel P2)
        (det_acceptMove (acceptMove iel P2) iel (ratio P2 iel (determinant_ref s)))
        (det_acceptMove (acceptMove iel P2) iel (ratio P2 iel (determinant s)))
        (S (my_accepted s)),
      [EvSetActive iel; EvMakeMove 0 iel true; EvRatio 0 iel; EvRatio 0 iel;
       EvTest 0 iel u true; EvAccept 0 iel; EvCommit 0 iel; EvCommit 0 iel])) \/
  (ok = true /\ real_lt acc u = false /\
   electron_step acc ur delta iel s =
     (mkState (random_th s) (rejectMove iel P2)
        (ratio P2 iel (determinant_ref s)) (ratio P2 iel (determinant s))
        (my_accepted s),
      [EvSetActive iel; EvMakeMove 0 iel true; EvRatio 0 iel; EvRatio 0 iel;
       EvTest 0 iel u false; EvReject 0 iel])).
Proof.
  intros P2 ok u. unfold electron_step. subst P2 ok u.
  destruct (makeMoveAndCheck _ _ _) as [P2 ok]. simpl.
  destruct ok; simpl; [|left; split; reflexivity].
  destruct (real_lt acc (nth iel ur 0%Q)) eqn:Hu; [right; left|right; right]; repeat split.
Qed.

Lemma check_step_test_reads (acc : RealType) (ur delta : list RealType) iel
      (s : state (G:=G)) e :
  In e (electron_step acc ur delta iel s).2 -> test_reads acc ur e.
Proof.
  destruct (check_step_cases acc ur delta iel s)
    as [(_ & ->)|[(_ & Hu & ->)|(_ & Hu & ->)]]; simpl;
    intros Hin; repeat (destruct Hin as [<-|Hin]; [by simpl|]); done.
Qed.

Lemma check_substep_test_reads (acc : RealType) (ur : list RealType) nels
      (s : state (G:=G)) e :
  In e (substep acc ur nels s).2 -> test_reads acc ur e.
Proof.
  unfold substep. destruct (generate_normal _ _) as [delta g].
  intros Hin. apply for_from_event in Hin as (i & s1 & _ & Hin).
  by eapply check_step_test_reads.
Qed.

Lemma check_mc_step_test_reads (acc : RealType) (ur : list RealType) nels nsub
      (s : state (G:=G)) e :
  In e (mc_step acc ur nels nsub s).2 -> test_reads acc ur e.
Proof.
  unfold mc_step.
  destruct (for_loop _ _ _) as [s2 t] eqn:Hl. simpl.
  intros [<-|[<-|Hin]]; [done..|].
  apply in_app_iff in Hin as [Hin|[<-|[]]]; [|done].
  assert (Ht : t = (for_loop (Z.to_nat nsub) (fun _ => substep acc ur nels)
                      (mkState (random_th s) (els s) (recompute (determinant_ref s))
                         (recompute (determinant s)) (my_accepted s))).2)
    by (by rewrite Hl).
  rewrite Ht in Hin. apply for_from_event in Hin as (i & s1 & _ & Hin).
  by eapply check_substep_test_reads.
Qed.

Lemma check_run_test_reads nst nsub (s : state (G:=G)) e :
  In e (run nst nsub s).2 -> test_reads accept (draw_ur s).1 e.
Proof.
  unfold run. destruct (draw_ur s) as [ur s1]. simpl.
  intros Hin. apply for_from_event in Hin as (i & s2 & _ & Hin).
  by eapply check_mc_step_test_reads.
Qed.
End CheckDriverFacts.

Section CheckDriverClaims.
Context {G : Type} `{RandomStream G} `{FloatOps} `{Geometry} `{MatrixBackend}.
Import CheckDeterminant.

(** C10: in the check_determinant driver the vector [ur] is drawn once,
    before the Monte Carlo loop, and never again. Every acceptance test of
    the run for electron [iel] reads that one entry [ur[iel]] and compares
    it with the threshold in the same way; two tests of the same electron,
    in whatever step or substep, have the same verdict; an electron whose
    entry passes is never rejected after a valid proposal, and one whose
    entry fails is never accepted. *)
Theorem check_ur_drawn_once (nst nsub : Z) (s : state (G:=G)) :
  let ur := (draw_ur s).1 in
  let tr := (run nst nsub s).2 in
  (forall w iel u b, In (EvTest w iel u b) tr ->
     u = nth iel ur 0%Q /\ b = real_lt accept (nth iel ur 0%Q)) /\
  (forall w w' iel u u' b b',
     In (EvTest w iel u b) tr -> In (EvTest w' iel u' b') tr -> u = u' /\ b = b') /\
  (forall iel, real_lt accept (nth iel ur 0%Q) = true ->
     forall w, ~ In (EvReject w iel) tr) /\
  (forall iel, real_lt accept (nth iel ur 0%Q) = false ->
     forall w, ~ In (EvAccept w iel) tr).
Proof.
  intros ur tr.
  assert (Hall : forall e, In e tr -> test_reads accept ur e)
    by (intros e; apply check_run_test_reads).
  assert (Htest : forall w iel u b, In (EvTest w iel u b) tr ->
            u = nth iel ur 0%Q /\ b = real_lt accept (nth iel ur 0%Q)).
  { intros w iel u b Hin. destruct (Hall _ Hin) as (_ & -> & ->). done. }
  split; [exact Htest|]. split; [|split].
  - intros w w' iel u u' b b' Ha Hb.
    destruct (Htest _ _ _ _ Ha) as [-> ->].
    destruct (Htest _ _ _ _ Hb) as [-> ->]. done.
  - intros iel Hu w Hin. apply Hall in Hin. simpl in Hin. congruence.
  - intros iel Hu w Hin. apply Hall in Hin. simpl in Hin. congruence.
Qed.
End CheckDriverClaims.

(** ** The batched driver *)

Section FilteredList.
Import SyncMove.

Lemma elem_of_filtered_from (i : nat) (bs : list bool) (w : nat) :
  w ∈ filtered_from i bs <-> exists j, w = i + j /\ bs !! j = Some true.
Proof.
  revert i. induction bs as [|b bs IH]; intros i; simpl.
  - split; [by intros ?%elem_of_nil|by intros (j & _ & ?)].
  - assert (Hrest : w ∈ filtered_from (S i) bs <->
                    exists j, w = i + S j /\ bs !! j = Some true).
    { rewrite IH. split; intros (j & -> & Hj); exists j; (split; [lia|done]). }
    destruct b.
    + rewrite elem_of_cons, Hrest. split.
      * intros [->|(j & -> & Hj)]; [exists 0|exists (S j)]; (split; [lia|done]).
      * intros ([|j] & -> & Hj); [left; lia|right; by exists j].
    + rewrite Hrest. split.
      * intros (j & -> & Hj). by exists (S j).
      * intros ([|j] & -> & Hj); [done|by exists j].
Qed.

Lemma filtered_from_NoDup (i : nat) (bs : list bool) : NoDup (filtered_from i bs).
Proof.
  revert i. induction bs as [|b bs IH]; intros i; simpl; [constructor|].
  destruct b; [|apply IH]. constructor; [|apply IH].
  rewrite elem_of_filtered_from. intros (j & Hj & _). lia.
Qed.

(** While every earlier walker is valid, a valid walker sits in the valid
    list at its own index. *)
Lemma filtered_from_prefix (i : nat) (bs : list bool) (k : nat) :
  (forall j, j < k -> bs !! j = Some true) -> bs !! k = Some true ->
  filtered_from i bs !! k = Some (i + k).
Proof.
  revert i k. induction bs as [|b bs IH]; intros i k Hpre Hk; [done|].
  destruct k as [|k]; simpl in *.
  - inversion Hk; subst. simpl. f_equal. lia.
  - specialize (Hpre 0 ltac:(lia)) as Hb. simpl in Hb. inversion Hb; subst. simpl.
    rewrite IH; [f_equal; lia| |done].
    intros j Hj. apply (Hpre (S j)). lia.
Qed.

Lemma filtered_list_position (bs : list bool) (w : nat) :
  bs !! w = Some true -> exists j, filtered_list bs !! j = Some w.
Proof.
  intros Hw. apply list_elem_of_lookup_1, elem_of_filtered_from.
  exists w. split; [lia|done].
Qed.

Lemma filtered_list_valid (bs : list bool) (j w : nat) :
  filtered_list bs !! j = Some w -> bs !! w = Some true.
Proof.
  intros Hj. apply list_elem_of_lookup_2, elem_of_filtered_from in Hj
    as (j' & -> & Hj'). done.
Qed.

Lemma filtered_list_inj (bs : list bool) (j j' w : nat) :
  filtered_list bs !! j = Some w -> filtered_list bs !! j' = Some w -> j = j'.
Proof. apply NoDup_lookup, filtered_from_NoDup. Qed.
End FilteredList.

Section OnEach.
Context {G NL A : Type}.
Import SyncMove.
Implicit Types (f : A -> Mover G NL -> Mover G NL) (ms : list (Mover G NL)).

Lemma on_each_notin f (ptrs : list nat) (args : list A) ms (k : nat) :
  k ∉ ptrs -> on_each f ptrs args ms !! k = ms !! k.
Proof.
  revert args ms. induction ptrs as [|p ptrs IH]; intros args ms Hk; [done|].
  destruct args as [|a args]; [done|].
  apply not_elem_of_cons in Hk as [Hne Hk]. unfold on_each. simpl.
  fold (on_each f ptrs args (alter (f a) p ms)).
  rewrite IH by done. by apply list_lookup_alter_ne.
Qed.

Lemma on_each_at f (ptrs : list nat) (args : list A) ms (j k : nat) (a : A) :
  NoDup ptrs -> ptrs !! j = Some k -> args !! j = Some a ->
  on_each f ptrs args ms !! k = f a <$> ms !! k.
Proof.
  revert args ms j. induction ptrs as [|p ptrs IH]; intros args ms j Hnd Hj Ha;
    [done|].
  destruct args as [|a0 args]; [done|].
  apply NoDup_cons in Hnd as [Hp Hnd]. unfold on_each. simpl.
  fold (on_each f ptrs args (alter (f a0) p ms)).
  destruct j as [|j]; simpl in *.
  - inversion Hj; inversion Ha; subst.
    rewrite on_each_notin by done. apply list_lookup_alter_eq.
  - assert (p <> k).
    { intros ->. apply Hp. by eapply list_elem_of_lookup_2. }
    rewrite (IH _ _ j) by done. by rewrite list_lookup_alter_ne.
Qed.
End OnEach.

Section SyncFacts.
Context {G NL : Type} `{RandomStream G} `{FloatOps} `{Geometry}
        `{MatrixBackend} `{Quadrature NL}.
Import SyncMove.
Implicit Types (m : Mover G NL) (rest ms : list (Mover G NL)).

Lemma sync_step_unfold (acc : RealType) (iel : nat) (m0 : Mover G NL) rest :
  let valid := sync_valid iel m0 rest in
  let isAccepted := sync_isAccepted acc iel m0 rest in
  electron_step acc iel (m0 :: rest) =
  (multi_acceptRejectMove iel valid isAccepted
     (multi_acceptrestoreMove iel valid isAccepted
        (multi_ratioGrad iel valid (sync_proposed iel m0 rest).1)),
   [EvSetActive iel; EvEvalGrad iel]
     ++ imap (fun iw b => EvMakeMove iw iel b) (sync_proposed iel m0 rest).2
     ++ ((fun w => EvRatio w iel) <$> valid)
     ++ test_events iel (sync_ur m0 rest) valid isAccepted
     ++ wf_events iel valid isAccepted
     ++ pos_events iel valid isAccepted).
Proof.
  intros valid isAccepted. subst valid isAccepted.
  unfold electron_step, sync_isAccepted, sync_valid, sync_proposed, sync_ur,
    sync_delta, sync_rng. cbn [length].
  destruct (generate_uniform (rng m0) (S (length rest))) as [ur g1]. cbn [fst snd].
  destruct (generate_normal g1 _) as [delta g2]. reflexivity.
Qed.

Lemma sync_proposed_lookup (iel k : nat) (m0 : Mover G NL) rest m :
  (m0 :: rest) !! k = Some m ->
  (sync_proposed iel m0 rest).1 !! k =
    Some (sync_propose iel (sync_rng m0 rest) (sync_delta m0 rest) k m) /\
  (sync_proposed iel m0 rest).2 !! k =
    Some (makeMoveAndCheck iel (dr_of (sync_delta m0 rest) k)
            (setActive iel (els m))).2.
Proof.
  intros Hk. unfold sync_proposed, multi_makeMoveAndCheck, multi_setActive,
    sync_propose. cbn [fst snd]. rewrite !list_lookup_imap.
  destruct k as [|k]; simpl in *.
  - inversion Hk; subst. done.
  - rewrite list_lookup_fmap, Hk. done.
Qed.

Lemma accept_tests_lookup (acc : RealType) (ur : list RealType) (n j : nat) :
  j < n -> accept_tests acc ur n !! j = Some (real_lt (nth j ur 0%Q) acc).
Proof.
  intros Hj. unfold accept_tests. by rewrite list_lookup_fmap, lookup_seq_lt.
Qed.

Lemma sync_isAccepted_lookup (acc : RealType) (iel j w : nat) (m0 : Mover G NL) rest :
  sync_valid iel m0 rest !! j = Some w ->
  sync_isAccepted acc iel m0 rest !! j =
    Some (real_lt (nth j (sync_ur m0 rest) 0%Q) acc).
Proof. intros Hj. apply accept_tests_lookup. by eapply lookup_lt_Some. Qed.

Lemma sync_isAccepted_inv (acc : RealType) (iel j : nat) (b : bool) (m0 : Mover G NL) rest :
  sync_isAccepted acc iel m0 rest !! j = Some b ->
  b = real_lt (nth j (sync_ur m0 rest) 0%Q) acc.
Proof.
  unfold sync_isAccepted, accept_tests. rewrite list_lookup_fmap.
  intros Hb. apply fmap_Some in Hb as (j' & Hj' & ->).
  apply lookup_seq in Hj' as [-> _]. done.
Qed.

(** A walker whose proposal is invalid is left as the proposal phase left it. *)
Lemma sync_invalid_lookup (acc : RealType) (iel k : nat) (m0 : Mover G NL) rest m :
  (m0 :: rest) !! k = Some m ->
  (sync_proposed iel m0 rest).2 !! k = Some false ->
  (electron_step acc iel (m0 :: rest)).1 !! k =
    Some (sync_propose iel (sync_rng m0 rest) (sync_delta m0 rest) k m).
Proof.
  intros Hk Hinv. rewrite sync_step_unfold. cbn [fst].
  assert (Hnot : k ∉ sync_valid iel m0 rest).
  { intros (j & Hj)%list_elem_of_lookup_1. apply filtered_list_valid in Hj.
    congruence. }
  unfold multi_acceptRejectMove, multi_acceptrestoreMove, multi_ratioGrad.
  rewrite !on_each_notin by done. by apply sync_proposed_lookup.
Qed.

(** A valid walker at entry [j] of the valid list gets the ratio, then the
    commit or the discard by the verdict of [ur[j]]. *)
Lemma sync_valid_lookup (acc : RealType) (iel j k : nat) (m0 : Mover G NL) rest m :
  (m0 :: rest) !! k = Some m ->
  sync_valid iel m0 rest !! j = Some k ->
  (electron_step acc iel (m0 :: rest)).1 !! k =
    Some (sync_finish iel (real_lt (nth j (sync_ur m0 rest) 0%Q) acc)
            (sync_propose iel (sync_rng m0 rest) (sync_delta m0 rest) k m)).
Proof.
  intros Hk Hj. rewrite sync_step_unfold. cbn [fst].
  pose proof (filtered_from_NoDup 0 (sync_proposed iel m0 rest).2) as Hnd.
  pose proof (sync_isAccepted_lookup acc iel j k m0 rest Hj) as Hb.
  unfold multi_acceptRejectMove, multi_acceptrestoreMove, multi_ratioGrad.
  rewrite (on_each_at _ _ _ _ j k _ Hnd Hj Hb).
  rewrite (on_each_at _ _ _ _ j k _ Hnd Hj Hb).
  rewrite (on_each_at _ _ _ _ j k () Hnd Hj).
  - destruct (sync_proposed_lookup iel k m0 rest m Hk) as [-> _]. done.
  - apply lookup_replicate_2. by eapply lookup_lt_Some.
Qed.

Lemma sync_step_events (acc : RealType) (iel : nat) (m0 : Mover G NL) rest (e : Event) :
  In e (electron_step acc iel (m0 :: rest)).2 -> sync_event_ok acc iel m0 rest e.
Proof.
  rewrite sync_step_unfold. cbn [snd].
  rewrite <- list_elem_of_In, !elem_of_app, !elem_of_cons, elem_of_nil.
  unfold test_events, wf_events, pos_events.
  rewrite elem_of_lookup_imap, list_elem_of_fmap, elem_of_lookup_imap,
    !list_elem_of_fmap.
  intros [[->|[->|[]]]|[(w & b & -> & Hw)|[(w & -> & Hw)|[(j & [w b] & -> & Hjw)|
           [([w b] & -> & Hwb)|([w b] & -> & Hwb)]]]]]; simpl; try done.
  - split; [done|]. by apply list_elem_of_lookup_1.
  - apply lookup_zip_with_Some in Hjw as (w' & b' & [= <- <-] & Hw & Hb).
    apply sync_isAccepted_inv in Hb. split; [done|]. by exists j.
  - apply elem_of_lookup_zip_with in Hwb as (j & w' & b' & [= <- <-] & Hw & Hb).
    apply sync_isAccepted_inv in Hb. destruct b; (split; [done|]); by exists j.
  - apply elem_of_lookup_zip_with in Hwb as (j & w' & b' & [= <- <-] & Hw & Hb).
    apply sync_isAccepted_inv in Hb. destruct b; (split; [done|]); by exists j.
Qed.

(** The events a valid walker leaves in the trace of the step. *)
Lemma sync_step_valid_events (acc : RealType) (iel j w : nat) (m0 : Mover G NL) rest :
  sync_valid iel m0 rest !! j = Some w ->
  let u := nth j (sync_ur m0 rest) 0%Q in
  let tr := (electron_step acc iel (m0 :: rest)).2 in
  In (EvRatio w iel) tr /\
  In (EvTest w iel u (real_lt u acc)) tr /\
  In (if real_lt u acc then EvCommit w iel else EvRestore w iel) tr /\
  In (if real_lt u acc then EvAccept w iel else EvReject w iel) tr.
Proof.
  intros Hj u tr. subst tr. rewrite sync_step_unfold. cbn [snd].
  pose proof (sync_isAccepted_lookup acc iel j w m0 rest Hj) as Hb. fold u in Hb.
  assert (Hz : zip (sync_valid iel m0 rest) (sync_isAccepted acc iel m0 rest) !! j
               = Some (w, real_lt u acc)).
  { apply lookup_zip_with_Some. by exists w, (real_lt u acc). }
  rewrite <- !list_elem_of_In, !elem_of_app.
  split; [|split; [|split]].
  - right. right. left. apply list_elem_of_fmap. exists w. split; [done|].
    by eapply list_elem_of_lookup_2.
  - do 3 right. left. unfold test_events. apply elem_of_lookup_imap.
    by exists j, (w, real_lt u acc).
  - do 4 right. left. unfold wf_events. apply list_elem_of_fmap.
    exists (w, real_lt u acc). split; [done|]. by eapply list_elem_of_lookup_2.
  - do 5 right. unfold pos_events. apply list_elem_of_fmap.
    exists (w, real_lt u acc). split; [done|]. by eapply list_elem_of_lookup_2.
Qed.
End SyncFacts.

Section ForLoopGuarded.
Context {St E : Type}.

(** A property kept by every iteration whose events are all of a kind is
    kept by a loop whose events are all of that kind. *)
Lemma for_from_guarded (I : St -> Prop) (ok : E -> Prop)
      (body : nat -> St -> St * list E) (lo n : nat) (s : St) :
  (forall i s1, I s1 -> (forall e, In e (body i s1).2 -> ok e) -> I (body i s1).1) ->
  I s -> (forall e, In e (for_from body lo n s).2 -> ok e) ->
  I (for_from body lo n s).1.
Proof.
  intros Hstep. revert lo s. induction n as [|n IH]; intros lo s Hs Hok; simpl in *;
    [done|].
  destruct (body lo s) as [s1 t1] eqn:Hb.
  destruct (for_from body (S lo) n s1) as [s2 t2] eqn:Hr. simpl in *.
  change s2 with (s2, t2).1. rewrite <- Hr. apply IH.
  - change s1 with (s1, t1).1. rewrite <- Hb. apply Hstep; [done|].
    rewrite Hb. simpl. intros e He. apply Hok, in_app_iff. by left.
  - rewrite Hr. simpl. intros e He. apply Hok, in_app_iff. by right.
Qed.
End ForLoopGuarded.

Section MoveClaims.
Context {G NL : Type} `{RandomStream G} `{FloatOps} `{Geometry}
        `{MatrixBackend} `{Quadrature NL}.

(** C1 (amended): for an electron step whose trial move passed the validity
    check, the batched driver accepts the move if and only if the uniform
    draw read for that decision is less than the threshold, and rejects it
    otherwise; the check_determinant driver accepts the move if and only
    if its draw [ur[iel]] is greater than the threshold, and rejects it
    otherwise. *)
Theorem accept_test_of_valid_move (acc : RealType) :
  (forall (ur delta : list RealType) (iel : nat) (s : CheckDeterminant.state (G:=G)),
     let tr := (CheckDeterminant.electron_step acc ur delta iel s).2 in
     In (EvMakeMove 0 iel true) tr ->
     (In (EvAccept 0 iel) tr <-> (acc < nth iel ur 0)%Q) /\
     (In (EvReject 0 iel) tr <-> ~ (acc < nth iel ur 0)%Q)) /\
  (forall (iel : nat) (ms : list (SyncMove.Mover G NL)) (w : nat),
     let tr := (SyncMove.electron_step acc iel ms).2 in
     In (EvMakeMove w iel true) tr ->
     exists u : RealType,
       In (EvTest w iel u (real_lt u acc)) tr /\
       (In (EvAccept w iel) tr <-> (u < acc)%Q) /\
       (In (EvReject w iel) tr <-> ~ (u < acc)%Q)).
Proof.
  split.
  - intros ur delta iel s tr. subst tr.
    destruct (check_step_cases acc ur delta iel s)
      as [(_ & ->)|[(_ & Hu & ->)|(_ & Hu & ->)]]; simpl; intros Hv.
    + destruct Hv as [Hv|[Hv|[]]]; discriminate.
    + apply real_lt_true in Hu as Hlt. split; split; try done.
      * intros _. do 5 right. by left.
      * intros Hin. repeat (destruct Hin as [Hin|Hin]; [discriminate|]). done.
    + apply real_lt_false in Hu as Hlt. split; split; try done.
      * intros Hin. repeat (destruct Hin as [Hin|Hin]; [discriminate|]). done.
      * intros _. do 5 right. by left.
  - intros iel [|m0 rest] w tr; subst tr; [by intros []|].
    intros Hv. apply sync_step_events in Hv as [_ Hv].
    apply filtered_list_position in Hv as [j Hj].
    change (SyncMove.filtered_list _) with (sync_valid iel m0 rest) in Hj.
    destruct (sync_step_valid_events acc iel j w m0 rest Hj)
      as (_ & Ht & _ & Hp).
    exists (nth j (sync_ur m0 rest) 0%Q). split; [done|].
    assert (Hinj : forall j', sync_valid iel m0 rest !! j' = Some w -> j' = j).
    { intros j' Hj'. by eapply filtered_list_inj. }
    split; [rewrite <- real_lt_true|rewrite <- real_lt_false]; split.
    + intros (_ & j' & Hj' & Hu)%sync_step_events. by rewrite <- (Hinj j' Hj').
    + intros Hu. by rewrite Hu in Hp.
    + intros (_ & j' & Hj' & Hu)%sync_step_events. by rewrite <- (Hinj j' Hj').
    + intros Hu. by rewrite Hu in Hp.
Qed.

(** C3: in an electron step in which the proposal of a walker fails the
    validity check, no ratio is evaluated and no acceptance test is made
    for that walker, nothing is committed, and its determinant state is
    the one it had before the step. In the check driver the whole step is
    the activation and the failed proposal. *)
Theorem invalid_move_skips_ratio (acc : RealType) :
  (forall (ur delta : list RealType) (iel : nat) (s : CheckDeterminant.state (G:=G)),
     let r := CheckDeterminant.electron_step acc ur delta iel s in
     In (EvMakeMove 0 iel false) r.2 ->
     r.2 = [EvSetActive iel; EvMakeMove 0 iel false] /\
     CheckDeterminant.determinant_ref r.1 = CheckDeterminant.determinant_ref s /\
     CheckDeterminant.determinant r.1 = CheckDeterminant.determinant s) /\
  (forall (iel : nat) (ms : list (SyncMove.Mover G NL)) (w : nat),
     let r := SyncMove.electron_step acc iel ms in
     In (EvMakeMove w iel false) r.2 ->
     ~ In (EvRatio w iel) r.2 /\
     (forall u b, ~ In (EvTest w iel u b) r.2) /\
     ~ In (EvCommit w iel) r.2 /\
     ~ In (EvAccept w iel) r.2 /\
     SyncMove.wavefunction <$> r.1 !! w = SyncMove.wavefunction <$> ms !! w).
Proof.
  split.
  - intros ur delta iel s r. subst r.
    destruct (check_step_cases acc ur delta iel s)
      as [(_ & ->)|[(_ & Hu & ->)|(_ & Hu & ->)]]; simpl; intros Hv.
    + done.
    + repeat (destruct Hv as [Hv|Hv]; [discriminate|]). done.
    + repeat (destruct Hv as [Hv|Hv]; [discriminate|]). done.
  - intros iel [|m0 rest] w r; subst r; [by intros []|].
    intros Hv. apply sync_step_events in Hv as [_ Hv].
    assert (Hno : forall j, sync_valid iel m0 rest !! j = Some w -> False).
    { intros j Hj. apply filtered_list_valid in Hj. congruence. }
    split; [|split; [|split; [|split]]].
    + intros (_ & j & Hj)%sync_step_events. eauto.
    + intros u b (_ & j & Hj & _)%sync_step_events. eauto.
    + intros (_ & j & Hj & _)%sync_step_events. eauto.
    + intros (_ & j & Hj & _)%sync_step_events. eauto.
    + destruct ((m0 :: rest) !! w) as [m|] eqn:Hw.
      * rewrite (sync_invalid_lookup acc iel w m0 rest m Hw Hv). simpl.
        by destruct w.
      * apply lookup_lt_Some in Hv. apply lookup_ge_None in Hw.
        unfold sync_proposed, SyncMove.multi_makeMoveAndCheck in Hv.
        cbn [snd] in Hv. rewrite length_imap, length_alter in Hv.
        unfold SyncMove.multi_setActive in Hv. rewrite length_fmap in Hv. lia.
Qed.

Lemma check_step_rejected (acc : RealType) (ur delta : list RealType) (iel : nat)
      (s : CheckDeterminant.state (G:=G)) :
  ~ In (EvAccept 0 iel) (CheckDeterminant.electron_step acc ur delta iel s).2 ->
  check_same_committed s (CheckDeterminant.electron_step acc ur delta iel s).1.
Proof.
  destruct (check_step_cases acc ur delta iel s)
    as [(_ & ->)|[(_ & Hu & ->)|(_ & Hu & ->)]]; simpl; intros Hno.
  - unfold makeMoveAndCheck. destruct (applyBoundary _). by repeat split.
  - exfalso. apply Hno. do 5 right. by left.
  - unfold makeMoveAndCheck. destruct (applyBoundary _). by repeat split.
Qed.

Lemma sync_step_rejected (acc : RealType) (iel w : nat)
      (ms : list (SyncMove.Mover G NL)) (m : SyncMove.Mover G NL) :
  ms !! w = Some m ->
  ~ In (EvAccept w iel) (SyncMove.electron_step acc iel ms).2 ->
  exists m', (SyncMove.electron_step acc iel ms).1 !! w = Some m' /\
             mover_same_committed m m'.
Proof.
  destruct ms as [|m0 rest]; [done|]. intros Hw Hno.
  destruct (sync_proposed_lookup iel w m0 rest m Hw) as [_ Hv].
  destruct (makeMoveAndCheck iel _ (setActive iel (SyncMove.els m))).2 eqn:Hok.
  - apply filtered_list_position in Hv as [j Hj].
    change (SyncMove.filtered_list _) with (sync_valid iel m0 rest) in Hj.
    destruct (sync_step_valid_events acc iel j w m0 rest Hj) as (_ & _ & _ & Hp).
    rewrite (sync_valid_lookup acc iel j w m0 rest m Hw Hj).
    destruct (real_lt _ acc); [done|].
    eexists. split; [done|]. unfold mover_same_committed, det_same, sync_finish,
      sync_propose, makeMoveAndCheck.
    destruct w; simpl; destruct (applyBoundary _); by repeat split.
  - rewrite (sync_invalid_lookup acc iel w m0 rest m Hw Hv).
    eexists. split; [done|]. unfold mover_same_committed, det_same, sync_propose,
      makeMoveAndCheck.
    destruct w; simpl; destruct (applyBoundary _); by repeat split.
Qed.

(** C4: a rejected proposal changes neither the committed positions nor
    the Slater matrix nor its maintained inverse, in the check driver and,
    walker by walker, in the batched driver; [n] consecutive proposals
    for the same electron that are all rejected leave them as they
    were. *)
Theorem rejected_move_keeps_state (acc : RealType) :
  (forall (ur delta : list RealType) (iel : nat) (s : CheckDeterminant.state (G:=G)),
     let r := CheckDeterminant.electron_step acc ur delta iel s in
     ~ In (EvAccept 0 iel) r.2 -> check_same_committed s r.1) /\
  (forall (ur : list RealType) (delta_of : nat -> list RealType) (iel n : nat)
          (s : CheckDeterminant.state (G:=G)),
     let r := for_loop n (fun i => CheckDeterminant.electron_step acc ur (delta_of i) iel) s in
     ~ In (EvAccept 0 iel) r.2 -> check_same_committed s r.1) /\
  (forall (iel w : nat) (ms : list (SyncMove.Mover G NL)) (m : SyncMove.Mover G NL),
     let r := SyncMove.electron_step acc iel ms in
     ms !! w = Some m -> ~ In (EvAccept w iel) r.2 ->
     exists m', r.1 !! w = Some m' /\ mover_same_committed m m') /\
  (forall (iel n w : nat) (ms : list (SyncMove.Mover G NL)) (m : SyncMove.Mover G NL),
     let r := for_loop n (fun _ => SyncMove.electron_step acc iel) ms in
     ms !! w = Some m -> ~ In (EvAccept w iel) r.2 ->
     exists m', r.1 !! w = Some m' /\ mover_same_committed m m').
Proof.
  split; [|split; [|split]].
  - intros ur delta iel s r. apply check_step_rejected.
  - intros ur delta_of iel n s r Hno. subst r. unfold for_loop.
    apply (for_from_guarded (check_same_committed s)
             (fun e => e <> EvAccept 0 iel)).
    + intros i s1 (HR & (Ha & Hb) & (Hc & Hd)) Hok.
      destruct (check_step_rejected acc ur (delta_of i) iel s1)
        as (HR' & (Ha' & Hb') & (Hc' & Hd')).
      { intros Hin. by apply Hok in Hin. }
      repeat split; congruence.
    + by repeat split.
    + intros e He ->. done.
  - intros iel w ms m r. apply sync_step_rejected.
  - intros iel n w ms m r Hw Hno. subst r. unfold for_loop.
    apply (for_from_guarded
             (fun ms1 => exists m', ms1 !! w = Some m' /\ mover_same_committed m m')
             (fun e => e <> EvAccept w iel)).
    + intros i ms1 (m1 & Hm1 & HR & Ha & Hb) Hok.
      destruct (sync_step_rejected acc iel w ms1 m1 Hm1)
        as (m2 & Hm2 & HR' & Ha' & Hb').
      { intros Hin. by apply Hok in Hin. }
      exists m2. split; [done|]. repeat split; congruence.
    + exists m. by repeat split.
    + intros e He ->. done.
Qed.

Lemma engine_step_propose (acc u : RealType) (iel k : nat) (g : G)
      (delta : list RealType) (m : SyncMove.Mover G NL) :
  let e := SyncMove.engine_step acc iel u (SyncMove.dr_of delta k)
             (if k is 0 then SyncMove.with_rng g m else m) in
  let ok := (makeMoveAndCheck iel (SyncMove.dr_of delta k)
               (setActive iel (SyncMove.els m))).2 in
  e.2 = ok && real_lt u acc /\
  same_outcome e.1 (if ok then sync_finish iel (real_lt u acc)
                                 (sync_propose iel g delta k m)
                    else sync_propose iel g delta k m).
Proof.
  unfold SyncMove.engine_step, sync_finish, sync_propose, SyncMove.with_els,
    SyncMove.with_wf, SyncMove.with_rng, same_outcome, mover_same_committed, det_same.
  destruct k; cbn [SyncMove.els SyncMove.rng SyncMove.wavefunction SyncMove.nlpp id];
    destruct (makeMoveAndCheck iel _ (setActive iel (SyncMove.els m))) as [P ok];
    cbn [fst snd]; destruct ok; cbn [andb];
    try (destruct (real_lt u acc)); by repeat split.
Qed.

(** C2 (amended): in the batched driver the uniform draws and the
    displacements of an electron step are drawn from walker 0's stream, one
    vector for the whole batch, and only walker 0's stream advances. While
    every walker before walker [k] passed the validity check, walker [k]
    has the outcome of the single-walker engine of the spec given entry
    [k] of that vector of draws and displacement [k]: the same verdict,
    the same committed positions, the same matrix and inverse. *)
Theorem batched_step_refines_engine (acc : RealType) (iel k : nat)
        (m0 : SyncMove.Mover G NL) (rest : list (SyncMove.Mover G NL))
        (m : SyncMove.Mover G NL) :
  let n := S (length rest) in
  let r := SyncMove.electron_step acc iel (m0 :: rest) in
  let e := SyncMove.engine_step acc iel (nth k (sync_ur m0 rest) 0%Q)
             (SyncMove.dr_of (sync_delta m0 rest) k)
             (if k is 0 then SyncMove.with_rng (sync_rng m0 rest) m else m) in
  (m0 :: rest) !! k = Some m ->
  (forall i mi, i < k -> (m0 :: rest) !! i = Some mi ->
     (makeMoveAndCheck iel (SyncMove.dr_of (sync_delta m0 rest) i)
        (setActive iel (SyncMove.els mi))).2 = true) ->
  sync_ur m0 rest = (generate_uniform (SyncMove.rng m0) n).1 /\
  sync_delta m0 rest =
    (generate_normal (generate_uniform (SyncMove.rng m0) n).2 (3 * n)).1 /\
  (exists m', r.1 !! k = Some m' /\ same_outcome e.1 m') /\
  (In (EvAccept k iel) r.2 <-> e.2 = true).
Proof.
  intros n r e Hk Hpre. split; [done|]. split; [done|]. subst r e.
  destruct (sync_proposed_lookup iel k m0 rest m Hk) as [_ Hv].
  destruct (engine_step_propose acc (nth k (sync_ur m0 rest) 0%Q) iel k
              (sync_rng m0 rest) (sync_delta m0 rest) m) as [-> Hsame].
  destruct (makeMoveAndCheck iel _ (setActive iel (SyncMove.els m))).2 eqn:Hok.
  - assert (Hj : sync_valid iel m0 rest !! k = Some k).
    { replace (Some k) with (Some (0 + k)) by done.
      apply filtered_from_prefix; [|done].
      intros j Hj.
      destruct (lookup_lt_is_Some_2 (m0 :: rest) j) as [mj Hmj].
      { apply lookup_lt_Some in Hk. lia. }
      destruct (sync_proposed_lookup iel j m0 rest mj Hmj) as [_ ->].
      f_equal. by eapply Hpre. }
    split.
    + eexists. split; [by apply sync_valid_lookup|done].
    + destruct (sync_step_valid_events acc iel k k m0 rest Hj) as (_ & _ & _ & Hp).
      cbn [andb]. split.
      * intros (_ & j' & Hj' & Hu)%sync_step_events.
        by rewrite (filtered_list_inj _ _ _ _ Hj Hj').
      * intros Hu. by rewrite Hu in Hp.
  - split.
    + eexists. split; [by apply sync_invalid_lookup|done].
    + cbn [andb]. split; [|done].
      intros (_ & j' & Hj' & _)%sync_step_events.
      apply filtered_list_valid in Hj'. congruence.
Qed.
End MoveClaims.

(** ** Order of the electrons and shape of a Monte Carlo step *)

Section TraceOrder.

Lemma electrons_in_order_app (t1 t2 : list Event) :
  electrons_in_order t1 -> electrons_in_order t2 ->
  (forall e1 e2 a b, In e1 t1 -> In e2 t2 ->
     ev_iel e1 = Some a -> ev_iel e2 = Some b -> a <= b) ->
  electrons_in_order (t1 ++ t2).
Proof.
  intros Ho1 Ho2 Hle i j e1 e2 a b Hi Hj Ha Hb Hab.
  destruct (decide (i < length t1)) as [Hi1|Hi1];
    destruct (decide (j < length t1)) as [Hj1|Hj1]; try lia.
  - rewrite lookup_app_l in Hi, Hj by done. by eapply Ho1.
  - rewrite lookup_app_r in Hi by lia. rewrite lookup_app_l in Hj by done.
    apply list_elem_of_lookup_2, list_elem_of_In in Hi, Hj.
    specialize (Hle _ _ _ _ Hj Hi Hb Ha). lia.
  - rewrite lookup_app_r in Hi, Hj by lia.
    specialize (Ho2 _ _ _ _ _ _ Hi Hj Ha Hb Hab). lia.
Qed.

Lemma electrons_in_order_same (t : list Event) (k : nat) :
  (forall e, In e t -> ev_iel e = Some k) -> electrons_in_order t.
Proof.
  intros Hk i j e1 e2 a b Hi Hj Ha Hb Hab.
  apply list_elem_of_lookup_2, list_elem_of_In, Hk in Hi, Hj.
  assert (a = k) by congruence. assert (b = k) by congruence. lia.
Qed.

Lemma electrons_in_order_cons (e : Event) (t : list Event) :
  ev_iel e = None -> electrons_in_order t -> electrons_in_order (e :: t).
Proof.
  intros He Ho i j e1 e2 a b Hi Hj Ha Hb Hab.
  destruct i as [|i]; simpl in Hi; [congruence|].
  destruct j as [|j]; simpl in Hj; [congruence|].
  specialize (Ho _ _ _ _ _ _ Hi Hj Ha Hb Hab). lia.
Qed.

Context {St : Type}.
Implicit Types (body : nat -> St -> St * list Event).

(** A loop over the electrons whose iteration [i] only has events about
    electron [i] has its events in the order of the electrons. *)
Lemma for_from_in_order body (lo n : nat) (s : St) :
  (forall i s1 e, In e (body i s1).2 -> ev_iel e = Some i) ->
  electrons_in_order (for_from body lo n s).2.
Proof.
  intros Hkey. revert lo s. induction n as [|n IH]; intros lo s; simpl.
  - intros i j e1 e2 a b Hi. done.
  - destruct (body lo s) as [s1 t1] eqn:Hb.
    destruct (for_from body (S lo) n s1) as [s2 t2] eqn:Hr. simpl.
    apply electrons_in_order_app.
    + apply (electrons_in_order_same _ lo). intros e He. apply (Hkey lo s).
      by rewrite Hb.
    + specialize (IH (S lo) s1). by rewrite Hr in IH.
    + intros e1 e2 a b He1 He2 Ha Hb'.
      assert (ev_iel e1 = Some lo) by (apply (Hkey lo s); by rewrite Hb).
      assert (He2' : In e2 (for_from body (S lo) n s1).2) by (by rewrite Hr).
      apply for_from_event in He2' as (i & s' & Hi & He2').
      apply Hkey in He2'. assert (a = lo) by congruence.
      assert (b = i) by congruence. lia.
Qed.

Lemma activations_app (t1 t2 : list Event) :
  activations (t1 ++ t2) = activations t1 ++ activations t2.
Proof. apply omap_app. Qed.

Lemma activations_none (t : list Event) :
  (forall e i, In e t -> e <> EvSetActive i) -> activations t = [].
Proof.
  induction t as [|e t IH]; intros Hno; [done|].
  change (e :: t) with ([e] ++ t). rewrite activations_app.
  rewrite IH by (intros e' i He'; apply Hno; by right).
  destruct e; try done. exfalso. eapply Hno; [by left|done].
Qed.

(** Such a loop makes the electrons active one after the other, from [lo]
    on, when every iteration activates its electron once. *)
Lemma for_from_activations (I : St -> Prop) body (lo n : nat) (s : St) :
  (forall i s1, I s1 -> I (body i s1).1 /\ activations (body i s1).2 = [i]) ->
  I s -> activations (for_from body lo n s).2 = seq lo n.
Proof.
  intros Hstep. revert lo s. induction n as [|n IH]; intros lo s Hs; simpl; [done|].
  destruct (Hstep lo s Hs) as [Hs1 Hact].
  destruct (body lo s) as [s1 t1] eqn:Hb.
  destruct (for_from body (S lo) n s1) as [s2 t2] eqn:Hr. simpl in *.
  rewrite activations_app, Hact. simpl. f_equal.
  specialize (IH (S lo) s1 Hs1). by rewrite Hr in IH.
Qed.
End TraceOrder.

Section SweepClaims.
Context {G NL C : Type} `{RandomStream G} `{FloatOps} `{Geometry}
        `{MatrixBackend} `{Quadrature NL} `{CrowdOps C}.

Lemma check_step_keys (acc : RealType) (ur delta : list RealType) (iel : nat)
      (s : CheckDeterminant.state (G:=G)) (e : Event) :
  In e (CheckDeterminant.electron_step acc ur delta iel s).2 -> ev_iel e = Some iel.
Proof.
  destruct (check_step_cases acc ur delta iel s)
    as [(_ & ->)|[(_ & _ & ->)|(_ & _ & ->)]]; simpl;
    intros Hin; repeat (destruct Hin as [<-|Hin]; [done|]); done.
Qed.

Lemma check_step_activations (acc : RealType) (ur delta : list RealType) (iel : nat)
      (s : CheckDeterminant.state (G:=G)) :
  activations (CheckDeterminant.electron_step acc ur delta iel s).2 = [iel].
Proof.
  by destruct (check_step_cases acc ur delta iel s)
    as [(_ & ->)|[(_ & _ & ->)|(_ & _ & ->)]].
Qed.

Lemma sync_step_keys (acc : RealType) (iel : nat) (ms : list (SyncMove.Mover G NL))
      (e : Event) :
  In e (SyncMove.electron_step acc iel ms).2 -> ev_iel e = Some iel.
Proof.
  destruct ms as [|m0 rest]; [by intros []|].
  intros He%sync_step_events.
  destruct e; simpl in *; first [done | by subst | by destruct He as [? _]; subst].
Qed.

Lemma sync_step_length (acc : RealType) (iel : nat) (ms : list (SyncMove.Mover G NL)) :
  length (SyncMove.electron_step acc iel ms).1 = length ms.
Proof.
  destruct ms as [|m0 rest]; [done|]. rewrite sync_step_unfold. cbn [fst].
  assert (Hon : forall (A : Type) (f : A -> _ -> _) ptrs args
                       (l : list (SyncMove.Mover G NL)),
             length (SyncMove.on_each f ptrs args l) = length l).
  { intros A f ptrs. induction ptrs as [|p ptrs IH]; intros args l; [done|].
    destruct args as [|a args]; [done|]. unfold SyncMove.on_each. simpl.
    fold (SyncMove.on_each f ptrs args (alter (f a) p l)).
    by rewrite IH, length_alter. }
  unfold SyncMove.multi_acceptRejectMove, SyncMove.multi_acceptrestoreMove,
    SyncMove.multi_ratioGrad. rewrite !Hon.
  unfold sync_proposed, SyncMove.multi_makeMoveAndCheck. cbn [fst].
  rewrite length_imap, length_alter. unfold SyncMove.multi_setActive.
  by rewrite length_fmap.
Qed.

Lemma sync_step_activations (acc : RealType) (iel : nat)
      (m0 : SyncMove.Mover G NL) (rest : list (SyncMove.Mover G NL)) :
  activations (SyncMove.electron_step acc iel (m0 :: rest)).2 = [iel].
Proof.
  rewrite sync_step_unfold. cbn [snd]. simpl app.
  unfold activations. simpl. f_equal. apply activations_none.
  intros e i. rewrite <- list_elem_of_In, !elem_of_app.
  unfold SyncMove.test_events, SyncMove.wf_events, SyncMove.pos_events.
  rewrite elem_of_lookup_imap, list_elem_of_fmap, elem_of_lookup_imap,
    !list_elem_of_fmap.
  intros [(w & b & -> & _)|[(w & -> & _)|[(j & [w b] & -> & _)|
           [([w b] & -> & _)|([w b] & -> & _)]]]]; try done; by destruct b.
Qed.

Lemma crowd_step_trace (acc : RealType) (iel : nat) (s : C * nat) :
  (CrowdDriver.electron_step acc iel s).2 =
  [EvSetActive iel; EvEvalGrad iel; EvConstructTrialMoves iel; EvRatioGrad iel;
   EvHessian iel; EvFinishUpdate iel; EvAcceptRestore iel].
Proof.
  unfold CrowdDriver.electron_step. destruct s as [c n].
  by destruct (acceptRestoreMoves _ _ _).
Qed.

(** C5: within a sweep the electrons are processed one after the other in
    increasing order 0 .. N-1, and every event about electron [i], the
    commit of an accepted move among them, stands before every event
    about a later electron, the ratio evaluation among them; in the
    batched driver this holds across the whole batch, whatever the
    walkers of the events. *)
Theorem electrons_processed_in_order (acc : RealType) (nels : nat) :
  (forall (ur : list RealType) (s : CheckDeterminant.state (G:=G)),
     let tr := (CheckDeterminant.substep acc ur nels s).2 in
     electrons_in_order tr /\ activations tr = seq 0 nels) /\
  (forall (m0 : SyncMove.Mover G NL) (rest : list (SyncMove.Mover G NL)),
     let tr := (SyncMove.sweep acc nels (m0 :: rest)).2 in
     electrons_in_order tr /\ activations tr = seq 0 nels) /\
  (forall (s : C * nat),
     let tr := (CrowdDriver.substep acc nels s).2 in
     electrons_in_order tr /\ activations tr = seq 0 nels).
Proof.
  split; [|split].
  - intros ur s tr. subst tr. unfold CheckDeterminant.substep.
    destruct (generate_normal _ _) as [delta g]. unfold for_loop. split.
    + apply for_from_in_order. intros i s1 e. apply check_step_keys.
    + apply (for_from_activations (fun _ => True)); [|done].
      intros i s1 _. split; [done|]. apply check_step_activations.
  - intros m0 rest tr. subst tr. unfold SyncMove.sweep, for_loop. split.
    + apply for_from_in_order. intros i s1 e. apply sync_step_keys.
    + apply (for_from_activations (fun ms => length ms = S (length rest))); [|done].
      intros i ms Hlen. split; [by rewrite sync_step_length|].
      destruct ms as [|m1 ms]; [done|]. apply sync_step_activations.
  - intros [c n] tr. subst tr. unfold CrowdDriver.substep.
    destruct (for_loop _ _ _) as [s1 t] eqn:Hl. simpl.
    assert (Ht : t = (for_loop nels (CrowdDriver.electron_step acc)
                        (fillRandoms c, n)).2) by (by rewrite Hl).
    rewrite Ht. unfold for_loop. split.
    + apply electrons_in_order_cons; [done|]. apply for_from_in_order.
      intros i s2 e. rewrite crowd_step_trace. simpl.
      intros Hin. repeat (destruct Hin as [<-|Hin]; [done|]). done.
    + unfold activations. simpl. fold (activations (for_from
        (CrowdDriver.electron_step acc) 0 nels (fillRandoms c, n)).2).
      apply (for_from_activations (fun _ => True)); [|done].
      intros i s2 _. split; [done|]. by rewrite crowd_step_trace.
Qed.
End SweepClaims.

Section StepShape.

Lemma is_sweep_keyed (e : Event) (i : nat) : ev_iel e = Some i -> is_sweep e = true.
Proof. intros He. unfold is_sweep. rewrite He. by destruct e. Qed.

Lemma count_event_app (p : Event -> bool) (t1 t2 : list Event) :
  count_event p (t1 ++ t2) = count_event p t1 + count_event p t2.
Proof. unfold count_event. by rewrite List.filter_app, length_app. Qed.

Lemma count_event_none (p q : Event -> bool) (t : list Event) :
  (forall e, q e = true -> p e = false) -> Forall (fun e => q e = true) t ->
  count_event p t = 0.
Proof.
  intros Hpq Ht. unfold count_event. induction Ht as [|e t He _ IH]; [done|].
  simpl. by rewrite (Hpq e He).
Qed.

Lemma sweep_not_donePbyP (e : Event) : is_sweep e = true -> is_donePbyP e = false.
Proof. by destruct e. Qed.

Lemma nlpp_not_donePbyP (e : Event) : is_nlpp e = true -> is_donePbyP e = false.
Proof. by destruct e. Qed.

Lemma mc_step_shape_count (t : list Event) :
  mc_step_shape t -> count_event is_donePbyP t = 1.
Proof.
  intros (sw & nl & -> & Hsw & Hnl). rewrite !count_event_app.
  rewrite (count_event_none _ _ sw sweep_not_donePbyP Hsw).
  rewrite (count_event_none _ _ nl nlpp_not_donePbyP Hnl).
  done.
Qed.

Lemma shapes_count (ts : list (list Event)) :
  Forall mc_step_shape ts -> count_event is_donePbyP (concat ts) = length ts.
Proof.
  induction 1 as [|t ts Ht _ IH]; [done|]. simpl.
  by rewrite count_event_app, IH, mc_step_shape_count.
Qed.

Context {St : Type}.

(** The trace of a Monte Carlo loop whose every step has the shape. *)
Lemma for_from_shapes (body : nat -> St -> St * list Event) (lo n : nat) (s : St) :
  (forall i s1, mc_step_shape (body i s1).2) ->
  let tr := (for_from body lo n s).2 in
  (exists ts, tr = concat ts /\ length ts = n /\ Forall mc_step_shape ts) /\
  count_event is_donePbyP tr = n.
Proof.
  intros Hshape tr.
  destruct (for_from_concat (fun _ => mc_step_shape) body lo n s)
    as (ts & Hts & Hlen & Hall); [by intros|].
  assert (Forall mc_step_shape ts).
  { apply Forall_lookup. intros k t Hk. by eapply Hall. }
  split; [by exists ts|]. subst tr. by rewrite Hts, shapes_count.
Qed.
End StepShape.

Section FinalizeClaims.
Context {G NL C : Type} `{RandomStream G} `{FloatOps} `{Geometry}
        `{MatrixBackend} `{Quadrature NL} `{CrowdOps C}.

Lemma pair_loop_trace (lo n : nat)
      (st : list (SyncMove.Mover G NL) * list SyncMove.walker_work) :
  (for_from SyncMove.pair_step lo n st).2 = EvNLPP <$> seq lo n.
Proof.
  revert lo st. induction n as [|n IH]; intros lo st; [done|].
  rewrite for_from_S. destruct (SyncMove.pair_step lo st) as [s1 t1] eqn:Hb.
  specialize (IH (S lo) s1). destruct (for_from _ _ _ s1) as [s2 t2].
  simpl in *. rewrite IH. destruct st as [ms1 wks1]. simpl in Hb.
  by injection Hb as _ <-.
Qed.

Lemma sync_nlpp_trace (locRmax : RealType) (nknots nels : nat)
      (ms : list (SyncMove.Mover G NL)) :
  (SyncMove.nlpp_phase locRmax nknots nels ms).2 =
  EvFindPairs :: (EvNLPP <$> seq 0 (SyncMove.max_pairs (SyncMove.EiPairs_of locRmax ms))).
Proof.
  unfold SyncMove.nlpp_phase, for_loop.
  pose proof (pair_loop_trace 0 (SyncMove.max_pairs (SyncMove.EiPairs_of locRmax ms))
    (ms, SyncMove.setup_work locRmax
           (SyncMove.max_pairs (SyncMove.EiPairs_of locRmax ms)) nknots nels <$> ms))
    as Ht.
  destruct (for_from _ _ _ _) as [st t]. simpl in *. by rewrite Ht.
Qed.

Lemma sync_mc_step_shape (acc locRmax : RealType) (nsub : Z) (nels nknots : nat)
      (ms : list (SyncMove.Mover G NL)) :
  mc_step_shape (SyncMove.mc_step acc locRmax nsub nels nknots ms).2.
Proof.
  unfold SyncMove.mc_step.
  destruct (for_loop _ _ ms) as [ms1 t1] eqn:Hl.
  pose proof (sync_nlpp_trace locRmax nknots nels
                (SyncMove.multi_evaluateGL (SyncMove.multi_donePbyP ms1))) as Hn.
  destruct (SyncMove.nlpp_phase _ _ _ _) as [[ms3 wks] t2]. simpl in *.
  exists t1, t2. split; [done|]. split.
  - assert (Ht : t1 = (for_loop (Z.to_nat nsub) (fun _ => SyncMove.sweep acc nels) ms).2)
      by (by rewrite Hl).
    apply Forall_forall. intros e He%list_elem_of_In. rewrite Ht in He.
    apply for_from_event in He as (i & s1 & _ & He).
    apply for_from_event in He as (j & s2 & _ & He).
    apply sync_step_keys in He. by eapply is_sweep_keyed.
  - rewrite Hn. constructor; [done|]. apply Forall_fmap, Forall_forall. by intros.
Qed.

Lemma crowd_substep_events (acc : RealType) (nels : nat) (s : C * nat) (e : Event) :
  In e (CrowdDriver.substep acc nels s).2 -> is_sweep e = true.
Proof.
  unfold CrowdDriver.substep. destruct s as [c n].
  destruct (for_loop _ _ _) as [s3 t3] eqn:Hl3. simpl.
  intros [<-|He]; [done|].
  assert (Ht3 : t3 = (for_loop nels (CrowdDriver.electron_step acc)
                        (fillRandoms c, n)).2) by (by rewrite Hl3).
  rewrite Ht3 in He. apply for_from_event in He as (j & s4 & _ & He).
  rewrite crowd_step_trace in He. simpl in He.
  repeat (destruct He as [<-|He]; [done|]). done.
Qed.

Lemma crowd_mc_step_shape (acc locRmax : RealType) (nsub : Z) (nels nions : nat)
      (s : C * nat) :
  mc_step_shape (CrowdDriver.mc_step acc locRmax nsub nels nions s).2.
Proof.
  unfold CrowdDriver.mc_step.
  destruct (for_loop _ _ s) as [[c1 n1] t] eqn:Hl. simpl.
  exists t, [EvCalcNLPP]. split; [done|]. split; [|by constructor].
  assert (Ht : t = (for_loop (Z.to_nat nsub) (fun _ => CrowdDriver.substep acc nels) s).2)
    by (by rewrite Hl).
  apply Forall_forall. intros e He%list_elem_of_In. rewrite Ht in He.
  apply for_from_event in He as (i & s2 & _ & He).
  by eapply crowd_substep_events.
Qed.

(** C6 (amended): in every Monte Carlo step, after all its substeps (each
    a sweep over all electrons) are processed, the driver performs
    [donePbyP] followed by [evaluateGL] before any pseudopotential
    evaluation; the finalize happens once per Monte Carlo step. *)
Theorem finalize_once_per_mc_step (acc locRmax : RealType) (nst nsub : Z) :
  (forall (ms ms' : list (SyncMove.Mover G NL)) (tr : list Event),
     SyncMove.run acc locRmax nst nsub ms = Some (ms', tr) ->
     (exists ts, tr = concat ts /\ length ts = Z.to_nat nst /\
                 Forall mc_step_shape ts) /\
     count_event is_donePbyP tr = Z.to_nat nst) /\
  (forall (nels nions : nat) (movers : C),
     let tr := (CrowdDriver.movers_thread_main acc locRmax nst nsub nels nions movers).2 in
     (exists ts, tr = concat ts /\ length ts = Z.to_nat nst /\
                 Forall mc_step_shape ts) /\
     count_event is_donePbyP tr = Z.to_nat nst).
Proof.
  split.
  - intros ms ms' tr Hrun. unfold SyncMove.run in Hrun.
    destruct ms as [|m0 rest]; [done|]. injection Hrun as Hrun.
    assert (Htr : tr = (for_loop (Z.to_nat nst)
              (fun _ => SyncMove.mc_step acc locRmax nsub
                          (getTotalNum (SyncMove.els m0))
                          (nlpp_size (SyncMove.nlpp m0))) (m0 :: rest)).2)
      by (by rewrite Hrun).
    rewrite Htr. apply for_from_shapes. intros i s1. apply sync_mc_step_shape.
  - intros nels nions movers tr. subst tr. unfold CrowdDriver.movers_thread_main.
    apply for_from_shapes. intros i s1. apply crowd_mc_step_shape.
Qed.
End FinalizeClaims.

(** ** The pseudopotential loop *)

Section PairLists.
Import SyncMove.

Lemma fold_left_filtered {A B : Type} (p : B -> bool) (h : B -> A -> A)
      (l : list B) (a : A) :
  fold_left (fun acc x => if p x then h x acc else acc) l a =
  fold_left (fun acc x => h x acc) (List.filter p l) a.
Proof.
  revert a. induction l as [|x l IH]; intros a; [done|]. simpl.
  destruct (p x); simpl; apply IH.
Qed.

Lemma over_pairs_fold {A : Type} (locRmax : RealType) (P : ParticleSet)
      (hit : nat -> nat -> A -> A) (a : A) :
  over_pairs locRmax P hit a =
  fold_left (fun acc p => hit p.1 p.2 acc) (ei_pairs locRmax P) a.
Proof.
  unfold over_pairs, ei_pairs. generalize (seq 0 (length (R P))) as els.
  intros els. revert a. induction els as [|el els IH]; intros a; [done|].
  simpl. rewrite fold_left_app, <- IH. f_equal.
  rewrite (fold_left_filtered
             (fun atNum => real_lt (dist_at P el atNum) locRmax) (hit el)).
  generalize (List.filter (fun atNum => real_lt (dist_at P el atNum) locRmax)
                (seq 0 (dist_extent1 P))) as ats.
  intros ats. revert a. induction ats as [|at' ats IHa]; intros a; [done|].
  simpl. apply IHa.
Qed.

Lemma FindNumEiPairs_length (locRmax : RealType) (P : ParticleSet) :
  FindNumEiPairs locRmax P = length (ei_pairs locRmax P).
Proof.
  unfold FindNumEiPairs. rewrite over_pairs_fold.
  assert (Hgen : forall (l : list (nat * nat)) n,
            fold_left (fun acc _ => S acc) l n = n + length l).
  { induction l as [|x l IH]; intros n; simpl; [lia|]. rewrite IH. lia. }
  apply (Hgen _ 0).
Qed.

(** Writing the pairs one after the other from slot [idx] on leaves the
    other slots as they were. *)
Lemma write_pairs_lookup (pairs : list (nat * nat)) (l : list (Z * Z)) (idx i : nat) :
  let r := fold_left
             (fun (acc : list (Z * Z) * nat) (p : nat * nat) =>
                let '(l, idx) := acc in
                (<[idx := (Z.of_nat p.1, Z.of_nat p.2)]> l, S idx))
             pairs (l, idx) in
  length r.1 = length l /\
  (i < idx \/ idx + length pairs <= i -> r.1 !! i = l !! i) /\
  (idx <= i < idx + length pairs -> i < length l ->
   exists p, pairs !! (i - idx) = Some p /\
             r.1 !! i = Some (Z.of_nat p.1, Z.of_nat p.2)).
Proof.
  revert l idx. induction pairs as [|p pairs IH]; intros l idx; simpl.
  - split; [done|]. split; [done|]. lia.
  - destruct (IH (<[idx := (Z.of_nat p.1, Z.of_nat p.2)]> l) (S idx))
      as (Hlen & Hout & Hin).
    rewrite length_insert in Hlen, Hin. split; [done|]. split.
    + intros Hi. rewrite Hout by lia. apply list_lookup_insert_ne. lia.
    + intros Hi Hl. destruct (decide (i = idx)) as [->|Hne].
      * exists p. replace (idx - idx) with 0 by lia. split; [done|].
        rewrite Hout by lia. by apply list_lookup_insert_eq.
      * destruct Hin as (q & Hq & Hr); [lia|done|].
        exists q. split; [|done].
        replace (i - idx) with (S (i - S idx)) by lia. done.
Qed.

Lemma SetupEiLists_length (locRmax : RealType) (maxSize : nat) (P : ParticleSet) :
  length (SetupEiLists locRmax maxSize P) = maxSize.
Proof.
  unfold SetupEiLists. rewrite over_pairs_fold.
  destruct (write_pairs_lookup (ei_pairs locRmax P)
              (replicate maxSize ((-1)%Z, 0%Z)) 0 0) as (Hlen & _).
  rewrite length_replicate in Hlen. exact Hlen.
Qed.

(** Slots from the walker's pair count on hold the sentinel; the slots
    before hold its pairs. *)
Lemma SetupEiLists_lookup (locRmax : RealType) (maxSize i : nat) (P : ParticleSet) :
  i < maxSize ->
  (FindNumEiPairs locRmax P <= i ->
   SetupEiLists locRmax maxSize P !! i = Some ((-1)%Z, 0%Z)) /\
  (i < FindNumEiPairs locRmax P ->
   exists p, ei_pairs locRmax P !! i = Some p /\
             SetupEiLists locRmax maxSize P !! i = Some (Z.of_nat p.1, Z.of_nat p.2)).
Proof.
  intros Hi. rewrite FindNumEiPairs_length. unfold SetupEiLists.
  rewrite over_pairs_fold.
  destruct (write_pairs_lookup (ei_pairs locRmax P)
              (replicate maxSize ((-1)%Z, 0%Z)) 0 i) as (_ & Hout & Hin).
  split.
  - intros Hge. rewrite Hout by lia. by apply lookup_replicate_2.
  - intros Hlt. destruct Hin as (p & Hp & Hr); [lia|by rewrite length_replicate|].
    exists p. by rewrite Nat.sub_0_r in Hp.
Qed.

Lemma max_pairs_bound (counts : list nat) :
  (forall n, In n counts -> n <= max_pairs counts) /\
  (counts <> [] -> In (max_pairs counts) counts).
Proof.
  unfold max_pairs.
  assert (Hgen : forall l m,
    let r := fold_left (fun maxSize n => if maxSize <? n then n else maxSize) l m in
    m <= r /\ (forall n, In n l -> n <= r) /\ (r = m \/ In r l)).
  { induction l as [|x l IH]; intros m; simpl; [split; [lia|split; [tauto|by left]]|].
    destruct (IH (if m <? x then x else m)) as (Hm & Hall & Hin).
    destruct (Nat.ltb_spec m x).
    - split; [lia|]. split; [intros n [<-|Hn]; [lia|by apply Hall]|].
      destruct Hin as [->|Hin]; right; [by left|by right].
    - split; [lia|]. split; [intros n [<-|Hn]; [lia|by apply Hall]|].
      destruct Hin as [->|Hin]; [by left|right; by right]. }
  destruct (Hgen counts 0) as (_ & Hall & Hin). split; [done|].
  intros Hne. destruct Hin as [Hz|Hin]; [|done].
  destruct counts as [|c counts]; [done|].
  rewrite Hz. assert (c <= 0) by (rewrite <- Hz; apply Hall; by left).
  left. lia.
Qed.
End PairLists.

Section PairLoop.
Context {G NL : Type} `{RandomStream G} `{FloatOps} `{Geometry}
        `{MatrixBackend} `{Quadrature NL}.
Import SyncMove.
Implicit Types (ms : list (Mover G NL)) (wks : list walker_work).

Lemma for_from_split {St E : Type} (body : nat -> St -> St * list E)
      (lo a b : nat) (s : St) :
  (for_from body lo (a + b) s).1 =
  (for_from body (lo + a) b (for_from body lo a s).1).1.
Proof.
  revert lo s. induction a as [|a IH]; intros lo s; simpl.
  - by rewrite Nat.add_0_r.
  - destruct (body lo s) as [s1 t1].
    specialize (IH (S lo) s1). replace (S lo + a) with (lo + S a) in IH by lia.
    destruct (for_from body (S lo) (a + b) s1) as [s2 t2].
    destruct (for_from body (S lo) a s1) as [s3 t3]. simpl in *. done.
Qed.

Lemma pair_step_movers (eiPair : nat) ms wks :
  (pair_step eiPair (ms, wks)).1.1 = ms.
Proof. reflexivity. Qed.

Lemma pair_step_lookup (eiPair k : nat) ms wks (m : Mover G NL) (wk : walker_work) :
  ms !! k = Some m -> wks !! k = Some wk ->
  (pair_step eiPair (ms, wks)).1.2 !! k =
    Some (multi_ratio eiPair m (multi_evaluate_v (updateTempPosAndRs eiPair m wk))).
Proof.
  intros Hm Hwk. simpl. apply lookup_zip_with_Some.
  exists m, (multi_evaluate_v (updateTempPosAndRs eiPair m wk)).
  split; [done|]. split; [done|]. rewrite list_lookup_fmap.
  assert (Hz : zip_with (updateTempPosAndRs eiPair) ms wks !! k
               = Some (updateTempPosAndRs eiPair m wk)).
  { apply lookup_zip_with_Some. by exists m, wk. }
  by rewrite Hz.
Qed.

(** One walker's share of an iteration never writes its pair list, and on
    a sentinel slot it writes neither the trial positions nor the ratios. *)
Lemma walker_pair_step_EiList (eiPair : nat) (m : Mover G NL) (wk : walker_work) :
  EiList (multi_ratio eiPair m (multi_evaluate_v (updateTempPosAndRs eiPair m wk)))
  = EiList wk.
Proof.
  unfold multi_ratio, multi_evaluate_v, updateTempPosAndRs, pair_at. simpl.
  destruct (nth eiPair (EiList wk) _) as [elNum atNum] eqn:Hp.
  destruct (elNum =? -1)%Z eqn:He; simpl; rewrite Hp, He; done.
Qed.

Lemma walker_pair_step_sentinel (eiPair : nat) (m : Mover G NL) (wk : walker_work) :
  (pair_at eiPair wk).1 = (-1)%Z ->
  let wk' := multi_ratio eiPair m (multi_evaluate_v (updateTempPosAndRs eiPair m wk)) in
  ratios wk' = ratios wk /\ bigElPos wk' = bigElPos wk.
Proof.
  unfold multi_ratio, multi_evaluate_v, updateTempPosAndRs, pair_at. simpl.
  destruct (nth eiPair (EiList wk) _) as [elNum atNum] eqn:Hp. simpl.
  intros ->. simpl. rewrite Hp. done.
Qed.

(** The loop over the pairs leaves the walkers as they are. *)
Lemma pair_loop_movers (lo n : nat) ms wks :
  (for_from pair_step lo n (ms, wks)).1.1 = ms.
Proof.
  apply (for_from_invariant (fun st => st.1 = ms)); [|done].
  intros i [ms1 wks1] _ Hms. simpl in *. done.
Qed.

(** Along the loop a walker keeps its pair list. *)
Lemma pair_loop_EiList (lo n k : nat) ms wks (m : Mover G NL) (wk : walker_work) :
  ms !! k = Some m -> wks !! k = Some wk ->
  exists wk', (for_from pair_step lo n (ms, wks)).1.2 !! k = Some wk' /\
              EiList wk' = EiList wk.
Proof.
  intros Hm Hwk.
  apply (for_from_invariant
           (fun st => st.1 = ms /\ exists wk', st.2 !! k = Some wk' /\
                                               EiList wk' = EiList wk)).
  - intros i [ms1 wks1] _ (Hms & wk1 & Hwk1 & HE). simpl in Hms. subst ms1.
    split; [done|]. eexists. split; [by apply pair_step_lookup|].
    by rewrite walker_pair_step_EiList.
  - split; [done|]. by exists wk.
Qed.

(** Iterations over sentinel slots leave the walker's ratios as they are. *)
Lemma pair_loop_sentinel (lo n k : nat) ms wks (m : Mover G NL) (wk : walker_work) :
  ms !! k = Some m -> wks !! k = Some wk ->
  (forall i, lo <= i < lo + n -> (pair_at i wk).1 = (-1)%Z) ->
  exists wk', (for_from pair_step lo n (ms, wks)).1.2 !! k = Some wk' /\
              ratios wk' = ratios wk.
Proof.
  intros Hm Hwk Hsent.
  cut (let st := (for_from pair_step lo n (ms, wks)).1 in
       st.1 = ms /\ exists wk', st.2 !! k = Some wk' /\
                                EiList wk' = EiList wk /\ ratios wk' = ratios wk).
  { intros (_ & wk' & ? & _ & ?). by exists wk'. }
  apply (for_from_invariant
           (fun st => st.1 = ms /\ exists wk', st.2 !! k = Some wk' /\
                        EiList wk' = EiList wk /\ ratios wk' = ratios wk)).
  - intros i [ms1 wks1] Hi (Hms & wk1 & Hwk1 & HE & HR). simpl in Hms. subst ms1.
    split; [done|]. eexists. split; [by apply pair_step_lookup|].
    rewrite walker_pair_step_EiList. split; [done|].
    destruct (walker_pair_step_sentinel i m wk1) as [-> _]; [|done].
    unfold pair_at. rewrite HE. by apply Hsent.
  - split; [done|]. by exists wk.
Qed.

(** C8: the pseudopotential phase only fills its own buffers: every event
    of it is an event of the pseudopotential, none a commit, and the walkers
    it was given (positions, Slater matrices, inverses and all) come out
    of it as they went in; a Monte Carlo step ends with the walkers as the
    finalize left them. *)
Theorem nlpp_keeps_walkers (locRmax : RealType) (nknots nels : nat) ms :
  (nlpp_phase locRmax nknots nels ms).1.1 = ms /\
  Forall (fun e => is_nlpp e = true) (nlpp_phase locRmax nknots nels ms).2 /\
  (forall (acc : RealType) (nsub : Z),
     (mc_step acc locRmax nsub nels nknots ms).1 =
     multi_evaluateGL
       (multi_donePbyP (for_loop (Z.to_nat nsub) (fun _ => sweep acc nels) ms).1)).
Proof.
  assert (Hkeep : forall l : list (Mover G NL),
            (nlpp_phase locRmax nknots nels l).1.1 = l).
  { intros l. unfold nlpp_phase, for_loop.
    pose proof (pair_loop_movers 0 (max_pairs (EiPairs_of locRmax l)) l
      (setup_work locRmax (max_pairs (EiPairs_of locRmax l)) nknots nels <$> l)) as Hm.
    by destruct (for_from _ _ _ _) as [[ms1 wks1] t]. }
  split; [apply Hkeep|]. split.
  - rewrite sync_nlpp_trace. constructor; [done|].
    apply Forall_fmap, Forall_forall. by intros.
  - intros acc nsub. unfold mc_step.
    destruct (for_loop _ _ ms) as [ms1 t1]. simpl.
    specialize (Hkeep (multi_evaluateGL (multi_donePbyP ms1))).
    by destruct (nlpp_phase _ _ _ _) as [[ms3 wks] t2].
Qed.

Lemma for_from_snoc {St E : Type} (body : nat -> St -> St * list E)
      (lo n : nat) (s : St) :
  (for_from body lo (S n) s).1 = (body (lo + n) (for_from body lo n s).1).1.
Proof.
  replace (S n) with (n + 1) by lia. rewrite for_from_split. simpl.
  destruct (body (lo + n) _) as [s1 t1]. done.
Qed.

(** One walker's share of an iteration on one of its pairs: the trial
    positions of the pair's electron around the pair's ion, the orbitals
    there, and the ratios from them. *)
Lemma walker_pair_step_real (eiPair : nat) (m : Mover G NL) (wk : walker_work)
      (p : nat * nat) :
  pair_at eiPair wk = pair_slot p ->
  let wk' := multi_ratio eiPair m (multi_evaluate_v (updateTempPosAndRs eiPair m wk)) in
  rOnSphere wk' = rOnSphere wk /\
  bigElPos wk' = sphere_position (els m) p.1 p.2 <$> rOnSphere wk /\
  tempPsiV wk' = evaluate <$> bigElPos wk' /\
  ratios wk' =
    (fun row => inner_product row (psiMinv (wavefunction m)) p.1) <$> tempPsiV wk'.
Proof.
  unfold multi_ratio, multi_evaluate_v, updateTempPosAndRs, pair_at, pair_slot.
  destruct p as [el at']. cbn [fst snd]. intros Hp. rewrite Hp.
  assert (Hne : (Z.of_nat el =? -1)%Z = false) by (apply Z.eqb_neq; lia).
  rewrite Hne. cbn [EiList rOnSphere bigElPos tempPsiV ratios].
  rewrite Hp, Hne. cbn [EiList rOnSphere bigElPos tempPsiV ratios].
  by rewrite !Nat2Z.id.
Qed.

(** The same on a sentinel slot: only the orbital buffer is written, from
    the trial positions that are there. *)
Lemma walker_pair_step_skip (eiPair : nat) (m : Mover G NL) (wk : walker_work) :
  (pair_at eiPair wk).1 = (-1)%Z ->
  let wk' := multi_ratio eiPair m (multi_evaluate_v (updateTempPosAndRs eiPair m wk)) in
  rOnSphere wk' = rOnSphere wk /\ bigElPos wk' = bigElPos wk /\
  ratios wk' = ratios wk /\ tempPsiV wk' = evaluate <$> bigElPos wk.
Proof.
  unfold multi_ratio, multi_evaluate_v, updateTempPosAndRs, pair_at. simpl.
  destruct (nth eiPair (EiList wk) _) as [elNum atNum] eqn:Hp. simpl.
  intros ->. simpl. rewrite Hp. done.
Qed.

Lemma walker_pair_step_rOnSphere (eiPair : nat) (m : Mover G NL) (wk : walker_work) :
  rOnSphere (multi_ratio eiPair m (multi_evaluate_v (updateTempPosAndRs eiPair m wk)))
  = rOnSphere wk.
Proof.
  unfold multi_ratio, multi_evaluate_v, updateTempPosAndRs, pair_at. simpl.
  destruct (nth eiPair (EiList wk) _) as [elNum atNum] eqn:Hp.
  destruct (elNum =? -1)%Z eqn:He; simpl; rewrite Hp, He; done.
Qed.

(** Along the loop a walker keeps its pair list and its quadrature points. *)
Lemma pair_loop_frame (lo n k : nat) ms wks (m : Mover G NL) (wk : walker_work) :
  ms !! k = Some m -> wks !! k = Some wk ->
  exists wk', (for_from pair_step lo n (ms, wks)).1.2 !! k = Some wk' /\
              EiList wk' = EiList wk /\ rOnSphere wk' = rOnSphere wk.
Proof.
  intros Hm Hwk.
  apply (for_from_invariant
           (fun st => st.1 = ms /\ exists wk', st.2 !! k = Some wk' /\
                        EiList wk' = EiList wk /\ rOnSphere wk' = rOnSphere wk)).
  - intros i [ms1 wks1] _ (Hms & wk1 & Hwk1 & HE & HS). simpl in Hms. subst ms1.
    split; [done|]. eexists. split; [by apply pair_step_lookup|].
    by rewrite walker_pair_step_EiList, walker_pair_step_rOnSphere.
  - split; [done|]. by exists wk.
Qed.

(** C9 (amended): the pseudopotential loop runs the pair index from 0 up
    to the largest pair count over the walkers, for all walkers at once. A
    walker's pair list holds its pairs in the slots below its pair count
    and the sentinel electron index -1 from there on, and its ratio
    entries, one per quadrature point, start at 0.0. An iteration on one of
    its pairs puts the pair's electron on the sphere around the pair's
    ion and writes the ratios there into its entries. An iteration on a
    sentinel slot leaves its trial positions and its ratio entries as they
    are and only refills the orbital buffer from the positions that are
    there: its entries stay those of its last pair, and are the initial
    0.0 if it has no pair at all. *)
Theorem pair_loop_lockstep (locRmax : RealType) (nknots nels : nat) ms :
  let counts := EiPairs_of locRmax ms in
  let maxSize := max_pairs counts in
  let st0 := (ms, setup_work locRmax maxSize nknots nels <$> ms) in
  (nlpp_phase locRmax nknots nels ms).2 = EvFindPairs :: (EvNLPP <$> seq 0 maxSize) /\
  (nlpp_phase locRmax nknots nels ms).1 = (for_loop maxSize pair_step st0).1 /\
  (forall n, In n counts -> n <= maxSize) /\
  (ms <> [] -> In maxSize counts) /\
  (forall (k : nat) (m : Mover G NL), ms !! k = Some m ->
     let pairs := ei_pairs locRmax (els m) in
     let c := FindNumEiPairs locRmax (els m) in
     let wk0 := setup_work locRmax maxSize nknots nels m in
     c = length pairs /\ c <= maxSize /\
     ratios wk0 = replicate nknots 0%Q /\
     (forall eiPair, c <= eiPair < maxSize -> pair_at eiPair wk0 = ((-1)%Z, 0%Z)) /\
     (forall eiPair p, pairs !! eiPair = Some p -> pair_at eiPair wk0 = pair_slot p) /\
     (forall eiPair, eiPair < maxSize ->
        exists wk wk',
          (for_loop eiPair pair_step st0).1.2 !! k = Some wk /\
          (for_loop (S eiPair) pair_step st0).1.2 !! k = Some wk' /\
          match pairs !! eiPair with
          | Some p =>
              bigElPos wk' = sphere_position (els m) p.1 p.2 <$> rOnSphere wk0 /\
              tempPsiV wk' = evaluate <$> bigElPos wk' /\
              ratios wk' =
                (fun row => inner_product row (psiMinv (wavefunction m)) p.1)
                  <$> tempPsiV wk'
          | None =>
              bigElPos wk' = bigElPos wk /\ ratios wk' = ratios wk /\
              tempPsiV wk' = evaluate <$> bigElPos wk
          end) /\
     ratios <$> (for_loop maxSize pair_step st0).1.2 !! k =
       ratios <$> (for_loop c pair_step st0).1.2 !! k /\
     (c = 0 ->
      ratios <$> (for_loop maxSize pair_step st0).1.2 !! k
        = Some (replicate nknots 0%Q))).
Proof.
  intros counts maxSize st0.
  destruct (max_pairs_bound counts) as [Hmax Hin].
  split; [apply sync_nlpp_trace|]. split.
  { unfold nlpp_phase. fold counts. fold maxSize. fold st0.
    by destruct (for_loop maxSize pair_step st0). }
  split; [done|]. split.
  { intros Hne. apply Hin. subst counts. unfold EiPairs_of. by destruct ms. }
  intros k m Hk pairs c wk0.
  assert (Hlen : c = length pairs) by apply FindNumEiPairs_length.
  assert (Hc : c <= maxSize).
  { apply Hmax. subst counts c. unfold EiPairs_of.
    apply list_elem_of_In, list_elem_of_fmap. exists m. split; [done|].
    by eapply list_elem_of_lookup_2. }
  assert (Hsent : forall eiPair, c <= eiPair < maxSize ->
            pair_at eiPair wk0 = ((-1)%Z, 0%Z)).
  { intros i [Hci Hi]. unfold pair_at. subst wk0. simpl.
    destruct (SetupEiLists_lookup locRmax maxSize i (els m) Hi) as [Hs _].
    by rewrite (nth_lookup_Some _ _ _ _ (Hs Hci)). }
  assert (Hreal : forall eiPair p, pairs !! eiPair = Some p ->
            pair_at eiPair wk0 = pair_slot p).
  { intros i p Hp. assert (Hi : i < c).
    { rewrite Hlen. by eapply lookup_lt_Some. }
    unfold pair_at. subst wk0. simpl.
    destruct (SetupEiLists_lookup locRmax maxSize i (els m) ltac:(lia))
      as [_ Hs]. destruct (Hs Hi) as (q & Hq & Hl).
    change (pairs !! i = Some q) in Hq. rewrite Hp in Hq. injection Hq as <-.
    by rewrite (nth_lookup_Some _ _ _ _ Hl). }
  assert (Hwk0 : st0.2 !! k = Some wk0).
  { subst st0. simpl. by rewrite list_lookup_fmap, Hk. }
  assert (Hfinal : ratios <$> (for_loop maxSize pair_step st0).1.2 !! k =
                   ratios <$> (for_loop c pair_step st0).1.2 !! k).
  { unfold for_loop. replace maxSize with (c + (maxSize - c)) at 1 by lia.
    rewrite for_from_split. cbn [Nat.add].
    destruct (pair_loop_EiList 0 c k ms st0.2 m wk0 Hk Hwk0) as (wk1 & Hwk1 & HE).
    pose proof (pair_loop_movers 0 c ms st0.2) as Hms.
    change (ms, st0.2) with st0 in Hwk1, Hms.
    destruct (for_from pair_step 0 c st0) as [[ms1 wks1] t1]. cbn [fst snd] in *.
    subst ms1.
    destruct (pair_loop_sentinel c (maxSize - c) k ms wks1 m wk1 Hk Hwk1)
      as (wk2 & Hwk2 & HR).
    { intros i Hi. pose proof (Hsent i ltac:(lia)) as Hs.
      unfold pair_at in *. rewrite HE, Hs. done. }
    rewrite Hwk2, Hwk1. simpl. by rewrite HR. }
  split; [done|]. split; [done|]. split; [done|]. split; [done|].
  split; [done|]. split; [|split; [done|]].
  - intros i Hi.
    destruct (pair_loop_frame 0 i k ms st0.2 m wk0 Hk Hwk0) as (wk & Hwk & HE & HS).
    pose proof (pair_loop_movers 0 i ms st0.2) as Hms.
    change (ms, st0.2) with st0 in Hwk, Hms.
    exists wk, (multi_ratio i m (multi_evaluate_v (updateTempPosAndRs i m wk))).
    split; [exact Hwk|]. split.
    { unfold for_loop. rewrite for_from_snoc. cbn [Nat.add].
      destruct (for_from pair_step 0 i st0) as [[ms1 wks1] t1]. cbn [fst snd] in *.
      subst ms1. by apply pair_step_lookup. }
    destruct (pairs !! i) as [p|] eqn:Hp.
    + assert (Hat : pair_at i wk = pair_slot p).
      { unfold pair_at. rewrite HE. by apply Hreal. }
      destruct (walker_pair_step_real i m wk p Hat) as (_ & HB & HT & HR).
      rewrite HS in HB. done.
    + assert (Hat : (pair_at i wk).1 = (-1)%Z).
      { unfold pair_at. rewrite HE.
        change (nth i (EiList wk0) ((-1)%Z, 0%Z)) with (pair_at i wk0).
        rewrite Hsent; [done|]. apply lookup_ge_None in Hp. lia. }
      destruct (walker_pair_step_skip i m wk Hat) as (_ & HB & HR & HT). done.
  - intros Hz. rewrite Hfinal, Hz.
    change ((for_loop 0 pair_step st0).1.2) with st0.2. by rewrite Hwk0.
Qed.
End PairLoop.

(** * Further properties of the drivers *)

(** ** Whole runs *)

Section LoopTotals.
Context {St : Type}.
Implicit Types (body : nat -> St -> St * list Event).

(** A counter every iteration raises by the number of its events of a kind
    is raised by the loop by the number of such events of the loop. *)
Lemma for_from_counter (f : St -> nat) (p : Event -> bool) body (lo n : nat) (s : St) :
  (forall i s1, f (body i s1).1 = f s1 + count_event p (body i s1).2) ->
  f (for_from body lo n s).1 = f s + count_event p (for_from body lo n s).2.
Proof.
  intros Hstep. revert lo s. induction n as [|n IH]; intros lo s; simpl.
  - unfold count_event. simpl. lia.
  - specialize (Hstep lo s). destruct (body lo s) as [s1 t1].
    specialize (IH (S lo) s1). destruct (for_from body (S lo) n s1) as [s2 t2].
    simpl in *. rewrite count_event_app. lia.
Qed.

(** A component every iteration advances by [step] is advanced [n] times. *)
Lemma for_from_iter {A : Type} (g : St -> A) (step : A -> A) body (lo n : nat) (s : St) :
  (forall i s1, g (body i s1).1 = step (g s1)) ->
  g (for_from body lo n s).1 = Nat.iter n step (g s).
Proof.
  intros Hstep. revert lo s. induction n as [|n IH]; intros lo s; [done|].
  rewrite Nat.iter_succ_r, for_from_S.
  specialize (Hstep lo s). destruct (body lo s) as [s1 t1].
  specialize (IH (S lo) s1). destruct (for_from body (S lo) n s1) as [s2 t2].
  simpl in *. by rewrite IH, Hstep.
Qed.

(** A loop whose every iteration activates the electrons [l]. *)
Lemma for_from_activations_const (I : St -> Prop) (l : list nat) body
      (lo n : nat) (s : St) :
  (forall i s1, I s1 -> I (body i s1).1 /\ activations (body i s1).2 = l) ->
  I s -> activations (for_from body lo n s).2 = concat (replicate n l).
Proof.
  intros Hstep. revert lo s. induction n as [|n IH]; intros lo s Hs; [done|].
  rewrite for_from_S. destruct (Hstep lo s Hs) as [Hs1 Hact].
  destruct (body lo s) as [s1 t1].
  specialize (IH (S lo) s1 Hs1). destruct (for_from body (S lo) n s1) as [s2 t2].
  simpl in *. by rewrite activations_app, Hact, IH.
Qed.
(** A loop whose every iteration has at most [c] events of a kind has at
    most [n * c] of them. *)
Lemma for_from_count_le (p : Event -> bool) (c : nat) body (lo n : nat) (s : St) :
  (forall i s1, count_event p (body i s1).2 <= c) ->
  count_event p (for_from body lo n s).2 <= n * c.
Proof.
  intros Hstep. revert lo s. induction n as [|n IH]; intros lo s; [done|].
  rewrite for_from_S. specialize (Hstep lo s). destruct (body lo s) as [s1 t1].
  specialize (IH (S lo) s1). destruct (for_from body (S lo) n s1) as [s2 t2].
  simpl in *. rewrite count_event_app. lia.
Qed.
End LoopTotals.

Section CheckRun.
Context {G : Type} `{RandomStream G} `{FloatOps} `{Geometry} `{MatrixBackend}.
Import CheckDeterminant.

Lemma check_step_counter (acc : RealType) (ur delta : list RealType) (iel : nat)
      (s : state (G:=G)) :
  let r := electron_step acc ur delta iel s in
  my_accepted r.1 = my_accepted s + count_event is_accept r.2 /\
  random_th r.1 = random_th s.
Proof.
  destruct (check_step_cases acc ur delta iel s)
    as [(_ & ->)|[(_ & _ & ->)|(_ & _ & ->)]]; simpl; unfold count_event; simpl;
    (split; [lia|done]).
Qed.

(** In every trace of the check driver an accepted move follows the
    activation of its electron: there are no more of the former than of
    the latter. *)
Lemma check_step_accepts_bounded (acc : RealType) (ur delta : list RealType)
      (iel : nat) (s : state (G:=G)) :
  count_event is_accept (electron_step acc ur delta iel s).2 <= 1.
Proof.
  destruct (check_step_cases acc ur delta iel s)
    as [(_ & ->)|[(_ & _ & ->)|(_ & _ & ->)]]; unfold count_event; simpl; lia.
Qed.

Lemma check_substep_totals (acc : RealType) (ur : list RealType) (nels : nat)
      (s : state (G:=G)) :
  let r := substep acc ur nels s in
  my_accepted r.1 = my_accepted s + count_event is_accept r.2 /\
  random_th r.1 = after_normals (3 * nels) (random_th s) /\
  activations r.2 = seq 0 nels.
Proof.
  unfold substep, after_normals. destruct (generate_normal _ _) as [delta g].
  unfold for_loop. cbn [snd]. split; [|split].
  - apply (for_from_counter my_accepted is_accept
             (electron_step acc ur delta) 0 nels
             (mkState g (els s) (determinant_ref s) (determinant s) (my_accepted s))).
    intros i s1. apply check_step_counter.
  - apply (for_from_invariant (fun s1 => random_th s1 = g)); [|done].
    intros i s1 _ Hg. by destruct (check_step_counter acc ur delta i s1) as [_ ->].
  - apply (for_from_activations (fun _ => True)); [|done].
    intros i s1 _. split; [done|]. apply check_step_activations.
Qed.

Lemma check_mc_step_totals (acc : RealType) (ur : list RealType) (nels : nat)
      (nsub : Z) (s : state (G:=G)) :
  let r := mc_step acc ur nels nsub s in
  my_accepted r.1 = my_accepted s + count_event is_accept r.2 /\
  random_th r.1 = Nat.iter (Z.to_nat nsub) (after_normals (3 * nels)) (random_th s) /\
  activations r.2 = concat (replicate (Z.to_nat nsub) (seq 0 nels)).
Proof.
  unfold mc_step.
  set (s1 := mkState (random_th s) (els s) (recompute (determinant_ref s))
               (recompute (determinant s)) (my_accepted s)).
  pose proof (for_from_counter my_accepted is_accept
                (fun _ => substep acc ur nels) 0 (Z.to_nat nsub) s1
                (fun i s2 => proj1 (check_substep_totals acc ur nels s2))) as Hc.
  pose proof (for_from_iter random_th (after_normals (3 * nels))
                (fun _ => substep acc ur nels) 0 (Z.to_nat nsub) s1
                (fun i s2 => proj1 (proj2 (check_substep_totals acc ur nels s2)))) as Hg.
  pose proof (for_from_activations_const (fun _ => True) (seq 0 nels)
                (fun _ => substep acc ur nels) 0 (Z.to_nat nsub) s1
                (fun i s2 _ => conj I (proj2 (proj2 (check_substep_totals acc ur nels s2))))
                I) as Ha.
  unfold for_loop. destruct (for_from _ 0 (Z.to_nat nsub) s1) as [s2 t].
  cbn [fst snd my_accepted random_th] in *. split; [|split].
  - rewrite !count_event_app, Hc. subst s1. unfold count_event. simpl. lia.
  - done.
  - change ([EvRecompute; EvRecompute] ++ t ++ [EvDonePbyP])
      with ([EvRecompute; EvRecompute] ++ (t ++ [EvDonePbyP])).
    rewrite !activations_app, Ha. simpl. by rewrite app_nil_r.
Qed.

Lemma check_run_totals (nst nsub : Z) (s : state (G:=G)) :
  let nels := getTotalNum (els s) in
  let r := run nst nsub s in
  my_accepted r.1 = my_accepted s + count_event is_accept r.2 /\
  random_th r.1 =
    Nat.iter (Z.to_nat nst)
      (Nat.iter (Z.to_nat nsub) (after_normals (3 * nels)))
      (after_uniforms nels (random_th s)) /\
  activations r.2 = sweeps_order (Z.to_nat nst) (Z.to_nat nsub) nels.
Proof.
  intros nels r. subst r. unfold run, draw_ur, after_uniforms. fold nels.
  destruct (generate_uniform (random_th s) nels) as [ur g].
  set (s1 := mkState g (els s) (determinant_ref s) (determinant s) (my_accepted s)).
  unfold for_loop. split; [|split].
  - apply (for_from_counter my_accepted is_accept
             (fun _ => mc_step accept ur nels nsub) 0 (Z.to_nat nst) s1).
    intros i s2. apply check_mc_step_totals.
  - apply (for_from_iter random_th
             (Nat.iter (Z.to_nat nsub) (after_normals (3 * nels)))
             (fun _ => mc_step accept ur nels nsub) 0 (Z.to_nat nst) s1).
    intros i s2. apply check_mc_step_totals.
  - apply (for_from_activations_const (fun _ => True)); [|done].
    intros i s2 _. split; [done|]. apply check_mc_step_totals.
Qed.

(** X3: in the check driver [my_accepted] counts the accepted moves: at
    the end of the run it has grown by the number of moves the run
    accepted, which is at most one per electron, substep and step. *)
Theorem check_counts_accepted_moves (nst nsub : Z) (s : state (G:=G)) :
  let r := run nst nsub s in
  my_accepted r.1 = my_accepted s + count_event is_accept r.2 /\
  count_event is_accept r.2 <= Z.to_nat nst * (Z.to_nat nsub * getTotalNum (els s)).
Proof.
  intros r. split; [apply check_run_totals|]. subst r.
  unfold run. destruct (draw_ur s) as [ur s1]. unfold for_loop.
  apply for_from_count_le. intros i s2. unfold mc_step.
  unfold for_loop.
  destruct (for_from _ 0 (Z.to_nat nsub) _) as [s3 t] eqn:Hl. cbn [snd].
  rewrite !count_event_app.
  assert (Ht : count_event is_accept t <= Z.to_nat nsub * getTotalNum (els s)).
  { replace t with (for_from (fun _ => substep accept ur (getTotalNum (els s))) 0
                      (Z.to_nat nsub)
                      (mkState (random_th s2) (els s2) (recompute (determinant_ref s2))
                         (recompute (determinant s2)) (my_accepted s2))).2
      by (by rewrite Hl).
    apply for_from_count_le. intros j s4. unfold substep.
    destruct (generate_normal _ _) as [delta g]. unfold for_loop.
    replace (getTotalNum (els s)) with (getTotalNum (els s) * 1) at 2 by lia.
    apply for_from_count_le. intros k s5. apply check_step_accepts_bounded. }
  unfold count_event at 1 3. simpl. lia.
Qed.

(** X4: the check driver reads its generator for [nels] uniforms once,
    before the loop, and for [3 nels] normals at the start of every
    substep, whatever the proposals and their verdicts were: the stream it
    leaves behind is the one after these draws. *)
Theorem check_stream_consumption (nst nsub : Z) (s : state (G:=G)) :
  let nels := getTotalNum (els s) in
  random_th (run nst nsub s).1 =
    Nat.iter (Z.to_nat nst)
      (Nat.iter (Z.to_nat nsub) (after_normals (3 * nels)))
      (after_uniforms nels (random_th s)).
Proof. intros nels. apply check_run_totals. Qed.
End CheckRun.

Section SyncRun.
Context {G NL C : Type} `{RandomStream G} `{FloatOps} `{Geometry}
        `{MatrixBackend} `{Quadrature NL} `{CrowdOps C}.
Import SyncMove.
Implicit Types (ms : list (Mover G NL)).

Lemma sync_step_walker_stream (acc : RealType) (iel k : nat)
      (m0 : Mover G NL) (rest : list (Mover G NL)) (m : Mover G NL) :
  (m0 :: rest) !! k = Some m ->
  rng <$> (electron_step acc iel (m0 :: rest)).1 !! k =
  Some (if k is 0 then after_batch_draws (S (length rest)) (rng m0) else rng m).
Proof.
  intros Hk. destruct (sync_proposed_lookup iel k m0 rest m Hk) as [_ Hv].
  assert (Hp : rng (sync_propose iel (sync_rng m0 rest) (sync_delta m0 rest) k m)
               = if k is 0 then after_batch_draws (S (length rest)) (rng m0)
                 else rng m).
  { unfold sync_propose. by destruct k. }
  destruct (makeMoveAndCheck iel _ (setActive iel (els m))).2 eqn:Hok.
  - apply filtered_list_position in Hv as [j Hj].
    rewrite (sync_valid_lookup acc iel j k m0 rest m Hk Hj). simpl. by rewrite <- Hp.
  - rewrite (sync_invalid_lookup acc iel k m0 rest m Hk Hv). simpl. by rewrite <- Hp.
Qed.

Lemma sync_step_streams (acc : RealType) (iel : nat) ms :
  rng <$> (electron_step acc iel ms).1 = batch_draws (rng <$> ms).
Proof.
  destruct ms as [|m0 rest]; [done|]. apply list_eq. intros k.
  rewrite list_lookup_fmap.
  destruct ((m0 :: rest) !! k) as [m|] eqn:Hk.
  - rewrite (sync_step_walker_stream acc iel k m0 rest m Hk).
    destruct k as [|k]; simpl in *.
    + by rewrite length_fmap.
    + by rewrite list_lookup_fmap, Hk.
  - apply lookup_ge_None in Hk.
    assert (Hlen := sync_step_length acc iel (m0 :: rest)).
    rewrite (proj2 (lookup_ge_None _ k)) by lia. simpl. symmetry.
    apply lookup_ge_None. simpl in *. rewrite length_fmap. lia.
Qed.

Lemma sync_mc_step_movers (acc locRmax : RealType) (nsub : Z) (nels nknots : nat) ms :
  (mc_step acc locRmax nsub nels nknots ms).1 =
  multi_evaluateGL
    (multi_donePbyP (for_loop (Z.to_nat nsub) (fun _ => sweep acc nels) ms).1).
Proof.
  unfold mc_step. destruct (for_loop _ _ ms) as [ms1 t1]. simpl.
  unfold nlpp_phase, for_loop.
  pose proof (pair_loop_movers 0
    (max_pairs (EiPairs_of locRmax (multi_evaluateGL (multi_donePbyP ms1))))
    (multi_evaluateGL (multi_donePbyP ms1))
    (setup_work locRmax
       (max_pairs (EiPairs_of locRmax (multi_evaluateGL (multi_donePbyP ms1))))
       nknots nels <$> multi_evaluateGL (multi_donePbyP ms1))) as Hm.
  by destruct (for_from _ _ _ _) as [[ms3 wks] t].
Qed.

Lemma sync_mc_step_totals (acc locRmax : RealType) (nsub : Z) (nels nknots : nat) ms :
  let r := mc_step acc locRmax nsub nels nknots ms in
  length r.1 = length ms /\
  rng <$> r.1 = Nat.iter (Z.to_nat nsub) (Nat.iter nels batch_draws) (rng <$> ms) /\
  (ms <> [] -> activations r.2 = concat (replicate (Z.to_nat nsub) (seq 0 nels))).
Proof.
  intros r.
  assert (Hsweep : forall ms1 : list (Mover G NL),
    let q := sweep acc nels ms1 in
    length q.1 = length ms1 /\
    rng <$> q.1 = Nat.iter nels batch_draws (rng <$> ms1) /\
    (ms1 <> [] -> activations q.2 = seq 0 nels)).
  { intros ms1 q. subst q. unfold sweep, for_loop. split; [|split].
    - apply (for_from_invariant (fun l => length l = length ms1)); [|done].
      intros i l _ Hl. by rewrite sync_step_length.
    - apply (for_from_iter (fmap rng) batch_draws). intros i l.
      apply sync_step_streams.
    - intros Hne.
      apply (for_from_activations (fun l => length l = length ms1)); [|done].
      intros i l Hl. split; [by rewrite sync_step_length|].
      destruct l as [|m1 l]; [by destruct ms1|]. apply sync_step_activations. }
  assert (Hloop : let q := for_loop (Z.to_nat nsub) (fun _ => sweep acc nels) ms in
    length q.1 = length ms /\
    rng <$> q.1 = Nat.iter (Z.to_nat nsub) (Nat.iter nels batch_draws) (rng <$> ms) /\
    (ms <> [] -> activations q.2 = concat (replicate (Z.to_nat nsub) (seq 0 nels)))).
  { unfold for_loop. split; [|split].
    - apply (for_from_invariant (fun l => length l = length ms)); [|done].
      intros i l _ Hl. by rewrite (proj1 (Hsweep l)).
    - apply (for_from_iter (fmap rng) (Nat.iter nels batch_draws)).
      intros i l. apply Hsweep.
    - intros Hne.
      apply (for_from_activations_const (fun l => length l = length ms)); [|done].
      intros i l Hl. split; [by rewrite (proj1 (Hsweep l))|].
      apply Hsweep. intros ->. by destruct ms. }
  destruct Hloop as (Hlen & Hrng & Hact).
  split; [|split].
  - subst r. rewrite sync_mc_step_movers. unfold multi_evaluateGL, multi_donePbyP.
    by rewrite length_fmap.
  - subst r. rewrite sync_mc_step_movers. unfold multi_evaluateGL, multi_donePbyP.
    rewrite <- Hrng, <- list_fmap_compose. by apply list_fmap_ext.
  - intros Hne. specialize (Hact Hne). subst r. unfold mc_step.
    destruct (for_loop _ _ ms) as [ms1 t1]. cbn [snd] in Hact.
    pose proof (sync_nlpp_trace locRmax nknots nels
                  (multi_evaluateGL (multi_donePbyP ms1))) as Hn.
    destruct (nlpp_phase _ _ _ _) as [[ms3 wks] t2]. cbn [snd] in *.
    rewrite !activations_app, Hact, Hn.
    rewrite (activations_none (EvFindPairs :: _)).
    + simpl. by rewrite app_nil_r.
    + intros e i [<-|He]; [done|].
      apply list_elem_of_In, list_elem_of_fmap in He as (j & -> & _). done.
Qed.

(** X5: over a whole run the batched driver draws from walker 0's stream
    only: every electron step of every substep of every step takes K
    uniforms and then 3K normals from it, whatever the verdicts were, and
    the streams of the other walkers end as they began. The run returns,
    and the number of walkers is the one it started with. *)
Theorem sync_run_streams (acc locRmax : RealType) (nst nsub : Z)
        (m0 : Mover G NL) (rest : list (Mover G NL)) :
  let K := S (length rest) in
  let nels := getTotalNum (els m0) in
  exists ms' tr,
    run acc locRmax nst nsub (m0 :: rest) = Some (ms', tr) /\
    length ms' = K /\
    rng <$> ms' =
      Nat.iter (Z.to_nat nst * (Z.to_nat nsub * nels)) (after_batch_draws K) (rng m0)
        :: (rng <$> rest).
Proof.
  intros K nels. unfold run. fold nels.
  set (body := fun _ : nat => mc_step acc locRmax nsub nels (nlpp_size (nlpp m0))).
  exists (for_loop (Z.to_nat nst) body (m0 :: rest)).1,
         (for_loop (Z.to_nat nst) body (m0 :: rest)).2.
  split; [by destruct (for_loop _ _ _)|]. unfold for_loop. split.
  - apply (for_from_invariant (fun l => length l = K)); [|done].
    intros i l _ Hl. subst body. cbv beta.
    by rewrite (proj1 (sync_mc_step_totals acc locRmax nsub nels _ l)).
  - rewrite (for_from_iter (fmap rng)
               (Nat.iter (Z.to_nat nsub) (Nat.iter nels batch_draws)) body).
    2: { intros i l. subst body. apply sync_mc_step_totals. }
    assert (Hiter : forall n g, Nat.iter n batch_draws (g :: (rng <$> rest))
                      = Nat.iter n (after_batch_draws K) g :: (rng <$> rest)).
    { induction n as [|n IH]; intros g; [done|]. simpl. rewrite IH. simpl.
      by rewrite length_fmap. }
    assert (Hnest : forall a b g,
              Nat.iter a (Nat.iter b batch_draws) (g :: (rng <$> rest))
              = Nat.iter (a * b) (after_batch_draws K) g :: (rng <$> rest)).
    { induction a as [|a IH]; intros b g; [done|]. simpl.
      rewrite IH, Hiter. f_equal. symmetry. apply Nat.iter_add. }
    simpl fmap.
    assert (Hinner : forall a g,
              Nat.iter a (Nat.iter (Z.to_nat nsub) (Nat.iter nels batch_draws))
                (g :: (rng <$> rest))
              = Nat.iter (a * (Z.to_nat nsub * nels)) (after_batch_draws K) g
                  :: (rng <$> rest)).
    { induction a as [|a IH]; intros g; [done|]. simpl.
      rewrite IH, Hnest. f_equal. symmetry. apply Nat.iter_add. }
    apply Hinner.
Qed.

Lemma crowd_substep_activations (acc : RealType) (nels : nat) (s : C * nat) :
  activations (CrowdDriver.substep acc nels s).2 = seq 0 nels.
Proof.
  unfold CrowdDriver.substep. destruct s as [c n].
  pose proof (for_from_activations (fun _ => True) (CrowdDriver.electron_step acc)
                0 nels (fillRandoms c, n)) as Ha.
  unfold for_loop. destruct (for_from _ _ _ _) as [s1 t]. cbn [snd] in *.
  change (EvFillRandoms :: t) with ([EvFillRandoms] ++ t).
  rewrite activations_app. simpl. apply Ha; [|done].
  intros i s2 _. split; [done|]. by rewrite crowd_step_trace.
Qed.

(** X6: over a whole run each of the three drivers makes the electrons
    active in the order 0 .. nels-1, once per substep, substep after
    substep and step after step; with a step count that is zero or
    negative no electron is made active at all. *)
Theorem run_activation_order (acc locRmax : RealType) (nst nsub : Z) :
  (forall (s : CheckDeterminant.state (G:=G)),
     activations (CheckDeterminant.run nst nsub s).2 =
     sweeps_order (Z.to_nat nst) (Z.to_nat nsub)
       (getTotalNum (CheckDeterminant.els s))) /\
  (forall (m0 : Mover G NL) (rest : list (Mover G NL)),
     activations <$> (snd <$> run acc locRmax nst nsub (m0 :: rest)) =
     Some (sweeps_order (Z.to_nat nst) (Z.to_nat nsub) (getTotalNum (els m0)))) /\
  (forall (nels nions : nat) (movers : C),
     activations
       (CrowdDriver.movers_thread_main acc locRmax nst nsub nels nions movers).2 =
     sweeps_order (Z.to_nat nst) (Z.to_nat nsub) nels).
Proof.
  split; [|split].
  - intros s. apply check_run_totals.
  - intros m0 rest. unfold run. simpl. f_equal. unfold for_loop.
    apply (for_from_activations_const (fun l => length l = S (length rest))); [|done].
    intros i l Hl.
    destruct (sync_mc_step_totals acc locRmax nsub (getTotalNum (els m0))
                (nlpp_size (nlpp m0)) l) as (Hlen & _ & Hact).
    split; [congruence|]. apply Hact. intros ->. done.
  - intros nels nions movers. unfold CrowdDriver.movers_thread_main, for_loop.
    apply (for_from_activations_const (fun _ => True)); [|done].
    intros i s _. split; [done|]. unfold CrowdDriver.mc_step.
    pose proof (for_from_activations_const (fun _ => True) (seq 0 nels)
                  (fun _ => CrowdDriver.substep acc nels) 0 (Z.to_nat nsub) s
                  (fun j s1 _ => conj I (crowd_substep_activations acc nels s1)) I)
      as Ha.
    unfold for_loop. destruct (for_from _ _ _ s) as [[c1 n1] t]. cbn [snd] in *.
    rewrite activations_app, Ha. simpl. by rewrite app_nil_r.
Qed.
End SyncRun.

Section ValidRank.
Import SyncMove.

Lemma filtered_from_app (i : nat) (l1 l2 : list bool) :
  filtered_from i (l1 ++ l2) =
  filtered_from i l1 ++ filtered_from (i + length l1) l2.
Proof.
  revert i. induction l1 as [|b l1 IH]; intros i; simpl.
  - by rewrite Nat.add_0_r.
  - rewrite IH. replace (S i + length l1) with (i + S (length l1)) by lia.
    by destruct b.
Qed.

Lemma filtered_from_length (i : nat) (l : list bool) :
  length (filtered_from i l) = length (List.filter id l).
Proof.
  revert i. induction l as [|b l IH]; intros i; [done|]. simpl.
  destruct b; simpl; by rewrite IH.
Qed.

(** A valid walker sits in the valid list at the number of valid walkers
    before it. *)
Lemma filtered_list_rank (bs : list bool) (w : nat) :
  bs !! w = Some true -> filtered_list bs !! valid_before bs w = Some w.
Proof.
  intros Hw. unfold filtered_list, valid_before.
  assert (Hmid : forall l1 l2 : list bool,
            filtered_from 0 (l1 ++ true :: l2) !! length (List.filter id l1)
            = Some (length l1)).
  { intros l1 l2. rewrite filtered_from_app. simpl.
    rewrite <- (filtered_from_length 0 l1).
    rewrite lookup_app_r by lia. by rewrite Nat.sub_diag. }
  specialize (Hmid (take w bs) (drop (S w) bs)).
  rewrite (take_drop_middle bs w true Hw) in Hmid. rewrite Hmid. f_equal.
  rewrite length_take. apply lookup_lt_Some in Hw. lia.
Qed.

Lemma valid_before_le (bs : list bool) (w : nat) :
  valid_before bs w <= w /\
  (valid_before bs w = w <-> forall j, j < w -> bs !! j = Some true).
Proof.
  unfold valid_before. revert w. induction bs as [|b bs IH]; intros w.
  - rewrite take_nil. simpl. split; [lia|]. split.
    + intros <- j Hj. lia.
    + intros Hall. destruct w as [|w]; [done|]. by specialize (Hall 0 ltac:(lia)).
  - destruct w as [|w]; simpl.
    + split; [lia|]. split; [intros _ j Hj; lia|done].
    + destruct (IH w) as [Hle Hiff]. destruct b; simpl.
      * split; [lia|]. split.
        -- intros Hc j Hj. destruct j as [|j]; [done|]. simpl.
           apply Hiff; lia.
        -- intros Hall. f_equal. apply Hiff. intros j Hj.
           apply (Hall (S j)). lia.
      * split; [lia|]. split; [lia|].
        intros Hall. by specialize (Hall 0 ltac:(lia)).
Qed.
End ValidRank.

Section BatchedTest.
Context {G NL : Type} `{RandomStream G} `{FloatOps} `{Geometry}
        `{MatrixBackend} `{Quadrature NL}.
Import SyncMove.

(** X7: in an electron step of the batched driver a walker [w] whose
    proposal is valid is tested against the entry of [ur] whose index is
    the number of valid walkers before it, and against no other; the move
    is accepted exactly when that entry is below the threshold. That index
    is at most [w], and it is [w] exactly when every walker before [w] is
    valid too. *)
Theorem batched_test_reads_valid_rank (acc : RealType) (iel w : nat)
        (m0 : Mover G NL) (rest : list (Mover G NL)) :
  let isValid := (sync_proposed iel m0 rest).2 in
  let c := valid_before isValid w in
  let u := nth c (sync_ur m0 rest) 0%Q in
  let tr := (electron_step acc iel (m0 :: rest)).2 in
  isValid !! w = Some true ->
  In (EvTest w iel u (real_lt u acc)) tr /\
  (forall u' b, In (EvTest w iel u' b) tr -> u' = u /\ b = real_lt u acc) /\
  (In (EvAccept w iel) tr <-> real_lt u acc = true) /\
  (In (EvReject w iel) tr <-> real_lt u acc = false) /\
  c <= w /\
  (c = w <-> forall j, j < w -> isValid !! j = Some true).
Proof.
  intros isValid c u tr Hw.
  pose proof (filtered_list_rank isValid w Hw) as Hc.
  change (filtered_list isValid) with (sync_valid iel m0 rest) in Hc. fold c in Hc.
  destruct (sync_step_valid_events acc iel c w m0 rest Hc) as (_ & Ht & _ & Hp).
  fold u in Ht, Hp. fold tr in Ht, Hp.
  assert (Hinj : forall j, sync_valid iel m0 rest !! j = Some w -> j = c).
  { intros j Hj. by eapply filtered_list_inj. }
  split; [done|]. split.
  { intros u' b (_ & j & Hj & -> & ->)%sync_step_events.
    by rewrite (Hinj j Hj). }
  split; [|split].
  - split.
    + intros (_ & j & Hj & Hu)%sync_step_events. by rewrite (Hinj j Hj) in Hu.
    + intros Hu. by rewrite Hu in Hp.
  - split.
    + intros (_ & j & Hj & Hu)%sync_step_events. by rewrite (Hinj j Hj) in Hu.
    + intros Hu. by rewrite Hu in Hp.
  - apply valid_before_le.
Qed.
End BatchedTest.

Section PairListContents.
Import SyncMove.

Lemma filter_NoDup {A : Type} (p : A -> bool) (l : list A) :
  NoDup l -> NoDup (List.filter p l).
Proof.
  induction 1 as [|x l Hx _ IH]; simpl; [constructor|].
  destruct (p x); [|done]. constructor; [|done].
  intros Hin%list_elem_of_In%filter_In. apply Hx, list_elem_of_In, Hin.
Qed.

Lemma ei_pairs_In (locRmax : RealType) (P : ParticleSet) (el at' : nat) :
  In (el, at') (ei_pairs locRmax P) <->
  el < length (R P) /\ at' < dist_extent1 P /\
  real_lt (dist_at P el at') locRmax = true.
Proof.
  unfold ei_pairs. rewrite in_flat_map. split.
  - intros (x & Hx%in_seq & Hin%list_elem_of_In%list_elem_of_fmap).
    destruct Hin as (y & [= -> ->] & Hy%list_elem_of_In%filter_In).
    destruct Hy as [Hy%in_seq Hd]. repeat split; [lia|lia|done].
  - intros (Hel & Hat & Hd). exists el. split; [apply in_seq; lia|].
    apply list_elem_of_In, list_elem_of_fmap. exists at'. split; [done|].
    apply list_elem_of_In, filter_In. split; [apply in_seq; lia|done].
Qed.

Lemma ei_pairs_NoDup (locRmax : RealType) (P : ParticleSet) :
  NoDup (ei_pairs locRmax P).
Proof.
  unfold ei_pairs. generalize (NoDup_seq 0 (length (R P))).
  generalize (seq 0 (length (R P))) as es.
  induction es as [|el es IH]; intros Hnd; simpl; [constructor|].
  apply NoDup_cons in Hnd as [Hel Hnd]. apply NoDup_app. split; [|split].
  - apply (NoDup_fmap_2 _). apply filter_NoDup, NoDup_seq.
  - intros [x y] (z & [= -> ->] & _)%list_elem_of_fmap Hin.
    apply list_elem_of_In, in_flat_map in Hin as (x' & Hx' & Hin).
    apply list_elem_of_In, list_elem_of_fmap in Hin as (y' & [= <- _] & _).
    apply Hel, list_elem_of_In, Hx'.
  - by apply IH.
Qed.

Context {G NL : Type} `{RandomStream G} `{FloatOps} `{Geometry}
        `{MatrixBackend} `{Quadrature NL}.

(** X8: the pair list set up for a walker of the batch holds every
    electron-ion pair of that walker that lies within the cutoff, each
    once and in the order of the double loop, followed by sentinel slots
    up to the largest pair count of the batch; no pair is lost to a write
    past the end of the list. The number of pairs is the count of
    "FindNumEiPairs". *)
Theorem pair_lists_hold_all_pairs (locRmax : RealType) (nknots nels : nat)
        (ms : list (Mover G NL)) (m : Mover G NL) :
  let maxSize := max_pairs (EiPairs_of locRmax ms) in
  let pairs := ei_pairs locRmax (els m) in
  m ∈ ms ->
  EiList (setup_work locRmax maxSize nknots nels m) =
    (pair_slot <$> pairs) ++ replicate (maxSize - length pairs) ((-1)%Z, 0%Z) /\
  length pairs = FindNumEiPairs locRmax (els m) /\
  length pairs <= maxSize /\
  NoDup pairs /\
  (forall el at', In (el, at') pairs <->
     el < length (R (els m)) /\ at' < dist_extent1 (els m) /\
     real_lt (dist_at (els m) el at') locRmax = true).
Proof.
  intros maxSize pairs Hm.
  assert (Hlen : length pairs = FindNumEiPairs locRmax (els m)).
  { symmetry. apply FindNumEiPairs_length. }
  assert (Hle : length pairs <= maxSize).
  { rewrite Hlen. apply max_pairs_bound. unfold EiPairs_of.
    apply list_elem_of_In, list_elem_of_fmap. by exists m. }
  split; [|split; [done|split; [done|split]]].
  - simpl. apply list_eq. intros i.
    destruct (decide (i < maxSize)) as [Hi|Hi].
    + destruct (SetupEiLists_lookup locRmax maxSize i (els m) Hi) as [Hs Hp].
      rewrite <- Hlen in Hs, Hp. destruct (decide (i < length pairs)) as [Hip|Hip].
      * destruct (Hp Hip) as (p & Hpi & ->). change (pairs !! i = Some p) in Hpi.
        rewrite lookup_app_l by (by rewrite length_fmap).
        by rewrite list_lookup_fmap, Hpi.
      * rewrite Hs by lia. rewrite lookup_app_r by (rewrite length_fmap; lia).
        symmetry. apply lookup_replicate_2. rewrite length_fmap. lia.
    + rewrite (proj2 (lookup_ge_None _ i)).
      2: { rewrite SetupEiLists_length. lia. }
      symmetry. apply lookup_ge_None.
      rewrite length_app, length_fmap, length_replicate. lia.
  - apply ei_pairs_NoDup.
  - intros el at'. apply ei_pairs_In.
Qed.
End PairListContents.

Section CrowdTotals.
Context {C : Type} `{CrowdOps C}.

(** A counter every iteration raises by at most [c] is raised by at most
    [n * c] by the loop, and never lowered if no iteration lowers it. *)
Lemma for_from_bounded {St : Type} (f : St -> nat) (c : nat)
      (body : nat -> St -> St * list Event) (lo n : nat) (s : St) :
  (forall i s1, f s1 <= f (body i s1).1 <= f s1 + c) ->
  f s <= f (for_from body lo n s).1 <= f s + n * c.
Proof.
  intros Hstep. revert lo s. induction n as [|n IH]; intros lo s; [simpl; lia|].
  rewrite for_from_S. specialize (Hstep lo s). destruct (body lo s) as [s1 t1].
  specialize (IH (S lo) s1). destruct (for_from body (S lo) n s1) as [s2 t2].
  simpl in *. lia.
Qed.

(** X9: if no call of [acceptRestoreMoves] reports more than [B] accepted
    moves, the count of accepted moves that [movers_thread_main] keeps
    ends at no more than [B] for each electron of each substep of each
    step. *)
Theorem crowd_accepts_bounded (acc locRmax : RealType) (nst nsub : Z)
        (nels nions B : nat) (movers : C) :
  (forall iel c, (acceptRestoreMoves iel acc c).2 <= B) ->
  (CrowdDriver.movers_thread_main acc locRmax nst nsub nels nions movers).1.2
    <= Z.to_nat nst * (Z.to_nat nsub * (nels * B)).
Proof.
  intros HB.
  assert (Hstep : forall iel (s : C * nat),
            s.2 <= (CrowdDriver.electron_step acc iel s).1.2 <= s.2 + B).
  { intros iel [c n]. unfold CrowdDriver.electron_step.
    specialize (HB iel (finishUpdate iel (evaluateHessian iel (evaluateRatioGrad iel
                  (constructTrialMoves iel (evaluateGrad iel (crowd_setActive iel c))))))).
    destruct (acceptRestoreMoves iel acc _) as [c7 k]. simpl in *. lia. }
  assert (Hsub : forall (s : C * nat),
            s.2 <= (CrowdDriver.substep acc nels s).1.2 <= s.2 + nels * B).
  { intros [c n]. unfold CrowdDriver.substep, for_loop.
    pose proof (for_from_bounded snd B (CrowdDriver.electron_step acc) 0 nels
                  (fillRandoms c, n) (fun i s1 => Hstep i s1)) as Hb.
    destruct (for_from _ _ _ _) as [s1 t]. simpl in *. lia. }
  assert (Hmc : forall (s : C * nat),
            s.2 <= (CrowdDriver.mc_step acc locRmax nsub nels nions s).1.2
                <= s.2 + Z.to_nat nsub * (nels * B)).
  { intros s. unfold CrowdDriver.mc_step, for_loop.
    pose proof (for_from_bounded snd (nels * B)
                  (fun _ => CrowdDriver.substep acc nels) 0 (Z.to_nat nsub) s
                  (fun _ s1 => Hsub s1)) as Hb.
    destruct (for_from _ _ _ s) as [[c1 n1] t]. simpl in *. lia. }
  unfold CrowdDriver.movers_thread_main, for_loop.
  pose proof (for_from_bounded snd (Z.to_nat nsub * (nels * B))
                (fun _ => CrowdDriver.mc_step acc locRmax nsub nels nions) 0
                (Z.to_nat nst) (movers, 0) (fun _ s1 => Hmc s1)) as Hb.
  simpl in Hb. lia.
Qed.
End CrowdTotals.

Section Tiles.

(** X10: for a system of at least two electrons the batched driver
    reports a positive tile size, the value of -a if that is positive and
    the number of orbitals otherwise, and as many tiles as fit into the
    orbitals: one tile without a positive -a, none when the tile size
    exceeds the number of orbitals, and the orbitals are covered exactly
    only when the tile size divides their number. The division is by zero
    exactly when there is no positive -a and no orbital. *)
Theorem tiles_fit_into_orbitals (tileSize nels : Z) :
  let norb := (nels ÷ 2)%Z in
  (tile_setup tileSize nels = None <-> (tileSize <= 0)%Z /\ norb = 0%Z) /\
  ((2 <= nels)%Z ->
   exists ts nTiles : Z,
     tile_setup tileSize nels = Some (ts, nTiles) /\
     ts = (if (0 <? tileSize)%Z then tileSize else norb) /\
     (0 < ts)%Z /\
     (nTiles * ts <= norb < (nTiles + 1) * ts)%Z /\
     ((tileSize <= 0)%Z -> nTiles = 1%Z) /\
     ((norb < tileSize)%Z -> nTiles = 0%Z) /\
     ((nTiles * ts)%Z = norb <-> (norb mod ts)%Z = 0%Z)).
Proof.
  intros norb. unfold tile_setup. fold norb. split.
  - destruct (Z.ltb_spec 0 tileSize) as [Hpos|Hneg].
    + destruct (Z.eqb_spec tileSize 0) as [->|Hne]; [lia|]. split; [done|lia].
    + destruct (Z.eqb_spec norb 0) as [Hz|Hnz]; [by split|]. split; [done|lia].
  - intros Hn.
    assert (Hnorb : (1 <= norb)%Z).
    { subst norb. rewrite Z.quot_div_nonneg by lia.
      apply Z.div_le_lower_bound; lia. }
    set (ts := if (0 <? tileSize)%Z then tileSize else norb).
    assert (Hts : (0 < ts)%Z).
    { subst ts. destruct (Z.ltb_spec 0 tileSize); lia. }
    exists ts, (norb ÷ ts)%Z.
    destruct (Z.eqb_spec ts 0) as [Hz|_]; [lia|].
    rewrite (Z.quot_div_nonneg norb ts) by lia.
    pose proof (Z.div_mod norb ts ltac:(lia)) as Hdm.
    pose proof (Z.mod_pos_bound norb ts Hts) as Hmod.
    split; [done|]. split; [done|]. split; [done|]. split; [nia|]. split.
    { intros Hle. subst ts. destruct (Z.ltb_spec 0 tileSize); [lia|].
      apply Z.div_same. lia. }
    split.
    { intros Hlt. subst ts. destruct (Z.ltb_spec 0 tileSize); [|lia].
      apply Z.div_small. lia. }
    split; nia.
Qed.
End Tiles.

(** ** The option loops *)

Section OptionLoops.
Context {G NL : Type} `{RandomStream G} `{FloatOps} `{Geometry}
        `{MatrixBackend} `{Quadrature NL}.

Lemma check_parse_closed (args : list CheckDeterminant.opt)
      (o : CheckDeterminant.options) :
  CheckDeterminant.parse_options args o =
  if existsb check_opt_exits args then None
  else
    Some (CheckDeterminant.mkOptions
            (last_value check_pick_na (CheckDeterminant.na o) args)
            (last_value check_pick_nb (CheckDeterminant.nb o) args)
            (last_value check_pick_nc (CheckDeterminant.nc o) args)
            (last_value check_pick_n (CheckDeterminant.nsteps o) args)
            (last_value check_pick_s (CheckDeterminant.iseed o) args)
            (last_value check_pick_N (CheckDeterminant.nsubsteps o) args)
            (last_value check_pick_v (CheckDeterminant.verbose o) args)).
Proof.
  revert o. induction args as [|a args IH]; intros o; [by destruct o|].
  destruct a as [ns| | | | | | | | |]; simpl; try done; try (by rewrite IH).
  destruct ns as [|x [|y [|z ns]]]; simpl; by rewrite IH.
Qed.

(** X1: whatever the calls of getopt return to the check driver, the
    process ends with status 1 before the run exactly when one of the
    returns is -h, -V, -r, an unknown option or a non-option argument;
    otherwise it runs with the step counts of the last -n and -N (5 and 1
    without them) on the system built from the tiling, each of whose three
    numbers is the one the last -g that converted it assigned (1 without
    one). The seed of -s and the verbosity do not enter. *)
Theorem check_main_closed_form
        (setup : Z -> Z -> Z -> CheckDeterminant.state (G:=G))
        (args : list CheckDeterminant.opt) :
  CheckDeterminant.main setup args =
  if existsb check_opt_exits args then None
  else
    Some (CheckDeterminant.run (last_value check_pick_n 5%Z args)
            (last_value check_pick_N 1%Z args)
            (setup (last_value check_pick_na 1%Z args)
                   (last_value check_pick_nb 1%Z args)
                   (last_value check_pick_nc 1%Z args))).
Proof.
  unfold CheckDeterminant.main. rewrite check_parse_closed.
  by destruct (existsb check_opt_exits args).
Qed.

Lemma options_before_stop_all (args : list SyncMove.opt) :
  List.find sync_opt_stops args = None -> options_before_stop args = args.
Proof.
  induction args as [|a args IH]; [done|]. simpl.
  destruct (sync_opt_stops a); [done|]. intros Hf. by rewrite IH.
Qed.

Lemma sync_parse_closed (args : list SyncMove.opt) (o : SyncMove.options) :
  SyncMove.parse_options args o =
  let read := options_before_stop args in
  match mesh_after read (SyncMove.nx o), mesh_after read (SyncMove.ny o),
        mesh_after read (SyncMove.nz o) with
  | Some x, Some y, Some z =>
      match List.find sync_opt_stops args with
      | Some a => if sync_opt_exits a then SyncMove.Returns1 else SyncMove.NeverEnds
      | None =>
          SyncMove.Proceeds
            (SyncMove.mkOptions
               (last_value sync_pick_na (SyncMove.na o) args)
               (last_value sync_pick_nb (SyncMove.nb o) args)
               (last_value sync_pick_nc (SyncMove.nc o) args)
               (last_value sync_pick_n (SyncMove.nsteps o) args)
               (last_value sync_pick_s (SyncMove.iseed o) args)
               x y z
               (last_value sync_pick_w (SyncMove.nmovers o) args)
               (last_value sync_pick_a (SyncMove.tileSize o) args)
               (last_value sync_pick_c (SyncMove.team_size o) args)
               (last_value sync_pick_N (SyncMove.nsubsteps o) args)
               (last_value sync_pick_x (SyncMove.Rmax o) args)
               (last_value sync_pick_r (SyncMove.accept o) args)
               (last_value sync_pick_j (SyncMove.enableJ3 o) args)
               (last_value sync_pick_v (SyncMove.verbose o) args)
               (last_value sync_pick_t (SyncMove.timer_level_name o) args))
      end
  | _, _, _ => SyncMove.Undefined
  end.
Proof.
  revert o. induction args as [|a args IH]; intros o; [by destruct o|].
  destruct o as [na nb nc nst sd nx ny nz nm ts tm nsub rmax acc j3 vb tl].
  destruct a as [v|v|ns| | |f|v|v|v|v|l| | |v|v| |];
    try (cbn -[mesh_after last_value options_before_stop List.find];
         cbn [options_before_stop sync_opt_stops mesh_after List.find];
         rewrite ?IH; reflexivity).
  - destruct ns as [|x [|y [|z ns]]];
      cbn -[mesh_after last_value options_before_stop List.find];
      cbn [options_before_stop sync_opt_stops mesh_after List.find];
      rewrite IH; reflexivity.
  - cbn -[mesh_after last_value options_before_stop List.find SyncMove.scale_int].
    cbn [options_before_stop sync_opt_stops mesh_after List.find].
    destruct (SyncMove.scale_int nx f) as [x1|]; [|done].
    destruct (SyncMove.scale_int ny f) as [y1|].
    2: { by destruct (mesh_after _ x1). }
    destruct (SyncMove.scale_int nz f) as [z1|].
    2: { destruct (mesh_after _ x1); [|done]. by destruct (mesh_after _ y1). }
    rewrite IH. reflexivity.
Qed.

End OptionLoops.

(** ** The default run and the seed *)

Section DefaultRun.
Context {G NL : Type} `{RandomStream G} `{FloatOps} `{Geometry}
        `{MatrixBackend} `{Quadrature NL}.

Lemma last_value_skip {O A : Type} (pick : O -> option A) (d : A)
      (l1 l2 : list O) (a : O) :
  pick a = None ->
  last_value pick d (l1 ++ a :: l2) = last_value pick d (l1 ++ l2).
Proof.
  intros Ha. unfold last_value. rewrite !fold_left_app. simpl. by rewrite Ha.
Qed.

Lemma find_skip {O : Type} (p : O -> bool) (l1 l2 : list O) (a : O) :
  p a = false -> List.find p (l1 ++ a :: l2) = List.find p (l1 ++ l2).
Proof.
  intros Ha. induction l1 as [|x l1 IH]; simpl; [by rewrite Ha|].
  by destruct (p x).
Qed.

Lemma mesh_skip_seed (l1 l2 : list SyncMove.opt) (v n : Z) :
  mesh_after (options_before_stop (l1 ++ SyncMove.opt_s v :: l2)) n =
  mesh_after (options_before_stop (l1 ++ l2)) n.
Proof.
  revert n. induction l1 as [|x l1 IH]; intros n; [done|]. simpl.
  destruct (sync_opt_stops x); [done|].
  destruct x; simpl; try apply IH.
  destruct (SyncMove.scale_int n meshfactor); [apply IH|done].
Qed.

(** The seed option is parsed and never read: wherever [-s v] stands on
    the command line, the outcome is the one without it. *)
Lemma seed_option_not_read
      (setup_check : Z -> Z -> Z -> CheckDeterminant.state (G:=G))
      (setup_sync : Z * Z * Z -> Z * Z * Z -> Z -> Z -> bool
                    -> list (SyncMove.Mover G NL))
      (v : Z) :
  (forall l1 l2,
     CheckDeterminant.main setup_check (l1 ++ CheckDeterminant.opt_s v :: l2)
     = CheckDeterminant.main setup_check (l1 ++ l2)) /\
  (forall l1 l2,
     SyncMove.main setup_sync (l1 ++ SyncMove.opt_s v :: l2)
     = SyncMove.main setup_sync (l1 ++ l2)).
Proof.
  split; intros l1 l2.
  - unfold CheckDeterminant.main. rewrite !check_parse_closed.
    rewrite !existsb_app. cbn [existsb check_opt_exits orb].
    destruct (existsb check_opt_exits l1 || existsb check_opt_exits l2); [done|].
    cbn [CheckDeterminant.nsteps CheckDeterminant.nsubsteps CheckDeterminant.na
         CheckDeterminant.nb CheckDeterminant.nc].
    by rewrite !last_value_skip by done.
  - unfold SyncMove.main. rewrite !sync_parse_closed. cbv zeta.
    rewrite !mesh_skip_seed, find_skip by done.
    destruct (mesh_after _ (SyncMove.nx _)); [|done].
    destruct (mesh_after _ (SyncMove.ny _)); [|done].
    destruct (mesh_after _ (SyncMove.nz _)); [|done].
    destruct (List.find sync_opt_stops (l1 ++ l2)); [done|].
    cbn [SyncMove.timer_level_name SyncMove.accept SyncMove.Rmax SyncMove.nsteps
         SyncMove.nsubsteps SyncMove.na SyncMove.nb SyncMove.nc SyncMove.nx
         SyncMove.ny SyncMove.nz SyncMove.tileSize SyncMove.nmovers
         SyncMove.enableJ3].
    by rewrite !last_value_skip by done.
Qed.

(** C7: with no command-line options the check driver and the batched
    driver make 5 Monte Carlo steps of 1 substep each, every substep a
    sweep over the electrons, with the acceptance threshold 0.5, [tau] 2.0
    and the displacement of a proposal the normal draw scaled by
    [sqrt(2.0)]. The seed is another matter: [iseed] is 11 without [-s],
    but the variable is never read, and wherever a [-s v] stands on the
    command line the outcome of [main] is the one without it. *)
Theorem default_run_ignores_seed
        (setup_check : Z -> Z -> Z -> CheckDeterminant.state (G:=G))
        (setup_sync : Z * Z * Z -> Z * Z * Z -> Z -> Z -> bool
                      -> list (SyncMove.Mover G NL)) :
  (CheckDeterminant.main setup_check [] =
     Some (CheckDeterminant.run 5 1 (setup_check 1 1 1)%Z) /\
   (forall s : CheckDeterminant.state (G:=G),
      activations (CheckDeterminant.run 5 1 s).2 =
        sweeps_order 5 1 (getTotalNum (CheckDeterminant.els s)) /\
      forall e, In e (CheckDeterminant.run 5 1 s).2 ->
                test_reads (1 # 2)%Q (CheckDeterminant.draw_ur s).1 e)) /\
  (SyncMove.main setup_sync [] =
     match SyncMove.run (1 # 2)%Q SyncMove.Rmax_default 5 1
             (setup_sync (1, 1, 1)%Z (37, 37, 37)%Z (-1)%Z 1%Z false) with
     | Some r => SyncMove.Proceeds r
     | None => SyncMove.Undefined
     end /\
   (forall (m0 : SyncMove.Mover G NL) (rest : list (SyncMove.Mover G NL)),
      activations <$>
        (snd <$> SyncMove.run (1 # 2)%Q SyncMove.Rmax_default 5 1 (m0 :: rest)) =
      Some (sweeps_order 5 1 (getTotalNum (SyncMove.els m0))))) /\
  (tau = 2%Q /\ sqrttau = fsqrt 2%Q /\
   forall delta iw,
     SyncMove.dr_of delta iw = pos_scale (fsqrt 2%Q) (delta_at delta iw)) /\
  (CheckDeterminant.iseed CheckDeterminant.defaults = 11%Z /\
   SyncMove.iseed SyncMove.defaults = 11%Z /\
   forall v : Z,
     (forall l1 l2,
        CheckDeterminant.main setup_check (l1 ++ CheckDeterminant.opt_s v :: l2)
        = CheckDeterminant.main setup_check (l1 ++ l2)) /\
     (forall l1 l2,
        SyncMove.main setup_sync (l1 ++ SyncMove.opt_s v :: l2)
        = SyncMove.main setup_sync (l1 ++ l2))).
Proof.
  split; [|split; [|split]].
  - split; [done|]. intros s. split.
    + apply (check_run_totals 5 1 s).
    + intros e He. by apply (check_run_test_reads 5 1 s e).
  - split; [done|]. intros m0 rest. unfold SyncMove.run. simpl. f_equal.
    unfold for_loop.
    apply (for_from_activations_const (fun l => length l = S (length rest)));
      [|done].
    intros i l Hl.
    destruct (sync_mc_step_totals (1 # 2)%Q SyncMove.Rmax_default 1
                (getTotalNum (SyncMove.els m0))
                (nlpp_size (SyncMove.nlpp m0)) l) as (Hlen & _ & Hact).
    split; [congruence|]. apply Hact. intros ->. done.
  - repeat split.
  - split; [done|]. split; [done|]. apply seed_option_not_read.
Qed.
End DefaultRun.

(** * Runs of the concrete world *)

Import Toy.

Lemma check_ur_drawn_once_witness :
  In (EvTest 0 1 (465823161 # 2147483648)%Q false)
     (CheckDeterminant.run 2 1 (check0 3)).2 /\
  ~ In (EvAccept 0 1) (CheckDeterminant.run 2 1 (check0 3)).2.
Proof.
  split.
  - in_trace.
  - apply (proj2 (proj2 (proj2 (check_ur_drawn_once 2 1 (check0 3))))).
    vm_compute. reflexivity.
Defined.

Lemma default_run_ignores_seed_witness :
  let e := EvTest 0 1 (465823161 # 2147483648)%Q false in
  In e (CheckDeterminant.run 5 1 (check0 3)).2 /\
  test_reads (1 # 2)%Q (CheckDeterminant.draw_ur (check0 3)).1 e.
Proof.
  intros e.
  assert (He : In e (CheckDeterminant.run 5 1 (check0 3)).2) by in_trace.
  split; [exact He|].
  exact (proj2 (proj2 (proj1
           (default_run_ignores_seed (G:=Z) (NL:=unit)
              (fun _ _ _ => check0 3) (fun _ _ _ _ _ => [mover0 3])))
           (check0 3)) e He).
Defined.

(** C1 as stated fails in the check driver: the proposal is valid and the
    draw 1/4 is less than the threshold 1/2, yet the move is rejected. *)
Lemma check_rejects_draw_below_threshold :
  let ur := [(1 # 4)%Q] in
  let tr := (CheckDeterminant.electron_step CheckDeterminant.accept ur
               [0%Q; 0%Q; 0%Q] 0 (check0 3)).2 in
  ~ (In (EvMakeMove 0 0 true) tr ->
     (In (EvAccept 0 0) tr <-> (nth 0 ur 0 < CheckDeterminant.accept)%Q)).
Proof.
  intros ur tr Hclaim.
  assert (Hv : In (EvMakeMove 0 0 true) tr) by in_trace.
  destruct (Hclaim Hv) as [_ Hacc].
  assert (Hin : In (EvAccept 0 0) tr) by (apply Hacc; reflexivity).
  revert Hin. not_in_trace.
Qed.

Lemma accept_test_of_valid_move_witness :
  let trc := (CheckDeterminant.electron_step (1 # 2)%Q [(3 # 4)%Q]
                [0%Q; 0%Q; 0%Q] 0 (check0 3)).2 in
  let trs := (SyncMove.electron_step (1 # 2)%Q 0 [mover0 3; mover0 5]).2 in
  (In (EvMakeMove 0 0 true) trc /\
   (In (EvAccept 0 0) trc <-> ((1 # 2) < nth 0 [(3 # 4)%Q] 0)%Q)) /\
  (In (EvMakeMove 1 0 true) trs /\
   exists u : RealType,
     In (EvTest 1 0 u (real_lt u (1 # 2)%Q)) trs /\
     (In (EvAccept 1 0) trs <-> (u < 1 # 2)%Q) /\
     (In (EvReject 1 0) trs <-> ~ (u < 1 # 2)%Q)).
Proof.
  intros trc trs.
  assert (Hc : In (EvMakeMove 0 0 true) trc) by in_trace.
  assert (Hs : In (EvMakeMove 1 0 true) trs) by in_trace.
  split; (split; [assumption|]).
  - exact (proj1 (proj1 (accept_test_of_valid_move (G:=Z) (NL:=unit) (1 # 2)%Q)
                    [(3 # 4)%Q] [0%Q; 0%Q; 0%Q] 0 (check0 3) Hc)).
  - exact (proj2 (accept_test_of_valid_move (G:=Z) (NL:=unit) (1 # 2)%Q)
             0 [mover0 3; mover0 5] 1 Hs).
Defined.

(** C2 as stated fails: walker 1 of a batch of two is accepted at electron
    0 and moves, while the same walker run alone, with its own stream, is
    rejected there and ends where it started. *)
Lemma batch_differs_from_alone :
  exists msB tB msA tA mB mA,
    SyncMove.run (1 # 2)%Q (17 # 10)%Q 1 1 [mover0 3; mover0 5] = Some (msB, tB) /\
    SyncMove.run (1 # 2)%Q (17 # 10)%Q 1 1 [mover0 5] = Some (msA, tA) /\
    msB !! 1 = Some mB /\ msA !! 0 = Some mA /\
    In (EvAccept 1 0) tB /\ In (EvReject 0 0) tA /\ ~ In (EvAccept 0 0) tA /\
    R (SyncMove.els mB) <> R (SyncMove.els mA).
Proof.
  do 6 eexists.
  split; [vm_compute; reflexivity|]. split; [vm_compute; reflexivity|].
  split; [reflexivity|]. split; [reflexivity|].
  split; [in_trace|]. split; [in_trace|]. split; [not_in_trace|].
  vm_compute. intros Heq. discriminate Heq.
Qed.

(** The draw a walker is tested against depends on which walkers before it
    passed the validity check: with the same streams and the same walker 1,
    walker 1 is tested against [ur[1]] when walker 0 is valid and against
    [ur[0]] when walker 0 is not. *)
Lemma draw_depends_on_validity_of_others :
  let trA := (SyncMove.electron_step (1 # 2)%Q 0 [mover0 3; mover0 5]).2 in
  let trB := (SyncMove.electron_step (1 # 2)%Q 0 [far_mover 3; mover0 5]).2 in
  In (EvMakeMove 0 0 true) trA /\
  In (EvTest 1 0 (nth 1 (sync_ur (mover0 3) [mover0 5]) 0%Q) true) trA /\
  In (EvMakeMove 0 0 false) trB /\
  In (EvTest 1 0 (nth 0 (sync_ur (far_mover 3) [mover0 5]) 0%Q) false) trB.
Proof. repeat split; in_trace. Qed.

Lemma batched_step_refines_engine_witness :
  let r := SyncMove.electron_step (1 # 2)%Q 0 [mover0 3; mover0 5] in
  let e := SyncMove.engine_step (1 # 2)%Q 0
             (nth 1 (sync_ur (mover0 3) [mover0 5]) 0%Q)
             (SyncMove.dr_of (sync_delta (mover0 3) [mover0 5]) 1) (mover0 5) in
  (exists m', r.1 !! 1 = Some m' /\ same_outcome e.1 m') /\
  (In (EvAccept 1 0) r.2 <-> e.2 = true).
Proof.
  refine (proj2 (proj2 (batched_step_refines_engine (1 # 2)%Q 0 1 (mover0 3)
                          [mover0 5] (mover0 5) eq_refl _))).
  intros i mi Hi Hmi. destruct i as [|i]; [|lia].
  injection Hmi as <-. vm_compute. reflexivity.
Defined.

Lemma invalid_move_skips_ratio_witness :
  let rc := CheckDeterminant.electron_step (1 # 2)%Q [(3 # 4)%Q]
              [0%Q; 0%Q; 0%Q] 0 (check_far 3) in
  let rs := SyncMove.electron_step (1 # 2)%Q 0 [far_mover 3; mover0 5] in
  (In (EvMakeMove 0 0 false) rc.2 /\
   rc.2 = [EvSetActive 0; EvMakeMove 0 0 false]) /\
  (In (EvMakeMove 0 0 false) rs.2 /\ ~ In (EvRatio 0 0) rs.2).
Proof.
  intros rc rs.
  assert (Hc : In (EvMakeMove 0 0 false) rc.2) by in_trace.
  assert (Hs : In (EvMakeMove 0 0 false) rs.2) by in_trace.
  split; (split; [assumption|]).
  - exact (proj1 (proj1 (invalid_move_skips_ratio (G:=Z) (NL:=unit) (1 # 2)%Q)
                    [(3 # 4)%Q] [0%Q; 0%Q; 0%Q] 0 (check_far 3) Hc)).
  - exact (proj1 (proj2 (invalid_move_skips_ratio (G:=Z) (NL:=unit) (1 # 2)%Q)
                    0 [far_mover 3; mover0 5] 0 Hs)).
Defined.

Lemma rejected_move_keeps_state_witness :
  let rc := CheckDeterminant.electron_step (1 # 2)%Q [(1 # 4)%Q]
              [0%Q; 0%Q; 0%Q] 0 (check0 3) in
  let rs := for_loop 3 (fun _ => SyncMove.electron_step (1 # 2)%Q 0) [mover0 5] in
  (~ In (EvAccept 0 0) rc.2 /\ check_same_committed (check0 3) rc.1) /\
  (~ In (EvAccept 0 0) rs.2 /\
   exists m', rs.1 !! 0 = Some m' /\ mover_same_committed (mover0 5) m').
Proof.
  intros rc rs.
  assert (Hc : ~ In (EvAccept 0 0) rc.2) by not_in_trace.
  assert (Hs : ~ In (EvAccept 0 0) rs.2) by not_in_trace.
  split; (split; [assumption|]).
  - exact (proj1 (rejected_move_keeps_state (G:=Z) (NL:=unit) (1 # 2)%Q)
             [(1 # 4)%Q] [0%Q; 0%Q; 0%Q] 0 (check0 3) Hc).
  - exact (proj2 (proj2 (proj2 (rejected_move_keeps_state (G:=Z) (NL:=unit) (1 # 2)%Q)))
             0 3 0 [mover0 5] (mover0 5) eq_refl Hs).
Defined.

Lemma electrons_processed_in_order_witness :
  activations (SyncMove.sweep (1 # 2)%Q 2 [mover0 3; mover0 5]).2 = [0; 1].
Proof.
  exact (proj2 (proj1 (proj2 (electrons_processed_in_order
                                (G:=Z) (NL:=unit) (C:=nat) (1 # 2)%Q 2))
                  (mover0 3) [mover0 5])).
Defined.

(** C6 as stated fails: with two substeps a Monte Carlo step makes two
    sweeps over the electrons 0 and 1 and one finalize; no finalize stands
    between the two sweeps. *)
Lemma finalize_not_after_every_sweep :
  exists ms' tr,
    SyncMove.run (1 # 2)%Q (17 # 10)%Q 1 2 [mover0 5] = Some (ms', tr) /\
    activations tr = [0; 1; 0; 1] /\
    count_event starts_sweep tr = 2 /\
    count_event is_donePbyP tr = 1 /\
    count_event is_donePbyP tr <> count_event starts_sweep tr.
Proof.
  do 2 eexists. split; [vm_compute; reflexivity|].
  repeat split; try (vm_compute; reflexivity). vm_compute. intros Heq. discriminate Heq.
Qed.

Lemma finalize_once_per_mc_step_witness :
  exists ms' tr,
    SyncMove.run (1 # 2)%Q (17 # 10)%Q 1 2 [mover0 5] = Some (ms', tr) /\
    count_event is_donePbyP tr = Z.to_nat 1.
Proof.
  do 2 eexists. split; [vm_compute; reflexivity|].
  refine (proj2 (proj1 (finalize_once_per_mc_step (G:=Z) (NL:=unit) (C:=nat)
                          (1 # 2)%Q (17 # 10)%Q 1 2) [mover0 5] _ _ _)).
  vm_compute. reflexivity.
Defined.

(** C9 as stated fails: walker 1 of the batch has one pair and the batch
    two slots; at its sentinel slot its ratio entries are not the initial
    0.0 but those its one pair left. *)
Lemma sentinel_slot_keeps_last_ratios :
  let ms := [mover0 3; far_mover 5] in
  let maxSize := SyncMove.max_pairs (SyncMove.EiPairs_of (17 # 10)%Q ms) in
  let st0 := (ms, SyncMove.setup_work (17 # 10)%Q maxSize 2 2 <$> ms) in
  SyncMove.FindNumEiPairs (17 # 10)%Q (SyncMove.els (far_mover 5)) = 1 /\
  maxSize = 2 /\
  SyncMove.pair_at 1 (SyncMove.setup_work (17 # 10)%Q maxSize 2 2 (far_mover 5))
    = ((-1)%Z, 0%Z) /\
  (SyncMove.ratios <$> (for_loop 1 SyncMove.pair_step st0).1.2 !! 1)
    = Some [2%Q; 2%Q] /\
  (SyncMove.ratios <$> (for_loop 2 SyncMove.pair_step st0).1.2 !! 1)
    = Some [2%Q; 2%Q] /\
  (SyncMove.ratios <$> (for_loop 2 SyncMove.pair_step st0).1.2 !! 1)
    <> Some (replicate 2 0%Q).
Proof.
  repeat split; try (vm_compute; reflexivity).
  vm_compute. intros Heq. discriminate Heq.
Qed.

Lemma pair_loop_lockstep_witness :
  let ms := [mover0 3; far_mover 5] in
  let maxSize := SyncMove.max_pairs (SyncMove.EiPairs_of (17 # 10)%Q ms) in
  let st0 := (ms, SyncMove.setup_work (17 # 10)%Q maxSize 2 2 <$> ms) in
  let m := far_mover 5 in
  let pairs := ei_pairs (17 # 10)%Q (SyncMove.els m) in
  let wk0 := SyncMove.setup_work (17 # 10)%Q maxSize 2 2 m in
  ms !! 1 = Some m /\
  SyncMove.FindNumEiPairs (17 # 10)%Q (SyncMove.els m) <= 1 < maxSize /\
  SyncMove.pair_at 1 wk0 = ((-1)%Z, 0%Z) /\
  exists wk wk',
    (for_loop 1 SyncMove.pair_step st0).1.2 !! 1 = Some wk /\
    (for_loop 2 SyncMove.pair_step st0).1.2 !! 1 = Some wk' /\
    match pairs !! 1 with
    | Some p =>
        SyncMove.bigElPos wk' =
          (sphere_position (SyncMove.els m) p.1 p.2 <$> SyncMove.rOnSphere wk0) /\
        SyncMove.tempPsiV wk' = (evaluate <$> SyncMove.bigElPos wk') /\
        SyncMove.ratios wk' =
          ((fun row => inner_product row (psiMinv (SyncMove.wavefunction m)) p.1)
             <$> SyncMove.tempPsiV wk')
    | None =>
        SyncMove.bigElPos wk' = SyncMove.bigElPos wk /\
        SyncMove.ratios wk' = SyncMove.ratios wk /\
        SyncMove.tempPsiV wk' = (evaluate <$> SyncMove.bigElPos wk)
    end.
Proof.
  intros ms maxSize st0 m pairs wk0.
  assert (Hk : ms !! 1 = Some m) by reflexivity.
  assert (Hc : SyncMove.FindNumEiPairs (17 # 10)%Q (SyncMove.els m) <= 1
               < maxSize) by (vm_compute; lia).
  pose proof (proj2 (proj2 (proj2 (proj2
                (pair_loop_lockstep (17 # 10)%Q 2 2 ms)))) 1 m Hk) as Hw.
  split; [exact Hk|]. split; [exact Hc|]. split.
  - exact (proj1 (proj2 (proj2 (proj2 Hw))) 1 Hc).
  - exact (proj1 (proj2 (proj2 (proj2 (proj2 (proj2 Hw))))) 1 (proj2 Hc)).
Defined.

(** ** Runs for the further properties *)

Lemma batched_test_reads_valid_rank_witness :
  let isValid := (sync_proposed 0 (far_mover 3) [mover0 5]).2 in
  let c := valid_before isValid 1 in
  let u := nth c (sync_ur (far_mover 3) [mover0 5]) 0%Q in
  let tr := (SyncMove.electron_step (1 # 2)%Q 0 [far_mover 3; mover0 5]).2 in
  isValid !! 1 = Some true /\ c = 0 /\
  In (EvTest 1 0 u (real_lt u (1 # 2)%Q)) tr /\ c <= 1.
Proof.
  intros isValid c u tr.
  assert (Hv : isValid !! 1 = Some true) by (vm_compute; reflexivity).
  pose proof (batched_test_reads_valid_rank (1 # 2)%Q 0 1 (far_mover 3)
                [mover0 5] Hv) as Hthm.
  split; [exact Hv|]. split; [vm_compute; reflexivity|].
  split; [exact (proj1 Hthm)|].
  exact (proj1 (proj2 (proj2 (proj2 (proj2 Hthm))))).
Defined.

Lemma pair_lists_hold_all_pairs_witness :
  let ms := [mover0 3; far_mover 5] in
  let maxSize := SyncMove.max_pairs (SyncMove.EiPairs_of (17 # 10)%Q ms) in
  let pairs := ei_pairs (17 # 10)%Q (SyncMove.els (far_mover 5)) in
  far_mover 5 ∈ ms /\
  pairs = [(1, 0)] /\ maxSize = 2 /\
  SyncMove.EiList (SyncMove.setup_work (17 # 10)%Q maxSize 2 2 (far_mover 5)) =
    (pair_slot <$> pairs) ++ replicate (maxSize - length pairs) ((-1)%Z, 0%Z).
Proof.
  intros ms maxSize pairs.
  assert (Hm : far_mover 5 ∈ ms).
  { apply list_elem_of_In. right. left. reflexivity. }
  split; [exact Hm|]. split; [vm_compute; reflexivity|].
  split; [vm_compute; reflexivity|].
  exact (proj1 (pair_lists_hold_all_pairs (17 # 10)%Q 2 2 ms (far_mover 5) Hm)).
Defined.

Lemma crowd_accepts_bounded_witness :
  (CrowdDriver.movers_thread_main (C:=nat) (1 # 2)%Q (17 # 10)%Q 2 1 2 1 0).1.2
    <= Z.to_nat 2 * (Z.to_nat 1 * (2 * 1)).
Proof.
  apply (crowd_accepts_bounded (C:=nat) (1 # 2)%Q (17 # 10)%Q 2 1 2 1 1 0).
  intros iel c. simpl. lia.
Defined.

Lemma tiles_fit_into_orbitals_witness :
  (2 <= 16)%Z /\
  exists ts nTiles : Z,
    tile_setup 3 16 = Some (ts, nTiles) /\
    ts = (if (0 <? 3)%Z then 3%Z else (16 ÷ 2)%Z) /\
    (0 < ts)%Z /\
    (nTiles * ts <= 16 ÷ 2 < (nTiles + 1) * ts)%Z /\
    ((3 <= 0)%Z -> nTiles = 1%Z) /\
    ((16 ÷ 2 < 3)%Z -> nTiles = 0%Z) /\
    ((nTiles * ts)%Z = (16 ÷ 2)%Z <-> ((16 ÷ 2) mod ts)%Z = 0%Z).
Proof.
  assert (Hn : (2 <= 16)%Z) by lia.
  split; [exact Hn|]. exact (proj2 (tiles_fit_into_orbitals 3 16) Hn).
Defined.

(** The option loops on command lines that end them early: a non-option
    argument ends the check driver and keeps the batched driver in its
    loop; a mesh factor whose product leaves the values of int makes the
    behaviour undefined, unless an earlier option already returned; a -g
    with two numbers leaves the third as it was. *)
Lemma option_loops_ending_early :
  CheckDeterminant.main (fun _ _ _ => check0 3) [CheckDeterminant.opt_none] = None /\
  SyncMove.main (fun _ _ _ _ _ => [mover0 3]) [SyncMove.opt_n 2; SyncMove.opt_none]
    = SyncMove.NeverEnds /\
  SyncMove.main (fun _ _ _ _ _ => [mover0 3]) [SyncMove.opt_m 1000000000%Q]
    = SyncMove.Undefined /\
  SyncMove.main (fun _ _ _ _ _ => [mover0 3])
    [SyncMove.opt_h; SyncMove.opt_m 1000000000%Q] = SyncMove.Returns1 /\
  SyncMove.parse_options [SyncMove.opt_m 2%Q] SyncMove.defaults
    = SyncMove.parse_options []
        (SyncMove.mkOptions 1 1 1 5 11 74 74 74 1 (-1) 1 1 SyncMove.Rmax_default
           (1 # 2)%Q false false "fine"%string) /\
  CheckDeterminant.parse_options [CheckDeterminant.opt_g [2; 3]%Z]
    CheckDeterminant.defaults
    = Some (CheckDeterminant.mkOptions 2 3 1 5 11 1 false).
Proof. repeat split; vm_compute; reflexivity. Qed.
